(** * The download queue and concurrent worker coordinator of [backend.py]

    A shallow embedding of the download core of the book downloader:
    the filename helper, the job record store used through [book_queue],
    the fetch-and-publish worker ([_download_book_with_cancellation],
    [_process_single_download], [update_download_progress],
    [get_book_data]) and the coordinator loop
    ([concurrent_download_loop]).

    Python strings are modelled as [string] whose characters are the code
    points below 256; Python [int] as [Z]; Python [float] as the IEEE 754
    binary64 type [float]; dictionaries as [gmap]; the file system as a
    finite map from path strings to file contents. *)

From Stdlib Require Import ZArith Ascii Floats.
From stdpp Require Import gmap strings list fin_maps sorting.

Local Open Scope Z_scope.

(** ** Strings and file names *)

Module Str.

(** [str.isalnum] on one character, for the code points below 256:
    the decimal digits, the ASCII letters, and the Latin-1 letters and
    numeric characters. *)
Definition isalnum (c : ascii) : bool :=
  let n := N_of_ascii c in
  ((48 <=? n) && (n <=? 57) || (65 <=? n) && (n <=? 90)
   || (97 <=? n) && (n <=? 122)
   || (n =? 170) || (n =? 178) || (n =? 179) || (n =? 181)
   || (n =? 185) || (n =? 186) || (188 <=? n) && (n <=? 190)
   || (192 <=? n) && (n <=? 214) || (216 <=? n) && (n <=? 246)
   || (248 <=? n))%N.

(** [str.isspace] on one character, for the code points below 256. *)
Definition isspace (c : ascii) : bool :=
  let n := N_of_ascii c in
  ((9 <=? n) && (n <=? 13) || (28 <=? n) && (n <=? 32)
   || (n =? 133) || (n =? 160))%N.

(** The generator expression [c for c in s if p c], joined. *)
Fixpoint filter (p : ascii → bool) (s : string) : string :=
  match s with
  | EmptyString => EmptyString
  | String c s' => if p c then String c (filter p s') else filter p s'
  end.

(** [str.rstrip()] without argument: trailing white space is dropped. *)
Fixpoint rstrip (s : string) : string :=
  match s with
  | EmptyString => EmptyString
  | String c s' =>
      match rstrip s' with
      | EmptyString => if isspace c then EmptyString else String c EmptyString
      | r => String c r
      end
  end.

(** [c in s] for a character. *)
Fixpoint mem (c : ascii) (s : string) : bool :=
  match s with
  | EmptyString => false
  | String d s' => if decide (c = d) then true else mem c s'
  end.

(** [str.lstrip()] and [str.strip()] without argument. *)
Fixpoint lstrip (s : string) : string :=
  match s with
  | EmptyString => EmptyString
  | String c s' => if isspace c then lstrip s' else s
  end.

Definition strip (s : string) : string := rstrip (lstrip s).

(** The slice [s[:n]]. *)
Fixpoint take (n : nat) (s : string) : string :=
  match n, s with
  | S m, String c s' => String c (take m s')
  | _, _ => EmptyString
  end.

(** [re.sub(cls, repl, s)] for a pattern [cls] that matches exactly one
    character, given as a predicate: every matching character is
    replaced by [repl]. *)
Fixpoint sub_chars (p : ascii → bool) (repl : string) (s : string) : string :=
  match s with
  | EmptyString => EmptyString
  | String c s' =>
      (if p c then repl else String c EmptyString) +:+ sub_chars p repl s'
  end.

End Str.

(** [keepcharacters = (' ','.','_')] *)
Definition keepcharacters : list ascii := [" "; "."; "_"]%char.

(** [_sanitize_filename]: keep the alphanumeric characters and the three
    characters of [keepcharacters], then strip trailing white space. *)
Definition _sanitize_filename (filename : string) : string :=
  Str.rstrip
    (Str.filter (λ c, Str.isalnum c || bool_decide (c ∈ keepcharacters)) filename).

(** [pathlib]'s [dir / name] for a relative, single-component [name]. *)
Definition path_join (dir name : string) : string := dir +:+ "/" +:+ name.

(** ** Configuration

    [env.py] and [config.py] are not part of the sources at hand; their
    constants are taken as parameters. *)

Record Config := mkConfig {
  TMP_DIR : string;
  INGEST_DIR : string;
  USE_BOOK_TITLE : bool;
  CUSTOM_SCRIPT : string;
  MAX_CONCURRENT_DOWNLOADS : nat
}.

(** ** Job records *)

Inductive QueueStatus :=
| QUEUED | PROCESSING | DOWNLOADING | AVAILABLE | ERROR | CANCELLED.

Global Instance QueueStatus_eq_dec : EqDecision QueueStatus.
Proof. solve_decision. Defined.

(** The fields of [BookInfo] that the download core reads or writes. *)
Record BookInfo := mkBookInfo {
  id : string;
  title : string;
  format : string;
  download_path : option string;
  progress : option float
}.

Definition set_download_path (p : option string) (b : BookInfo) : BookInfo :=
  {| id := id b; title := title b; format := format b;
     download_path := p; progress := progress b |}.

Definition set_progress (v : option float) (b : BookInfo) : BookInfo :=
  {| id := id b; title := title b; format := format b;
     download_path := download_path b; progress := v |}.

(** One record per tracked book identifier. *)
Record JobRecord := mkJobRecord {
  info : BookInfo;
  status : QueueStatus;
  priority : Z;
  insertionSeq : nat;
  cancelSignal : bool
}.

Definition set_info (f : BookInfo → BookInfo) (r : JobRecord) : JobRecord :=
  {| info := f (info r); status := status r; priority := priority r;
     insertionSeq := insertionSeq r; cancelSignal := cancelSignal r |}.

Definition set_status (s : QueueStatus) (r : JobRecord) : JobRecord :=
  {| info := info r; status := s; priority := priority r;
     insertionSeq := insertionSeq r; cancelSignal := cancelSignal r |}.

Definition set_priority_field (p : Z) (r : JobRecord) : JobRecord :=
  {| info := info r; status := status r; priority := p;
     insertionSeq := insertionSeq r; cancelSignal := cancelSignal r |}.

Definition set_cancelSignal (c : bool) (r : JobRecord) : JobRecord :=
  {| info := info r; status := status r; priority := priority r;
     insertionSeq := insertionSeq r; cancelSignal := c |}.

Definition is_active (s : QueueStatus) : bool :=
  match s with PROCESSING | DOWNLOADING => true | _ => false end.

Definition is_terminal (s : QueueStatus) : bool :=
  match s with AVAILABLE | ERROR | CANCELLED => true | _ => false end.

Definition is_queued (s : QueueStatus) : bool :=
  match s with QUEUED => true | _ => false end.

(** ** The job record store, [book_queue]

    [models.py], which defines the class of [book_queue], is not part of
    the sources at hand.  Its methods are modelled from the specification
    of the Job Record Store, the Priority Scheduler and the Cancellation
    Registry.  A cancellation signal (a [threading.Event]) is identified
    by the identifier of the job that owns it, so that the registry and
    the worker share one signal. *)

Record BookQueue := mkBookQueue {
  jobs : gmap string JobRecord;
  next_seq : nat
}.

(** A reference to the [Event] of a job. *)
Abbreviation Event := string.

Module book_queue.

Definition empty : BookQueue := {| jobs := ∅; next_seq := 0 |}.

Definition with_jobs (m : gmap string JobRecord) (q : BookQueue) : BookQueue :=
  {| jobs := m; next_seq := next_seq q |}.

(** [book_queue._book_data[book_id]], [None] standing for [KeyError]. *)
Definition _book_data (book_id : string) (q : BookQueue) : option BookInfo :=
  info <$> jobs q !! book_id.

(** Modelled from the spec: [get_status_for_book] is the store's
    [get(id)] restricted to the status. *)
Definition get_status_for_book (book_id : string) (q : BookQueue)
  : option QueueStatus :=
  status <$> jobs q !! book_id.

(** Modelled from the spec: [add] is [upsert(id, info, priority)]; a
    record is created on enqueue with status [Queued], the priority as
    given, a fresh cancellation signal, progress reset to 0 and no
    download path; re-enqueueing an identifier that is already
    [Queued], [Processing] or [Downloading] is a no-op. *)
Definition add (book_id : string) (book_data : BookInfo) (prio : Z)
    (q : BookQueue) : BookQueue :=
  let fresh :=
    {| jobs :=
         <[book_id :=
             {| info := set_progress (Some 0%float)
                          (set_download_path None book_data);
                status := QUEUED; priority := prio;
                insertionSeq := next_seq q; cancelSignal := false |}]>
           (jobs q);
       next_seq := S (next_seq q) |} in
  match jobs q !! book_id with
  | Some r => if is_queued (status r) || is_active (status r) then q else fresh
  | None => fresh
  end.

(** Modelled from the spec: [setStatus(id, status)]. *)
Definition update_status (book_id : string) (s : QueueStatus)
    (q : BookQueue) : BookQueue :=
  with_jobs (alter (set_status s) book_id (jobs q)) q.

(** Modelled from the spec: [setProgress(id, value)]. *)
Definition update_progress (book_id : string) (v : float)
    (q : BookQueue) : BookQueue :=
  with_jobs (alter (set_info (set_progress (Some v))) book_id (jobs q)) q.

(** Modelled from the spec: [setDownloadPath(id, path)]. *)
Definition update_download_path (book_id : string) (path : string)
    (q : BookQueue) : BookQueue :=
  with_jobs
    (alter (set_info (set_download_path (Some path))) book_id (jobs q)) q.

(** The scheduler's order: priority ascending, then insertion sequence
    ascending. *)
Definition key_le (a b : JobRecord) : bool :=
  (priority a <? priority b)
  || ((priority a =? priority b) && (insertionSeq a <=? insertionSeq b)%nat).

(** The records the scheduler orders: those with status [Queued]. *)
Definition queued (q : BookQueue) : list (string * JobRecord) :=
  map_to_list (filter (λ p, status p.2 = QUEUED) (jobs q)).

Fixpoint min_job (best : string * JobRecord) (l : list (string * JobRecord))
  : string * JobRecord :=
  match l with
  | [] => best
  | x :: l' => if key_le best.2 x.2 then min_job best l' else min_job x l'
  end.

(** Modelled from the spec: [get_next] is [nextRunnable()]; it selects
    the minimal [Queued] record, moves it to [Processing] and returns
    its identifier together with a freshly associated (unset)
    cancellation signal; [None] when no record is [Queued]. *)
Definition get_next (q : BookQueue) : option (string * Event) * BookQueue :=
  match queued q with
  | [] => (None, q)
  | x :: l =>
      let m := min_job x l in
      (Some (m.1, m.1),
       with_jobs
         (<[m.1 := set_cancelSignal false (set_status PROCESSING m.2)]> (jobs q))
         q)
  end.

(** [cancel_flag.is_set()] for the signal of a job. *)
Definition is_set (cancel_flag : Event) (q : BookQueue) : bool :=
  from_option cancelSignal false (jobs q !! cancel_flag).

(** Modelled from the spec: [cancel_download] is [cancel(jobId)]; a
    [Queued] job becomes [Cancelled] at once, for a [Processing] or
    [Downloading] job only the signal is set and the worker drives the
    transition; a terminal or unknown job reports [False]. *)
Definition cancel_download (book_id : string) (q : BookQueue)
  : bool * BookQueue :=
  match jobs q !! book_id with
  | Some r =>
      match status r with
      | QUEUED =>
          (true,
           with_jobs
             (<[book_id := set_cancelSignal true (set_status CANCELLED r)]>
                (jobs q)) q)
      | PROCESSING | DOWNLOADING =>
          (true, with_jobs (<[book_id := set_cancelSignal true r]> (jobs q)) q)
      | _ => (false, q)
      end
  | None => (false, q)
  end.

(** Modelled from the spec: [set_priority] is [setPriority(id,
    priority)], which applies to [Queued] jobs only. *)
Definition set_priority (book_id : string) (prio : Z) (q : BookQueue)
  : bool * BookQueue :=
  match jobs q !! book_id with
  | Some r =>
      if is_queued (status r)
      then (true, with_jobs (<[book_id := set_priority_field prio r]> (jobs q)) q)
      else (false, q)
  | None => (false, q)
  end.

(** Modelled from the spec: [clear_completed] is [clearTerminal()]; it
    removes exactly the records in a terminal state. *)
Definition clear_completed (q : BookQueue) : nat * BookQueue :=
  (size (filter (λ p, is_terminal (status p.2) = true) (jobs q)),
   with_jobs (filter (λ p, is_terminal (status p.2) = false) (jobs q)) q).

(** Modelled from the spec: [get_active_downloads] is [activeJobs()]. *)
Definition get_active_downloads (q : BookQueue) : gset string :=
  dom (filter (λ p, is_active (status p.2) = true) (jobs q)).

End book_queue.

(** A sequence of enqueue operations on the store, in order. *)
Definition enqueue_all (ops : list (string * BookInfo * Z)) (q : BookQueue)
  : BookQueue :=
  foldl (λ q op, book_queue.add op.1.1 op.1.2 op.2 q) q ops.

(** The identifiers handed out by at most [n] successive calls of
    [get_next], which stop at the first call that reports empty. *)
Fixpoint drain (n : nat) (q : BookQueue) : list string :=
  match n with
  | O => []
  | S n' =>
      match book_queue.get_next q with
      | (Some (book_id, _), q') => book_id :: drain n' q'
      | (None, _) => []
      end
  end.

(** The position and the priority of the first enqueue of [book_id] in
    a sequence of enqueue operations. *)
Fixpoint first_op (ops : list (string * BookInfo * Z)) (book_id : string)
  : option (nat * Z) :=
  match ops with
  | [] => None
  | op :: ops' =>
      if decide (op.1.1 = book_id) then Some (O, op.2)
      else (λ ip, (S ip.1, ip.2)) <$> first_op ops' book_id
  end.

(** ** [update_download_progress] *)

Definition update_download_progress (book_id : string) (progress : float)
    (q : BookQueue) : BookQueue :=
  let current_status := book_queue.get_status_for_book book_id q in
  let q1 :=
    if decide (current_status = Some PROCESSING)
    then book_queue.update_status book_id DOWNLOADING q
    else q in
  book_queue.update_progress book_id progress q1.

(** ** The world of a worker run

    A worker run threads the job record store, the file system, the log
    and a clock through its calls.  Two further fields are ghost
    instrumentation: [fs_trace] keeps every state the file system went
    through (most recent first), [status_trace] keeps every change of
    a job's status made through the store (most recent first), with the
    caller, the status found and the status left. *)

Inductive LogLevel := INFO | DEBUG | ERROR_TRACE.

(** Who changed a status: the worker body, the [n]-th invocation (from
    0) of the progress callback, or an external [cancel_download]. *)
Inductive Origin :=
| FromWorker
| FromProgressCallback (n : nat)
| FromCancelRequest.

Global Instance Origin_eq_dec : EqDecision Origin.
Proof. solve_decision. Defined.

Record StatusWrite := mkStatusWrite {
  sw_origin : Origin;
  sw_id : string;
  sw_before : option QueueStatus;
  sw_after : option QueueStatus
}.

Abbreviation FileSystem := (gmap string (list Byte.byte)).

Record World := mkWorld {
  queue : BookQueue;
  fs : FileSystem;
  clock : nat;
  log : list (LogLevel * string);
  fs_trace : list FileSystem;
  status_trace : list StatusWrite
}.

Definition with_queue (q : BookQueue) (w : World) : World :=
  {| queue := q; fs := fs w; clock := clock w; log := log w;
     fs_trace := fs_trace w; status_trace := status_trace w |}.

(** Every change of the file system is recorded in [fs_trace]. *)
Definition with_fs (f : FileSystem) (w : World) : World :=
  {| queue := queue w; fs := f; clock := clock w; log := log w;
     fs_trace := f :: fs_trace w; status_trace := status_trace w |}.

Definition with_clock (n : nat) (w : World) : World :=
  {| queue := queue w; fs := fs w; clock := n; log := log w;
     fs_trace := fs_trace w; status_trace := status_trace w |}.

Definition with_log (l : list (LogLevel * string)) (w : World) : World :=
  {| queue := queue w; fs := fs w; clock := clock w; log := l;
     fs_trace := fs_trace w; status_trace := status_trace w |}.

Definition with_status_trace (t : list StatusWrite) (w : World) : World :=
  {| queue := queue w; fs := fs w; clock := clock w; log := log w;
     fs_trace := fs_trace w; status_trace := t |}.

Definition init_world (q : BookQueue) (f : FileSystem) : World :=
  {| queue := q; fs := f; clock := 0; log := []; fs_trace := [f];
     status_trace := [] |}.

(** A Python computation: it returns or raises, and leaves a world. *)
Inductive Result (A : Type) :=
| Ok (a : A)
| Raise (e : string).
Global Arguments Ok {A} a.
Global Arguments Raise {A} e.

Definition M (A : Type) : Type := World → Result A * World.

Global Instance M_ret : MRet M := λ A a w, (Ok a, w).
Global Instance M_bind : MBind M := λ A B f m w,
  match m w with
  | (Ok a, w') => f a w'
  | (Raise e, w') => (Raise e, w')
  end.

Definition bindM {A B} (m : M A) (f : A → M B) : M B := mbind f m.

Notation "'let!' x ':=' m 'in' k" := (bindM m (λ x, k))
  (at level 10, x name, m at level 100, k at level 200,
   format "'[v' 'let!'  x  ':='  m  'in'  '/' k ']'").

Definition raise {A} (e : string) : M A := λ w, (Raise e, w).

(** [try: body except Exception as e: handler e] *)
Definition try_except {A} (body : M A) (handler : string → M A) : M A := λ w,
  match body w with
  | (Ok a, w') => (Ok a, w')
  | (Raise e, w') => handler e w'
  end.

Definition get_world : M World := λ w, (Ok w, w).
Definition modify (f : World → World) : M unit := λ w, (Ok (), f w).

Module logger.
Definition emit (lvl : LogLevel) (msg : string) : M unit :=
  modify (λ w, with_log ((lvl, msg) :: log w) w).
Definition info := emit INFO.
Definition debug := emit DEBUG.
Definition error_trace := emit ERROR_TRACE.
End logger.

(** ** The external collaborators of one worker run

    What the fetch collaborator, the post-processing script, the file
    system calls and the caller of [cancel_download] do during a run is
    not determined by the program; a run is parametrised by it. *)

Inductive FetchResult :=
| FetchReturn (success : bool)
| FetchRaise (e : string).

(** The script either cannot be launched ([subprocess.run] raises), or
    runs; its exit status is not inspected by the caller.  A script that
    runs may rewrite or remove the file it is given. *)
Inductive ScriptResult :=
| ScriptRaise (e : string)
| ScriptRan (states : list (option (list Byte.byte))).

(** [shutil.move]: an atomic rename, or a copy (whose destination holds
    a prefix of [n] bytes before it is complete) followed by the removal
    of the source, or a failure that may leave a prefix behind. *)
Inductive MoveResult :=
| MoveRename
| MoveCopy (n : nat)
| MoveFail (e : string) (residue : option nat).

Inductive CopyResult :=
| CopyOk (n : nat)
| CopyFail (e : string) (residue : option nat).

Record Env := mkEnv {
  (** the tick of the worker's clock from which an external
      [cancel_download] has been made, if any *)
  cancel_tick : option nat;
  (** the values the fetch collaborator passes to the progress callback *)
  fetch_progress : list float;
  (** the successive states of the destination file during the fetch *)
  fetch_file_states : list (option (list Byte.byte));
  fetch_result : FetchResult;
  script_result : ScriptResult;
  move_first : MoveResult;
  move_second : MoveResult;
  copyfile_result : CopyResult;
  remove_error : option string;
  unlink_error : option string;
  rename_error : option string
}.

(** ** Primitive operations of a worker run *)

Definition gets {A} (f : World → A) : M A := λ w, (Ok (f w), w).

(** A call into the store on behalf of [book_id]; a change of the job's
    status is recorded in [status_trace]. *)
Definition store_call (o : Origin) (book_id : string)
    (f : BookQueue → BookQueue) : M unit := λ w,
  let q' := f (queue w) in
  let b := book_queue.get_status_for_book book_id (queue w) in
  let a := book_queue.get_status_for_book book_id q' in
  (Ok (),
   with_status_trace
     (if decide (b = a) then status_trace w
      else {| sw_origin := o; sw_id := book_id; sw_before := b; sw_after := a |}
             :: status_trace w)
     (with_queue q' w)).

Definition tick : M unit := modify (λ w, with_clock (S (clock w)) w).

(** Whether an external [cancel_download] has been made by tick [c]. *)
Definition due (env : Env) (c : nat) : bool :=
  match cancel_tick env with
  | Some t => (t <=? c)%nat
  | None => false
  end.

(** An external [cancel_download] that has been made by now takes
    effect on the store. *)
Definition deliver_cancel (env : Env) (cancel_flag : Event) : M unit := λ w,
  if due env (clock w)
  then store_call FromCancelRequest cancel_flag
         (λ q, (book_queue.cancel_download cancel_flag q).2) w
  else (Ok (), w).

Module Event.
(** [cancel_flag.is_set()]; each examination of the signal takes one
    tick of the clock. *)
Definition is_set (env : Env) (cancel_flag : Event) : M bool :=
  deliver_cancel env cancel_flag;;
  let! b := gets (λ w, book_queue.is_set cancel_flag (queue w)) in
  tick;;
  mret b.

(** [cancel_flag.wait(timeout)]: time passes, the signal is returned. *)
Definition wait (env : Env) (cancel_flag : Event) : M bool :=
  is_set env cancel_flag.
End Event.

(** The file at [p] is given the content [d], or removed. *)
Definition fs_put (p : string) (d : option (list Byte.byte)) (f : FileSystem)
  : FileSystem :=
  match d with
  | Some x => <[p := x]> f
  | None => delete p f
  end.

Definition fs_set (p : string) (d : option (list Byte.byte)) : M unit :=
  modify (λ w, with_fs (fs_put p d (fs w)) w).

(** [Path.exists()] and [os.path.exists] *)
Definition path_exists (p : string) : M bool :=
  gets (λ w, bool_decide (is_Some (fs w !! p))).

(** [os.remove] and [Path.unlink()] *)
Definition os_remove (err : option string) (p : string) : M unit :=
  let! e := path_exists p in
  if e then
    match err with
    | Some x => raise x
    | None => fs_set p None
    end
  else raise "FileNotFoundError".

(** [os.rename]: the destination is replaced in one step. *)
Definition os_rename (err : option string) (src dst : string) : M unit :=
  let! d := gets (λ w, fs w !! src) in
  match d with
  | None => raise "FileNotFoundError"
  | Some x =>
      match err with
      | Some e => raise e
      | None =>
          modify (λ w, with_fs (fs_put dst (Some x) (fs_put src None (fs w))) w)
      end
  end.

Module shutil.
Definition move (r : MoveResult) (src dst : string) : M unit :=
  let! d := gets (λ w, fs w !! src) in
  match d with
  | None => raise "FileNotFoundError"
  | Some x =>
      match r with
      | MoveRename =>
          modify (λ w,
            with_fs (fs_put dst (Some x) (fs_put src None (fs w))) w)
      | MoveCopy n =>
          fs_set dst (Some (take n x));;
          fs_set dst (Some x);;
          fs_set src None
      | MoveFail e residue =>
          match residue with
          | Some n => fs_set dst (Some (take n x))
          | None => mret ()
          end;;
          raise e
      end
  end.

Definition copyfile (r : CopyResult) (src dst : string) : M unit :=
  let! d := gets (λ w, fs w !! src) in
  match d with
  | None => raise "FileNotFoundError"
  | Some x =>
      match r with
      | CopyOk n => fs_set dst (Some (take n x));; fs_set dst (Some x)
      | CopyFail e residue =>
          match residue with
          | Some n => fs_set dst (Some (take n x))
          | None => mret ()
          end;;
          raise e
      end
  end.
End shutil.

Fixpoint for_each {A} (f : nat → A → M unit) (n : nat) (l : list A) : M unit :=
  match l with
  | [] => mret ()
  | x :: l' => f n x;; for_each f (S n) l'
  end.

(** [progress_callback = lambda progress: update_download_progress(book_id,
    progress)], its invocations numbered from 0. *)
Definition progress_callback (book_id : string) (n : nat) (progress : float)
  : M unit :=
  store_call (FromProgressCallback n) book_id
    (update_download_progress book_id progress).

Module book_manager.
(** [book_manager.download_book(book_info, book_path, progress_callback,
    cancel_flag)]: the fetch collaborator invokes the callback, writes
    the destination file and returns or raises, as the environment of
    the run says. *)
Definition download_book (env : Env) (book_id book_path : string) : M bool :=
  for_each (progress_callback book_id) 0 (fetch_progress env);;
  for_each (λ _ st, fs_set book_path st) 0 (fetch_file_states env);;
  match fetch_result env with
  | FetchReturn success => mret success
  | FetchRaise e => raise e
  end.
End book_manager.

Module subprocess.
(** [subprocess.run([CUSTOM_SCRIPT, book_path])], without [check]. *)
Definition run (env : Env) (book_path : string) : M unit :=
  match script_result env with
  | ScriptRaise e => raise e
  | ScriptRan states => for_each (λ _ st, fs_set book_path st) 0 states
  end.
End subprocess.

(** ** The fetch-and-publish worker *)

(** Truth value of an [Optional[str]]. *)
Definition truthy (o : option string) : bool :=
  match o with
  | Some s => bool_decide (s ≠ "")
  | None => false
  end.

(** The name under which a book is staged and published. *)
Definition book_name_of (cfg : Config) (book_id : string) (book_info : BookInfo)
  : string :=
  (if USE_BOOK_TITLE cfg then _sanitize_filename (title book_info) else book_id)
  +:+ "." +:+ format book_info.

Definition staging_path (cfg : Config) (book_id : string) (book_info : BookInfo)
  : string :=
  path_join (TMP_DIR cfg) (book_name_of cfg book_id book_info).

Definition intermediate_path_of (cfg : Config) (book_id : string) : string :=
  path_join (INGEST_DIR cfg) (book_id +:+ ".crdownload").

Definition final_path_of (cfg : Config) (book_id : string) (book_info : BookInfo)
  : string :=
  path_join (INGEST_DIR cfg) (book_name_of cfg book_id book_info).

(** [if path.exists(): path.unlink()] *)
Definition unlink_if_exists (env : Env) (p : string) : M unit :=
  let! e := path_exists p in
  if e then os_remove (unlink_error env) p else mret ().

(** The block guarded by [os.path.exists(book_path)]: move the staged
    file to the intermediate name in the ingest directory, examine the
    signal a last time, rename to the final name.  The result is
    [Some r] when the block executes [return r] and [None] when control
    falls through to the statement after it. *)
Definition publish (cfg : Config) (env : Env) (book_id : string)
    (cancel_flag : Event) (book_info : BookInfo)
    (book_path intermediate_path final_path : string)
  : M (option (option string)) :=
  logger.info ("Moving book to ingest directory: " +:+ book_path +:+ " -> "
               +:+ final_path);;
  try_except
    (shutil.move (move_first env) book_path intermediate_path)
    (λ e,
       try_except
         (logger.debug ("Error moving book: " +:+ e
                        +:+ ", will try copying instead");;
          shutil.move (move_second env) book_path intermediate_path)
         (λ e,
            logger.debug ("Error copying book: " +:+ e
                          +:+ ", will try copying without permissions instead");;
            shutil.copyfile (copyfile_result env) book_path intermediate_path);;
       os_remove (remove_error env) book_path);;
  let! c := Event.is_set env cancel_flag in
  if c then
    logger.info ("Download cancelled before final rename: " +:+ book_id);;
    unlink_if_exists env intermediate_path;;
    mret (Some None)
  else
    os_rename (rename_error env) intermediate_path final_path;;
    logger.info ("Download completed successfully: " +:+ title book_info);;
    mret None.

(** The [try] block of [_download_book_with_cancellation]. *)
Definition download_attempt (cfg : Config) (env : Env)
    (book_id : string) (cancel_flag : Event) : M (option string) :=
  let! c := Event.is_set env cancel_flag in
  if c then
    logger.info ("Download cancelled before starting: " +:+ book_id);;
    mret None
  else
  let! found := gets (λ w, book_queue._book_data book_id (queue w)) in
  match found with
  | None => raise "KeyError"
  | Some book_info =>
  logger.info ("Starting download: " +:+ title book_info);;
  let book_path := staging_path cfg book_id book_info in
  let! c := Event.is_set env cancel_flag in
  if c then
    logger.info ("Download cancelled before book manager call: " +:+ book_id);;
    mret None
  else
  let! success := book_manager.download_book env book_id book_path in
  Event.wait env cancel_flag;;
  let! c := Event.is_set env cancel_flag in
  if c then
    logger.info ("Download cancelled during download: " +:+ book_id);;
    unlink_if_exists env book_path;;
    mret None
  else
  if negb success then raise "Unknown error downloading book" else
  let! c := Event.is_set env cancel_flag in
  if c then
    logger.info ("Download cancelled before post-processing: " +:+ book_id);;
    unlink_if_exists env book_path;;
    mret None
  else
  (if bool_decide (CUSTOM_SCRIPT cfg ≠ "") then
     logger.info ("Running custom script: " +:+ CUSTOM_SCRIPT cfg);;
     subprocess.run env book_path
   else mret ());;
  let intermediate_path := intermediate_path_of cfg book_id in
  let final_path := final_path_of cfg book_id book_info in
  let! e := path_exists book_path in
  let! returned :=
    (if e then
       publish cfg env book_id cancel_flag book_info
         book_path intermediate_path final_path
     else mret None) in
  match returned with
  | Some r => mret r
  | None => mret (Some final_path)
  end
  end.

(** The [except Exception as e] block of
    [_download_book_with_cancellation]. *)
Definition download_handler (env : Env) (book_id : string)
    (cancel_flag : Event) (e : string) : M (option string) :=
  let! c := Event.is_set env cancel_flag in
  if c then
    logger.info ("Download cancelled during error handling: " +:+ book_id);;
    mret None
  else
    logger.error_trace ("Error downloading book: " +:+ e);;
    mret None.

Definition _download_book_with_cancellation (cfg : Config) (env : Env)
    (book_id : string) (cancel_flag : Event) : M (option string) :=
  try_except
    (download_attempt cfg env book_id cancel_flag)
    (download_handler env book_id cancel_flag).

Definition _process_single_download (cfg : Config) (env : Env)
    (book_id : string) (cancel_flag : Event) : M unit :=
  try_except
    (store_call FromWorker book_id (book_queue.update_status book_id PROCESSING);;
     let! download_path :=
       _download_book_with_cancellation cfg env book_id cancel_flag in
     let! c := Event.is_set env cancel_flag in
     if c then
       store_call FromWorker book_id (book_queue.update_status book_id CANCELLED)
     else
       let! new_status :=
         (if truthy download_path then
            store_call FromWorker book_id
              (book_queue.update_download_path book_id (default "" download_path));;
            mret AVAILABLE
          else mret ERROR) in
       store_call FromWorker book_id (book_queue.update_status book_id new_status);;
       logger.info ("Book " +:+ book_id +:+ " download "
                    +:+ (if truthy download_path then "successful" else "failed")))
    (λ e,
       let! c := Event.is_set env cancel_flag in
       if negb c then
         logger.error_trace ("Error in download processing: " +:+ e);;
         store_call FromWorker book_id (book_queue.update_status book_id ERROR)
       else
         logger.info ("Download cancelled: " +:+ book_id);;
         store_call FromWorker book_id (book_queue.update_status book_id CANCELLED)).

(** The file a sequence of states leaves, starting from [init]. *)
Definition last_state (states : list (option (list Byte.byte)))
    (init : option (list Byte.byte)) : option (list Byte.byte) :=
  default init (last states).

(** The staged file at the time its existence is tested before the
    publication: what the fetch, and the script when one is configured
    and runs, leave at the staging path. *)
Definition staged_file (cfg : Config) (env : Env)
    (init : option (list Byte.byte)) : option (list Byte.byte) :=
  let fetched := last_state (fetch_file_states env) init in
  if bool_decide (CUSTOM_SCRIPT cfg ≠ "") then
    match script_result env with
    | ScriptRan states => last_state states fetched
    | ScriptRaise _ => fetched
    end
  else fetched.

(** The world in which the worker calls
    [_download_book_with_cancellation]: the status has been written. *)
Definition started_world (book_id : string) (q : BookQueue) (f : FileSystem)
  : World :=
  (store_call FromWorker book_id
     (book_queue.update_status book_id PROCESSING) (init_world q f)).2.


(** The store and file system a worker run leaves. *)
Definition run_worker (cfg : Config) (env : Env) (book_id : string)
    (q : BookQueue) (f : FileSystem) : World :=
  (_process_single_download cfg env book_id book_id (init_world q f)).2.

(** ** [get_book_data]

    The local-download read path.  [f] is the file system at the time of
    the call and [read_error] an error of [open] or [read], if any.  A
    failure clears [download_path] on the shared [BookInfo] object and
    leaves the status alone.  For an untracked identifier the handler
    itself fails on the unbound [book_info]. *)
Definition get_book_data (f : FileSystem) (read_error : option string)
    (book_id : string) (q : BookQueue)
  : Result (option (list Byte.byte) * BookInfo) * BookQueue :=
  match book_queue._book_data book_id q with
  | None => (Raise "UnboundLocalError", q)
  | Some book_info =>
      let failed :=
        (Ok (None, set_download_path None book_info),
         book_queue.with_jobs
           (alter (set_info (set_download_path None)) book_id (jobs q)) q) in
      match download_path book_info with
      | None => failed
      | Some path =>
          match f !! path, read_error with
          | Some data, None => (Ok (Some data, book_info), q)
          | _, _ => failed
          end
      end
  end.

(** ** The coordinator, its workers and their callers

    The threads of the process are interleaved at the granularity of
    store calls.  A worker is abstracted to the store calls
    [_process_single_download] makes, in their order; the result of
    [_download_book_with_cancellation] is left open, and its progress
    callbacks are steps of the worker.  A future is done from the last
    store call of its worker.  While it reaps, the coordinator may pop
    any future that is done and may stop at any time; the loop of the
    source, which pops the futures it found done at the start of the
    iteration, is one of these behaviours. *)

Inductive Phase :=
| Submitted      (* submitted to the pool, not started *)
| Fetching       (* status set to PROCESSING, download under way *)
| Checked        (* the signal was found unset after the download *)
| PathWritten    (* [update_download_path] done, status not yet written *)
| Finished.      (* the future is done *)

Global Instance Phase_eq_dec : EqDecision Phase.
Proof. solve_decision. Defined.

Record Future := mkFuture {
  fut_book_id : string;
  fut_cancel_flag : Event;
  fut_phase : Phase
}.

Definition with_phase (p : Phase) (f : Future) : Future :=
  {| fut_book_id := fut_book_id f; fut_cancel_flag := fut_cancel_flag f;
     fut_phase := p |}.

Definition done (f : Future) : bool := bool_decide (fut_phase f = Finished).

(** Where the coordinator is in its loop body. *)
Inductive CoordPc :=
| Reaping
| Filling
| Holding (book_id : string) (cancel_flag : Event)
| Sleeping.

(** [active_futures] is the dictionary of the loop, keyed by the
    [Future] objects; a future is identified by the rank of its
    submission. *)
Record System := mkSystem {
  store : BookQueue;
  active_futures : gmap nat Future;
  next_future : nat;
  coord : CoordPc
}.

Definition init_system : System :=
  {| store := book_queue.empty; active_futures := ∅; next_future := 0;
     coord := Reaping |}.

Inductive Action :=
(* callers of the core *)
| AQueueBook (book_id : string) (book_info : BookInfo) (prio : Z)
| ACancelDownload (book_id : string)
| ASetBookPriority (book_id : string) (prio : Z)
| AClearCompleted
| AGetBookData (book_id : string) (f : FileSystem) (read_error : option string)
(* the coordinator loop *)
| CReapOne (i : nat)
| CReapEnd
| CGetNext
| CSubmit
| CSleep
(* the worker of the future [i] *)
| WStart (i : nat)
| WProgress (i : nat) (p : float)
| WCancelled (i : nat)
| WCheck (i : nat)
| WError (i : nat)
| WPath (i : nat) (path : string)
| WAvailable (i : nat).

Definition with_store (q : BookQueue) (s : System) : System :=
  {| store := q; active_futures := active_futures s;
     next_future := next_future s; coord := coord s |}.

Definition with_coord (c : CoordPc) (s : System) : System :=
  {| store := store s; active_futures := active_futures s;
     next_future := next_future s; coord := c |}.

(** A step of the worker of future [i]: enabled in phase [from], it
    applies [f] to the store and moves the future to phase [to]. *)
Definition worker_step (i : nat) (from to : Phase)
    (guard : Future → BookQueue → bool)
    (f : string → BookQueue → BookQueue) (s : System) : option System :=
  match active_futures s !! i with
  | Some fu =>
      if bool_decide (fut_phase fu = from) && guard fu (store s)
      then Some {| store := f (fut_book_id fu) (store s);
                   active_futures := <[i := with_phase to fu]> (active_futures s);
                   next_future := next_future s;
                   coord := coord s |}
      else None
  | None => None
  end.

Definition step (cfg : Config) (a : Action) (s : System) : option System :=
  match a with
  | AQueueBook book_id book_info prio =>
      Some (with_store (book_queue.add book_id book_info prio (store s)) s)
  | ACancelDownload book_id =>
      Some (with_store (book_queue.cancel_download book_id (store s)).2 s)
  | ASetBookPriority book_id prio =>
      Some (with_store (book_queue.set_priority book_id prio (store s)).2 s)
  | AClearCompleted =>
      Some (with_store (book_queue.clear_completed (store s)).2 s)
  | AGetBookData book_id f read_error =>
      Some (with_store (get_book_data f read_error book_id (store s)).2 s)
  | CReapOne i =>
      (* [completed_futures = [f for f in active_futures if f.done()]],
         then [active_futures.pop(future)] for each of them *)
      match coord s, active_futures s !! i with
      | Reaping, Some fu =>
          if done fu
          then Some {| store := store s;
                       active_futures := delete i (active_futures s);
                       next_future := next_future s;
                       coord := Reaping |}
          else None
      | _, _ => None
      end
  | CReapEnd =>
      match coord s with
      | Reaping => Some (with_coord Filling s)
      | _ => None
      end
  | CGetNext =>
      (* [while len(active_futures) < MAX_CONCURRENT_DOWNLOADS:
            next_download = book_queue.get_next()] *)
      match coord s with
      | Filling =>
          if (size (active_futures s) <? MAX_CONCURRENT_DOWNLOADS cfg)%nat
          then
            match book_queue.get_next (store s) with
            | (None, q) => Some (with_coord Sleeping (with_store q s))
            | (Some (book_id, cancel_flag), q) =>
                Some (with_coord (Holding book_id cancel_flag) (with_store q s))
            end
          else Some (with_coord Sleeping s)
      | _ => None
      end
  | CSubmit =>
      (* [future = executor.submit(_process_single_download, book_id,
            cancel_flag); active_futures[future] = book_id] *)
      match coord s with
      | Holding book_id cancel_flag =>
          Some {| store := store s;
                  active_futures :=
                    <[next_future s := mkFuture book_id cancel_flag Submitted]>
                      (active_futures s);
                  next_future := S (next_future s);
                  coord := Filling |}
      | _ => None
      end
  | CSleep =>
      match coord s with
      | Sleeping => Some (with_coord Reaping s)
      | _ => None
      end
  | WStart i =>
      worker_step i Submitted Fetching (λ _ _, true)
        (λ book_id, book_queue.update_status book_id PROCESSING) s
  | WProgress i p =>
      worker_step i Fetching Fetching (λ _ _, true)
        (λ book_id, update_download_progress book_id p) s
  | WCancelled i =>
      worker_step i Fetching Finished
        (λ fu q, book_queue.is_set (fut_cancel_flag fu) q)
        (λ book_id, book_queue.update_status book_id CANCELLED) s
  | WCheck i =>
      worker_step i Fetching Checked
        (λ fu q, negb (book_queue.is_set (fut_cancel_flag fu) q))
        (λ _ q, q) s
  | WError i =>
      worker_step i Checked Finished (λ _ _, true)
        (λ book_id, book_queue.update_status book_id ERROR) s
  | WPath i path =>
      worker_step i Checked PathWritten (λ _ _, truthy (Some path))
        (λ book_id, book_queue.update_download_path book_id path) s
  | WAvailable i =>
      worker_step i PathWritten Finished (λ _ _, true)
        (λ book_id, book_queue.update_status book_id AVAILABLE) s
  end.

Fixpoint run (cfg : Config) (acts : list Action) (s : System) : option System :=
  match acts with
  | [] => Some s
  | a :: acts' =>
      match step cfg a s with
      | Some s' => run cfg acts' s'
      | None => None
      end
  end.

(** The states the process can be in. *)
Definition reachable (cfg : Config) (s : System) : Prop :=
  ∃ acts, run cfg acts init_system = Some s.

(** * Further functions of the download core and its callers *)

(** ** [api_local_download] ([app.py])

    The route that serves a downloaded file.  A response is either
    [jsonify(body), status] or [send_file(data, download_name=...,
    as_attachment=True)]; the session check of [login_required] is
    taken as passed.  The message of an exception is the string its
    [Raise] carries. *)

Inductive Response :=
| JsonResponse (body : list (string * string)) (status : Z)
| SendFile (data : list Byte.byte) (download_name : string).

(** The nine characters of the class that [re.sub] replaces: backslash,
    slash, colon, star, question mark, double quote (code 34), angle
    brackets and bar. *)
Definition reserved_chars : list ascii :=
  ["\"; "/"; ":"; "*"; "?"; "034"; "<"; ">"; "|"]%char.

Definition is_reserved (c : ascii) : bool := bool_decide (c ∈ reserved_chars).

(** [args_id] is [request.args.get('id')]: [None] when the parameter is
    absent.  [f] and [read_error] are as for [get_book_data]. *)
Definition api_local_download (args_id : option string) (f : FileSystem)
    (read_error : option string) (q : BookQueue) : Response * BookQueue :=
  let book_id := default "" args_id in
  if bool_decide (book_id = "")
  then (JsonResponse [("error", "No book ID provided")] 400, q)
  else
    match get_book_data f read_error book_id q with
    | (Ok (None, _), q') =>
        (JsonResponse [("error", "File not found")] 404, q')
    | (Ok (Some file_data, book_info), q') =>
        let file_name :=
          Str.take 245 (Str.sub_chars is_reserved "_" (Str.strip (title book_info))) in
        let file_extension := format book_info in
        (SendFile file_data (file_name +:+ "." +:+ file_extension), q')
    | (Raise e, q') => (JsonResponse [("error", e)] 500, q')
    end.

(** ** JSON values

    What [json.load] and [response.json()] return: [None], booleans,
    integers, floats, strings, lists and dictionaries.  A dictionary is
    the list of its bindings, the first binding of a key giving its
    value. *)

Inductive Json :=
| JNull
| JBool (b : bool)
| JInt (n : Z)
| JFloat (x : float)
| JStr (s : string)
| JList (l : list Json)
| JDict (d : list (string * Json)).

(** The truth value of a Python object. *)
Definition truth (v : Json) : bool :=
  match v with
  | JNull => false
  | JBool b => b
  | JInt n => negb (n =? 0)
  | JFloat x => negb (PrimFloat.eqb x 0)
  | JStr s => negb (bool_decide (s = ""))
  | JList l => negb (bool_decide (l = []))
  | JDict d => negb (bool_decide (d = []))
  end.

(** [d[key]], if the key is bound. *)
Fixpoint dict_get (key : string) (d : list (string * Json)) : option Json :=
  match d with
  | [] => None
  | (k, v) :: d' => if decide (k = key) then Some v else dict_get key d'
  end.

(** The pure part of Python: a value or an exception. *)
Definition bindR {A B} (m : Result A) (f : A → Result B) : Result B :=
  match m with
  | Ok a => f a
  | Raise e => Raise e
  end.

Notation "'let?' x ':=' m 'in' k" := (bindR m (λ x, k))
  (at level 10, x name, m at level 100, k at level 200,
   format "'[v' 'let?'  x  ':='  m  'in'  '/' k ']'").

(** [v.get(key, dflt)]: only a dictionary has the method. *)
Definition attr_get (v : Json) (key : string) (dflt : Json) : Result Json :=
  match v with
  | JDict d => Ok (default dflt (dict_get key d))
  | _ => Raise "AttributeError"
  end.

(** [len(v)] *)
Definition len (v : Json) : Result Z :=
  match v with
  | JStr s => Ok (Z.of_nat (String.length s))
  | JList l => Ok (Z.of_nat (length l))
  | JDict d => Ok (Z.of_nat (length (remove_dups d.*1)))
  | _ => Raise "TypeError"
  end.

(** ** [find_best_google_books_match]

    Calls of the logger that cannot raise are left out. *)

(** [if volume_info.get(key): score += points] *)
Definition credit (volume_info : list (string * Json)) (key : string)
    (points : Z) : Z :=
  if truth (default JNull (dict_get key volume_info)) then points else 0.

(** The body of the loop up to the comparison: the completeness score
    of [book]. *)
Definition completeness_score (book : Json) : Result Z :=
  let? volume_info := attr_get book "volumeInfo" (JDict []) in
  match volume_info with
  | JDict vi =>
      let score := credit vi "title" 10 + credit vi "authors" 10 in
      let description := default (JStr "") (dict_get "description" vi) in
      let? score :=
        (if truth description then
           let? n := len description in
           Ok (if 100 <? n then score + 25 else score + 10)
         else Ok score) in
      Ok (score
          + credit vi "categories" 15 + credit vi "publisher" 8
          + credit vi "publishedDate" 8 + credit vi "pageCount" 5
          + credit vi "averageRating" 12 + credit vi "ratingsCount" 10
          + credit vi "imageLinks" 5 + credit vi "previewLink" 3
          + credit vi "infoLink" 3 + credit vi "industryIdentifiers" 7)
  | _ => Raise "AttributeError"
  end.

(** The loop over [items], from the values of [best_book] ([JNull] for
    [None]) and [best_score] before it. *)
Fixpoint best_of (items : list Json) (best_book : Json) (best_score : Z)
  : Result Json :=
  match items with
  | [] => Ok best_book
  | book :: items' =>
      let? score := completeness_score book in
      if best_score <? score
      then best_of items' book score
      else best_of items' best_book best_score
  end.

(** [None] is [JNull].  The last statement before the [return] formats
    [best_book.get('volumeInfo', {}).get('title', 'N/A')]. *)
Definition find_best_google_books_match (items : list Json)
    (target_title target_author : string) : Result Json :=
  match items with
  | [] => Ok JNull
  | [item] => Ok item
  | _ =>
      let? best_book := best_of items JNull (-1) in
      let? volume_info := attr_get best_book "volumeInfo" (JDict []) in
      let? _ := attr_get volume_info "title" (JStr "N/A") in
      Ok best_book
  end.

(** [key in v] for a string [key]: a key of a dictionary, an element of
    a list, a substring of a string; other values are not containers. *)
Fixpoint is_prefix (p s : string) : bool :=
  match p, s with
  | EmptyString, _ => true
  | String c p', String d s' => if decide (c = d) then is_prefix p' s' else false
  | String _ _, EmptyString => false
  end.

Fixpoint is_substring (p s : string) : bool :=
  is_prefix p s
  || match s with
     | EmptyString => false
     | String _ s' => is_substring p s'
     end.

Definition is_str (key : string) (v : Json) : bool :=
  match v with
  | JStr s => bool_decide (s = key)
  | _ => false
  end.

Definition contains (v : Json) (key : string) : Result bool :=
  match v with
  | JDict d => Ok (bool_decide (is_Some (dict_get key d)))
  | JList l => Ok (existsb (is_str key) l)
  | JStr s => Ok (is_substring key s)
  | _ => Raise "TypeError"
  end.

(** [v.keys()] *)
Definition keys (v : Json) : Result (list string) :=
  match v with
  | JDict d => Ok (remove_dups d.*1)
  | _ => Raise "AttributeError"
  end.

(** [v[key]] for a string [key]. *)
Definition subscript (v : Json) (key : string) : Result Json :=
  match v with
  | JDict d =>
      match dict_get key d with
      | Some x => Ok x
      | None => Raise "KeyError"
      end
  | _ => Raise "TypeError"
  end.

(** [d[key] = x] on a dictionary: the binding of [key] is replaced
    where it is, a new key is added at the end. *)
Fixpoint dict_set (key : string) (x : Json) (d : list (string * Json))
  : list (string * Json) :=
  match d with
  | [] => [(key, x)]
  | (k, v) :: d' =>
      if decide (k = key) then (k, x) :: d' else (k, v) :: dict_set key x d'
  end.

(** ** HTTP requests

    A request is its URL and its query parameters; the time-out and the
    fixed headers are left out.  A response is its status code, what
    [response.json()] returns or raises, and its text.  The network
    says what the [n]-th request of a call is answered; [requests.get]
    may raise. *)

Record Request := mkRequest {
  url : string;
  params : list (string * Json)
}.

Record HttpResponse := mkHttpResponse {
  status_code : Z;
  json : Result Json;
  text : string
}.

Definition Network : Type := nat → Request → Result HttpResponse.

(** A computation that makes requests: from the requests made so far to
    a result and the requests made then, in order. *)
Definition Net (A : Type) : Type := list Request → Result A * list Request.

Definition retN {A} (a : A) : Net A := λ t, (Ok a, t).

Definition bindN {A B} (m : Net A) (f : A → Net B) : Net B := λ t,
  match m t with
  | (Ok a, t') => f a t'
  | (Raise e, t') => (Raise e, t')
  end.

Notation "'let+' x ':=' m 'in' k" := (bindN m (λ x, k))
  (at level 10, x name, m at level 100, k at level 200,
   format "'[v' 'let+'  x  ':='  m  'in'  '/' k ']'").

Definition liftN {A} (r : Result A) : Net A := λ t, (r, t).

(** [try: body except Exception: handler] *)
Definition tryN {A} (body : Net A) (handler : string → Net A) : Net A := λ t,
  match body t with
  | (Ok a, t') => (Ok a, t')
  | (Raise e, t') => handler e t'
  end.

Module requests.
(** [requests.get(url, params=params, ...)] *)
Definition get (net : Network) (req : Request) : Net HttpResponse := λ t,
  (net (length t) req, t ++ [req]).
End requests.

(** A loop whose body either returns from the function ([Some v]) or
    goes on to the next element ([None]); [None] when the list is
    exhausted. *)
Fixpoint first_return {A B} (body : A → Net (option B)) (l : list A)
  : Net (option B) :=
  match l with
  | [] => retN None
  | x :: l' =>
      let+ r := body x in
      match r with
      | Some v => retN (Some v)
      | None => first_return body l'
      end
  end.

(** ** [get_google_books_settings]

    [file] is the settings file: absent, or unreadable ([open] or
    [json.load] raises), or holding a JSON value. *)

Definition get_google_books_settings (file : option (Result Json))
  : list (string * Json) :=
  match file with
  | Some (Ok (JDict settings)) =>
      [("apiKey", default (JStr "") (dict_get "apiKey" settings));
       ("isValid", default (JBool false) (dict_get "isValid" settings));
       ("lastChecked", default (JStr "") (dict_get "lastChecked" settings))]
  | _ =>
      [("apiKey", JStr ""); ("isValid", JBool false); ("lastChecked", JStr "")]
  end.

(** ** [search_google_books] *)

(** The double quote. *)
Definition dquote : string := String "034" EmptyString.

Definition quoted (s : string) : string := dquote +:+ s +:+ dquote.

Definition nonempty (s : string) : bool := negb (bool_decide (s = "")).

(** The list [queries_to_try] the function builds. *)
Definition queries_to_try (title author : string) : list string :=
  (if nonempty title && nonempty author
   then ["intitle:" +:+ quoted title +:+ " inauthor:" +:+ quoted author]
   else [])
  ++ (if nonempty title then ["intitle:" +:+ quoted title] else [])
  ++ (if nonempty author && negb (nonempty title)
      then ["inauthor:" +:+ quoted author] else [])
  ++ (if nonempty title && nonempty author
      then [quoted title +:+ " " +:+ quoted author]
      else if nonempty title then [quoted title]
      else if nonempty author then [quoted author]
      else []).

Definition google_request (query : string) (max_results : Z)
    (projection : string) (api_key : Json) : Request :=
  {| url := "https://www.googleapis.com/books/v1/volumes";
     params := [("q", JStr query);
                ("maxResults", JInt (if 1 <? max_results then max_results else 5));
                ("projection", JStr projection);
                ("printType", JStr "books");
                ("langRestrict", JStr "en");
                ("key", api_key)] |}.

(** What the body of the loop does with a response: [Some v] when it
    returns [v], [None] when it goes on to the next query.  In the
    single-result branch only a list of items can be evaluated: of a
    string or a dictionary, [find_best_google_books_match] would take a
    character or a key for a book, or fail on [items[0]], and raise. *)
Definition google_answer (title author : string) (max_results : Z)
    (response : HttpResponse) : Result (option Json) :=
  if status_code response =? 200 then
    let? data := json response in
    let? _ := keys data in
    match data with
    | JDict d =>
        let items := default JNull (dict_get "items" d) in
        if truth items then
          let? _ := len items in
          if 1 <? max_results then Ok (Some data)
          else
            let? best_book :=
              match items with
              | JList l => find_best_google_books_match l title author
              | _ => Raise "AttributeError"
              end in
            if truth best_book then
              let? volume_info := attr_get best_book "volumeInfo" (JDict []) in
              let? search_info := attr_get best_book "searchInfo" (JDict []) in
              let? _ := attr_get volume_info "title" JNull in
              let? _ := keys search_info in
              let? description :=
                attr_get volume_info "description" (JStr "") in
              let? _ := len description in
              Ok (Some best_book)
            else
              match items with
              | JList (first :: _) => Ok (Some first)
              | _ => Raise "IndexError"
              end
        else Ok None
    | _ => Raise "AttributeError"
    end
  else Ok None.

(** [None] is [JNull]. *)
Definition search_google_books (net : Network) (file : option (Result Json))
    (title author api_key : string) (max_results : Z) (projection : string)
  : Net Json :=
  let settings := get_google_books_settings file in
  let key :=
    if nonempty api_key then JStr api_key
    else default (JStr "") (dict_get "apiKey" settings) in
  if negb (nonempty api_key)
     && (negb (truth key)
         || negb (truth (default (JBool false) (dict_get "isValid" settings))))
  then retN JNull
  else
    tryN
      (match queries_to_try title author with
       | [] => retN JNull
       | queries =>
           let+ r :=
             first_return
               (λ query,
                  let+ response :=
                    requests.get net
                      (google_request query max_results projection key) in
                  liftN (google_answer title author max_results response))
               queries in
           retN (default JNull r)
       end)
      (λ _, retN JNull).

(** ** [search_bookinfo_pro], [get_bookinfo_pro_work],
    [get_bookinfo_pro_author] *)








(** One endpoint of a list [endpoints_to_try]: the request may raise,
    the status may not be 200, the body may not be JSON; in each case
    the loop goes on.  Otherwise the function returns the body. *)
Definition try_endpoint (net : Network) (endpoint : Request)
  : Net (option Json) :=
  tryN
    (let+ response := requests.get net endpoint in
     if status_code response =? 200 then
       match json response with
       | Ok data => retN (Some data)
       | Raise _ => retN None
       end
     else retN None)
    (λ _, retN None).



Definition work_endpoints (work_id : string) : list Request :=
  [ {| url := "https://api.bookinfo.pro/api/book/basic_book_data/" +:+ work_id;
       params := [("format", JStr "xml"); ("key", JStr "dummy")] |};
    {| url := "https://api.bookinfo.pro/api/book/basic_book_data/" +:+ work_id;
       params := [("format", JStr "json"); ("key", JStr "dummy")] |} ].

Definition get_bookinfo_pro_work (net : Network) (work_id : string) : Net Json :=
  let+ r := first_return (try_endpoint net) (work_endpoints work_id) in
  retN (default JNull r).

Definition author_endpoints (author_id : string) : list Request :=
  [ {| url := "https://api.bookinfo.pro/author/show/" +:+ author_id +:+ ".xml";
       params := [("key", JStr "dummy")] |};
    {| url := "https://api.bookinfo.pro/author/show/" +:+ author_id;
       params := [("key", JStr "dummy"); ("format", JStr "json")] |} ].

Definition get_bookinfo_pro_author (net : Network) (author_id : string)
  : Net Json :=
  let+ r := first_return (try_endpoint net) (author_endpoints author_id) in
  retN (default JNull r).

(** ** [get_enhanced_book_details]

    [get_book_info] and [search_google_books] raise nothing and are
    taken by their results: [book_info_of book_id] is what
    [get_book_info(book_id)] returns, [google_data_of title author] what
    [search_google_books(title=title, author=author)] returns, [JNull]
    for [None]. *)

Definition image_sizes : list string :=
  ["extraLarge"; "large"; "medium"; "small"; "thumbnail"; "smallThumbnail"].

(** The loop over the sizes: the first size [in image_links] gives the
    preview. *)
Fixpoint choose_preview (image_links : Json) (sizes : list string)
    (enhanced_details : list (string * Json))
  : Result (list (string * Json)) :=
  match sizes with
  | [] => Ok enhanced_details
  | size :: sizes' =>
      let? found := contains image_links size in
      if found then
        let? link := subscript image_links size in
        Ok (dict_set "preview" link enhanced_details)
      else choose_preview image_links sizes' enhanced_details
  end.

Definition get_enhanced_book_details (book_info_of : string → Json)
    (file : option (Result Json)) (google_data_of : Json → Json → Json)
    (book_id : string) (basic_book_info : Json) : Json :=
  let result : Result Json :=
    let basic_book_info :=
      if truth basic_book_info then basic_book_info else book_info_of book_id in
    if negb (truth basic_book_info) then Ok JNull else
    let? title := attr_get basic_book_info "title" JNull in
    match basic_book_info with
    | JDict basic =>
        let enhanced_details := basic in
        let google_settings := get_google_books_settings file in
        if negb (truth (default JNull (dict_get "apiKey" google_settings)))
           || negb (truth (default JNull (dict_get "isValid" google_settings)))
        then Ok (JDict enhanced_details)
        else
          let google_data :=
            google_data_of (default (JStr "") (dict_get "title" basic))
                           (default (JStr "") (dict_get "author" basic)) in
          if truth google_data then
            let? volume_info := attr_get google_data "volumeInfo" (JDict []) in
            match volume_info with
            | JDict vi =>
                let field key dflt := default dflt (dict_get key vi) in
                let enhanced_details :=
                  dict_set "googleBooks"
                    (JDict
                       [("description", field "description" (JStr ""));
                        ("categories", field "categories" (JList []));
                        ("averageRating", field "averageRating" JNull);
                        ("ratingsCount", field "ratingsCount" JNull);
                        ("pageCount", field "pageCount" JNull);
                        ("publishedDate", field "publishedDate" (JStr ""));
                        ("industryIdentifiers",
                         field "industryIdentifiers" (JList []));
                        ("imageLinks", field "imageLinks" (JDict []));
                        ("infoLink", field "infoLink" (JStr ""));
                        ("previewLink", field "previewLink" (JStr ""))])
                    enhanced_details in
                if negb (truth (default JNull (dict_get "preview" enhanced_details)))
                   && truth (field "imageLinks" JNull)
                then
                  let? enhanced_details :=
                    choose_preview (field "imageLinks" JNull) image_sizes
                      enhanced_details in
                  Ok (JDict enhanced_details)
                else Ok (JDict enhanced_details)
            | _ => Raise "AttributeError"
            end
          else Ok (JDict enhanced_details)
    | _ => Raise "AttributeError"
    end in
  match result with
  | Ok v => v
  | Raise _ => JNull
  end.

(** * Predicates on worker runs *)

(** An invariant that reads the store and the status trace only. *)
Definition store_only (I : World → Prop) : Prop :=
  ∀ w w', queue w = queue w' → status_trace w = status_trace w' → I w → I w'.


(** Tracked, in an active status, and equal to [r0] in all but status,
    progress and signal. *)
Definition running (book_id : string) (r0 : JobRecord) (w : World) : Prop :=
  ∃ r, jobs (queue w) !! book_id = Some r ∧ is_active (status r) = true
       ∧ set_progress None (info r) = set_progress None (info r0)
       ∧ priority r = priority r0 ∧ insertionSeq r = insertionSeq r0.

(** The statements of [_process_single_download] after the examination
    of the signal, for a result [download_path] and a signal [c]. *)
Definition conclude (book_id : string) (download_path : option string)
    (c : bool) (w : World) : World :=
  if c then
    (store_call FromWorker book_id
       (book_queue.update_status book_id CANCELLED) w).2
  else if truthy download_path then
    (logger.info ("Book " +:+ book_id +:+ " download successful")
       (store_call FromWorker book_id
          (book_queue.update_status book_id AVAILABLE)
          (store_call FromWorker book_id
             (book_queue.update_download_path book_id
                (default "" download_path)) w).2).2).2
  else
    (logger.info ("Book " +:+ book_id +:+ " download failed")
       (store_call FromWorker book_id
          (book_queue.update_status book_id ERROR) w).2).2.


(** The result of the [try] block, as its caller sees it. *)
Definition returned (res : Result (option string)) : option string :=
  match res with
  | Ok dp => dp
  | Raise _ => None
  end.


(** The path [p] is never written in the run. *)
Definition never_written (p : string) (f : FileSystem) (w : World) : Prop :=
  Forall (λ y : FileSystem, y !! p = f !! p) (fs_trace w).


(** * Predicates on the states of the process *)

(** The download path of the job [k], if it is tracked. *)
Definition path_of (k : string) (q : BookQueue) : option (option string) :=
  (λ r, download_path (info r)) <$> jobs q !! k.

Abbreviation status_of := book_queue.get_status_for_book.

(** The job [k] is [PROCESSING] or [DOWNLOADING]. *)
Definition active_in (q : BookQueue) (k : string) : Prop :=
  ∃ s, status_of k q = Some s ∧ is_active s = true.

(** The worker of the future has not written its terminal status. *)
Definition live (fu : Future) : Prop := fut_phase fu ≠ Finished.

(** The coordinator holds [k]: taken from the scheduler, not yet
    submitted. *)
Definition holds (s : System) (k : string) : Prop :=
  ∃ flag, coord s = Holding k flag.

(** [k] is the job of an outstanding future that is not done. *)
Definition worked (s : System) (k : string) : Prop :=
  ∃ i fu, active_futures s !! i = Some fu ∧ fut_book_id fu = k ∧ live fu.

(** [k] is with a worker or with the coordinator. *)
Definition owned (s : System) (k : string) : Prop := worked s k ∨ holds s k.

(** A worker of [k] is between its two last store calls. *)
Definition publishing (s : System) (k : string) : Prop :=
  ∃ i fu, active_futures s !! i = Some fu ∧ fut_book_id fu = k
          ∧ fut_phase fu = PathWritten.

(** What every reachable state satisfies: the outstanding futures are
    at most [MAX_CONCURRENT_DOWNLOADS], and fewer while the coordinator
    holds a job; the active jobs are those of the workers that are not
    done and the one the coordinator holds; no two such workers, and no
    such worker and the coordinator, have the same job; a download path
    is set on an [AVAILABLE] job or by a worker about to write
    [AVAILABLE]. *)
Record Inv (cfg : Config) (s : System) : Prop := mkInv {
  inv_cap : (size (active_futures s) ≤ MAX_CONCURRENT_DOWNLOADS cfg)%nat;
  inv_cap_holding k :
    holds s k → (size (active_futures s) < MAX_CONCURRENT_DOWNLOADS cfg)%nat;
  inv_fresh i : (next_future s ≤ i)%nat → active_futures s !! i = None;
  inv_active_owned k : active_in (store s) k → owned s k;
  inv_owned_active k : owned s k → active_in (store s) k;
  inv_unique i j fu fu' :
    active_futures s !! i = Some fu → active_futures s !! j = Some fu' →
    live fu → live fu' → fut_book_id fu = fut_book_id fu' → i = j;
  inv_unique_held k : holds s k → ¬ worked s k;
  inv_path k p :
    path_of k (store s) = Some (Some p) →
    status_of k (store s) = Some AVAILABLE ∨ publishing s k
}.

(** The actions of the worker of the future [i] and the requests to
    cancel its job [k]. *)
Definition worker_action (i : nat) (k : string) (a : Action) : Prop :=
  match a with
  | ACancelDownload b => b = k
  | WStart j | WProgress j _ | WCancelled j | WCheck j | WError j
  | WPath j _ | WAvailable j => j = i
  | _ => False
  end.

(** The jobs of the futures the coordinator tracks. *)
Definition tracked_ids (s : System) : gset string :=
  list_to_set ((λ p, fut_book_id p.2) <$> map_to_list (active_futures s)).

(** The state the system is in after the actions [acts]. *)
Definition after (cfg : Config) (acts : list Action) : System :=
  default init_system (run cfg acts init_system).

(** * Configurations, environments and stores of the examples *)

(** Three enqueues, the second with the lowest priority value. *)
Definition three_books : list (string * BookInfo * Z) :=
  [("A", mkBookInfo "A" "a" "epub" None None, 5);
   ("B", mkBookInfo "B" "b" "epub" None None, 1);
   ("C", mkBookInfo "C" "c" "epub" None None, 5)].



(** A store whose only job is [AVAILABLE]. *)
Definition queue_with_available : BookQueue :=
  book_queue.update_status "b1" AVAILABLE
    (book_queue.add "b1" (mkBookInfo "b1" "T" "epub" None None) 0
       book_queue.empty).

(** Files are named after the job identifier; no script is configured. *)
Definition cfg_plain : Config :=
  {| TMP_DIR := "/tmp/cwa"; INGEST_DIR := "/ingest"; USE_BOOK_TITLE := false;
     CUSTOM_SCRIPT := ""; MAX_CONCURRENT_DOWNLOADS := 3 |}.

(** One book, queued and handed out by the scheduler. *)
Definition one_book : BookQueue :=
  (book_queue.get_next
     (book_queue.add "b1" (mkBookInfo "b1" "Dune" "epub" None None) 0
        book_queue.empty)).2.



(** Nothing is cancelled or fails; the fetch writes the file in two
    steps; the first move is a copy. *)
Definition env_ok : Env :=
  {| cancel_tick := None; fetch_progress := [0.5%float; 1%float];
     fetch_file_states := [Some [Byte.x50]; Some [Byte.x50; Byte.x4b]];
     fetch_result := FetchReturn true;
     script_result := ScriptRan []; move_first := MoveCopy 1;
     move_second := MoveRename; copyfile_result := CopyOk 0;
     remove_error := None; unlink_error := None; rename_error := None |}.

(** The record of the job of [one_book]. *)
Definition one_book_record : JobRecord :=
  {| info := mkBookInfo "b1" "Dune" "epub" None (Some 0%float);
     status := PROCESSING; priority := 0; insertionSeq := 0;
     cancelSignal := false |}.






(** Two books. *)
Definition b1_info : BookInfo := mkBookInfo "b1" "Dune" "epub" None None.
Definition b2_info : BookInfo := mkBookInfo "b2" "Emma" "epub" None None.

(** One download at a time. *)
Definition cfg_one : Config :=
  {| TMP_DIR := "/tmp/cwa"; INGEST_DIR := "/ingest"; USE_BOOK_TITLE := false;
     CUSTOM_SCRIPT := ""; MAX_CONCURRENT_DOWNLOADS := 1 |}.

(** Two books are queued; the coordinator takes and submits the first
    one and its worker starts; the coordinator asks again. *)
Definition burst : list Action :=
  [AQueueBook "b1" b1_info 0; AQueueBook "b2" b2_info 0; CReapEnd; CGetNext;
   CSubmit; WStart 0; WProgress 0 0.5%float; CGetNext].

(** A book is downloaded, then a read of its file fails. *)
Definition download_then_failed_read : list Action :=
  [AQueueBook "b1" b1_info 0; CReapEnd; CGetNext; CSubmit; WStart 0; WCheck 0;
   WPath 0 "/ingest/b1.epub"; WAvailable 0;
   AGetBookData "b1" ∅ (Some "FileNotFoundError")].

(** A book is downloaded up to the write of its download path. *)
Definition download_until_path : list Action :=
  [AQueueBook "b1" b1_info 0; CReapEnd; CGetNext; CSubmit; WStart 0; WCheck 0;
   WPath 0 "/ingest/b1.epub"].

(** A store whose only job is [AVAILABLE] with a download path. *)
Definition queue_downloaded : BookQueue :=
  book_queue.update_status "b1" AVAILABLE
    (book_queue.update_download_path "b1" "/ingest/b1.epub"
       (book_queue.add "b1" (mkBookInfo "b1" "  Dune: Part 1 " "epub" None None) 0
          book_queue.empty)).

(** A file system that holds the file of [queue_downloaded]. *)
Definition fs_downloaded : FileSystem := {[ "/ingest/b1.epub" := [Byte.x50; Byte.x4b] ]}.

(** Two results: the first has a title only, the second a title and
    authors. *)
Definition two_volumes : list Json :=
  [JDict [("id", JStr "v1");
          ("volumeInfo", JDict [("title", JStr "Dune")])];
   JDict [("id", JStr "v2");
          ("volumeInfo", JDict [("title", JStr "Dune");
                                ("authors", JList [JStr "Frank Herbert"])])]].

(** The fetch reports a failure after writing part of the file. *)
Definition env_fetch_false : Env :=
  {| cancel_tick := None; fetch_progress := [0.5%float];
     fetch_file_states := [Some [Byte.x50]];
     fetch_result := FetchReturn false;
     script_result := ScriptRan []; move_first := MoveRename;
     move_second := MoveRename; copyfile_result := CopyOk 0;
     remove_error := None; unlink_error := None; rename_error := None |}.

(** The first [shutil.move] fails, its retry succeeds. *)
Definition env_move_retry : Env :=
  {| cancel_tick := None; fetch_progress := [1%float];
     fetch_file_states := [Some [Byte.x50; Byte.x4b]];
     fetch_result := FetchReturn true;
     script_result := ScriptRan []; move_first := MoveFail "OSError" None;
     move_second := MoveRename; copyfile_result := CopyOk 0;
     remove_error := None; unlink_error := None; rename_error := None |}.

(** Both [shutil.move] fail after copying the content; [shutil.copyfile]
    succeeds. *)
Definition env_copy_fallback : Env :=
  {| cancel_tick := None; fetch_progress := [1%float];
     fetch_file_states := [Some [Byte.x50; Byte.x4b]];
     fetch_result := FetchReturn true;
     script_result := ScriptRan [];
     move_first := MoveFail "PermissionError" (Some 2%nat);
     move_second := MoveFail "PermissionError" (Some 2%nat);
     copyfile_result := CopyOk 1;
     remove_error := None; unlink_error := None; rename_error := None |}.

(** The job is cancelled before its worker starts. *)
Definition env_cancel_first : Env :=
  {| cancel_tick := Some 0%nat; fetch_progress := [1%float];
     fetch_file_states := [Some [Byte.x50; Byte.x4b]];
     fetch_result := FetchReturn true;
     script_result := ScriptRan []; move_first := MoveRename;
     move_second := MoveRename; copyfile_result := CopyOk 0;
     remove_error := None; unlink_error := None; rename_error := None |}.

(** Two books are queued and both are handed to workers; the first
    worker has started. *)
Definition two_workers : list Action :=
  [AQueueBook "b1" b1_info 0; AQueueBook "b2" b2_info 0; CReapEnd; CGetNext;
   CSubmit; CGetNext; CSubmit; WStart 0].

(** A network whose second answer is a JSON body, its first a 503. *)
Definition net_second : Network := λ n _,
  match n with
  | 1%nat => Ok (mkHttpResponse 200 (Ok (JDict [("id", JInt 7)])) "")
  | _ => Ok (mkHttpResponse 503 (Raise "JSONDecodeError") "")
  end.

(** A network that answers every request with the two volumes. *)
Definition net_two_volumes : Network := λ _ _,
  Ok {| status_code := 200;
        json := Ok (JDict [("kind", JStr "books#volumes");
                           ("items", JList two_volumes)]);
        text := "" |}.

(** Valid settings, and Google data with two sizes of cover. *)
Definition valid_settings : option (Result Json) :=
  Some (Ok (JDict [("apiKey", JStr "key"); ("isValid", JBool true)])).

Definition dune_volume : Json :=
  JDict [("id", JStr "v1");
         ("volumeInfo",
          JDict [("title", JStr "Dune");
                 ("imageLinks",
                  JDict [("small", JStr "small.jpg");
                         ("large", JStr "large.jpg")])])].

(** * Predicates on file names, JSON values and requests *)

(** The characters [_sanitize_filename] keeps. *)
Definition kept (c : ascii) : bool :=
  Str.isalnum c || bool_decide (c ∈ keepcharacters).

(** The items [find_best_google_books_match] can score: dictionaries
    whose [volumeInfo], when there is one, is a dictionary whose
    [description], when it is true, has a length. *)
Definition scorable (book : Json) : bool :=
  match book with
  | JDict d =>
      match default (JDict []) (dict_get "volumeInfo" d) with
      | JDict vi =>
          let description := default (JStr "") (dict_get "description" vi) in
          negb (truth description)
          || match description with
             | JStr _ | JList _ | JDict _ => true
             | _ => false
             end
      | _ => false
      end
  | _ => false
  end.

(** The body a request is answered with when the answer has status 200
    and is JSON. *)
Definition json_answer (net : Network) (n : nat) (req : Request)
  : option Json :=
  match net n req with
  | Ok response =>
      if status_code response =? 200
      then match json response with
           | Ok data => Some data
           | Raise _ => None
           end
      else None
  | Raise _ => None
  end.

(** The key the requests carry: the one given, or the one of the
    settings file. *)
Definition key_used (file : option (Result Json)) (api_key : string) : Json :=
  if nonempty api_key then JStr api_key
  else default (JStr "") (dict_get "apiKey" (get_google_books_settings file)).

(** No key is given and the settings hold none, or hold one that is not
    marked valid. *)
Definition not_available (file : option (Result Json)) (api_key : string)
  : Prop :=
  api_key = ""
  ∧ (truth (default (JStr "") (dict_get "apiKey" (get_google_books_settings file)))
     = false
     ∨ truth (default (JBool false)
                (dict_get "isValid" (get_google_books_settings file))) = false).

(** The first of the sizes, largest first, that the image links have. *)
Definition first_size (image_links : list (string * Json)) : option string :=
  head (filter (λ size, is_Some (dict_get size image_links)) image_sizes).

(** * Reasoning about worker runs *)

Section hoare.
Context {A : Type}.

(** [m] keeps [I], whether it returns or raises. *)
Definition preserves (I : World → Prop) (m : M A) : Prop :=
  ∀ w, I w → I (m w).2.

(** [m] returns. *)
Definition returns (m : M A) : Prop := ∀ w, ∃ a, (m w).1 = Ok a.

Lemma preserves_ret I (a : A) : preserves I (mret a).
Proof. by intros w. Qed.

Lemma preserves_raise I e : preserves I (raise e : M A).
Proof. by intros w. Qed.

Lemma preserves_gets I (f : World → A) : preserves I (gets f).
Proof. by intros w. Qed.

Lemma preserves_try I (body : M A) handler :
  preserves I body → (∀ e, preserves I (handler e)) →
  preserves I (try_except body handler).
Proof.
  intros Hb Hh w Hw. unfold try_except. specialize (Hb w Hw).
  destruct (body w) as [[a|e] w']; [done|]. by apply Hh.
Qed.

Lemma returns_ret (a : A) : returns (mret a).
Proof. intros w. by exists a. Qed.

Lemma returns_gets (f : World → A) : returns (gets f).
Proof. intros w. by eexists. Qed.

Lemma returns_try (body : M A) handler :
  (∀ e, returns (handler e)) → returns (try_except body handler).
Proof.
  intros Hh w. unfold try_except.
  destruct (body w) as [[a|e] w']; [by exists a|]. apply Hh.
Qed.
End hoare.

Lemma preserves_bind {A B} I (m : M A) (f : A → M B) :
  preserves I m → (∀ a, preserves I (f a)) → preserves I (m ≫= f).
Proof.
  intros Hm Hf w Hw. unfold mbind, M_bind. specialize (Hm w Hw).
  destruct (m w) as [[a|e] w']; [by apply Hf | done].
Qed.

Lemma returns_bind {A B} (m : M A) (f : A → M B) :
  returns m → (∀ a, returns (f a)) → returns (m ≫= f).
Proof.
  intros Hm Hf w. unfold mbind, M_bind. destruct (Hm w) as [a Ha].
  destruct (m w) as [[a'|e] w']; simpl in Ha; [|done]. apply Hf.
Qed.

Lemma preserves_modify I (f : World → World) :
  (∀ w, I w → I (f w)) → preserves I (modify f).
Proof. intros H w Hw. by apply H. Qed.

Lemma returns_modify (f : World → World) : returns (modify f).
Proof. intros w. by exists (). Qed.

Lemma preserves_for_each {A} I (f : nat → A → M unit) n l :
  (∀ n x, preserves I (f n x)) → preserves I (for_each f n l).
Proof.
  intros Hf. revert n. induction l as [|x l IH]; intros n; simpl.
  - apply preserves_ret.
  - apply preserves_bind; [apply Hf | intros _; apply IH].
Qed.

Lemma returns_for_each {A} (f : nat → A → M unit) n l :
  (∀ n x, returns (f n x)) → returns (for_each f n l).
Proof.
  intros Hf. revert n. induction l as [|x l IH]; intros n; simpl.
  - apply returns_ret.
  - apply returns_bind; [apply Hf | intros _; apply IH].
Qed.

(** Decomposes a worker computation along its control structure; the
    primitive steps are left to [tac]. *)
Ltac preserves_walk tac :=
  repeat first
    [ tac
    | apply preserves_ret
    | apply preserves_raise
    | apply preserves_gets
    | apply preserves_bind
    | apply preserves_try
    | apply preserves_for_each
    | progress intros
    | match goal with
      | |- preserves _ (if ?b then _ else _) => destruct b
      | |- preserves _ (match ?x with _ => _ end) => destruct x
      | |- preserves _ (bindM _ _) => unfold bindM
      end ].

Section store_only.
Context (I : World → Prop) (HI : store_only I).

Lemma store_only_modify f :
  (∀ w, queue (f w) = queue w) → (∀ w, status_trace (f w) = status_trace w) →
  preserves I (modify f).
Proof. intros Hq Ht w Hw. simpl. eapply HI; [| |exact Hw]; by rewrite ?Hq, ?Ht. Qed.

Lemma store_only_tick : preserves I tick.
Proof. by apply store_only_modify. Qed.

Lemma store_only_emit lvl msg : preserves I (logger.emit lvl msg).
Proof. by apply store_only_modify. Qed.

Lemma store_only_fs_set p d : preserves I (fs_set p d).
Proof. by apply store_only_modify. Qed.

Lemma store_only_path_exists p : preserves I (path_exists p).
Proof. apply preserves_gets. Qed.

Lemma store_only_os_remove err p : preserves I (os_remove err p).
Proof.
  unfold os_remove.
  preserves_walk ltac:(first [apply store_only_fs_set | apply store_only_path_exists]).
Qed.

Lemma store_only_os_rename err src dst : preserves I (os_rename err src dst).
Proof.
  unfold os_rename. preserves_walk ltac:(by apply store_only_modify).
Qed.

Lemma store_only_move r src dst : preserves I (shutil.move r src dst).
Proof.
  unfold shutil.move.
  preserves_walk ltac:(first [apply store_only_fs_set | by apply store_only_modify]).
Qed.

Lemma store_only_copyfile r src dst : preserves I (shutil.copyfile r src dst).
Proof.
  unfold shutil.copyfile.
  preserves_walk ltac:(first [apply store_only_fs_set | by apply store_only_modify]).
Qed.

Lemma store_only_unlink_if_exists env p : preserves I (unlink_if_exists env p).
Proof.
  unfold unlink_if_exists.
  preserves_walk ltac:(first [apply store_only_os_remove | apply store_only_path_exists]).
Qed.

Lemma store_only_run env p : preserves I (subprocess.run env p).
Proof.
  unfold subprocess.run. preserves_walk ltac:(apply store_only_fs_set).
Qed.
End store_only.

(** * Properties of the job record store *)

Section store_lemmas.
Implicit Types (q : BookQueue) (k b : string) (s : QueueStatus).

Lemma status_update_status k b s q :
  book_queue.get_status_for_book k (book_queue.update_status b s q)
  = if decide (k = b)
    then (λ _, s) <$> book_queue.get_status_for_book k q
    else book_queue.get_status_for_book k q.
Proof.
  unfold book_queue.get_status_for_book, book_queue.update_status; simpl.
  rewrite lookup_alter. destruct (decide (k = b)) as [->|Hne].
  - rewrite decide_True by done. by destruct (jobs q !! b).
  - by rewrite decide_False by done.
Qed.

Lemma status_update_progress k b v q :
  book_queue.get_status_for_book k (book_queue.update_progress b v q)
  = book_queue.get_status_for_book k q.
Proof.
  unfold book_queue.get_status_for_book, book_queue.update_progress; simpl.
  rewrite lookup_alter. case_decide; subst; [|done].
  by destruct (jobs q !! k).
Qed.

Lemma status_update_download_path k b p q :
  book_queue.get_status_for_book k (book_queue.update_download_path b p q)
  = book_queue.get_status_for_book k q.
Proof.
  unfold book_queue.get_status_for_book, book_queue.update_download_path; simpl.
  rewrite lookup_alter. case_decide; subst; [|done].
  by destruct (jobs q !! k).
Qed.

Lemma status_update_download_progress k b v q :
  book_queue.get_status_for_book k (update_download_progress b v q)
  = if decide (k = b ∧ book_queue.get_status_for_book k q = Some PROCESSING)
    then Some DOWNLOADING
    else book_queue.get_status_for_book k q.
Proof.
  unfold update_download_progress. rewrite status_update_progress.
  destruct (decide (book_queue.get_status_for_book b q = Some PROCESSING))
    as [Hp|Hp].
  - rewrite status_update_status. destruct (decide (k = b)) as [->|Hne].
    + rewrite decide_True by done. by rewrite Hp.
    + rewrite decide_False by naive_solver. done.
  - rewrite decide_False; [done|]. intros [-> ?]. done.
Qed.
End store_lemmas.

(** * The scheduler order *)

Section scheduler.
Implicit Types (q : BookQueue) (r : JobRecord) (x : string * JobRecord).

Definition queued_in (q : BookQueue) (k : string) (r : JobRecord) : Prop :=
  jobs q !! k = Some r ∧ status r = QUEUED.

Lemma elem_of_queued q k r :
  (k, r) ∈ book_queue.queued q ↔ queued_in q k r.
Proof.
  unfold book_queue.queued, queued_in.
  rewrite elem_of_map_to_list, map_lookup_filter_Some. done.
Qed.

Lemma key_le_refl r : book_queue.key_le r r = true.
Proof. unfold book_queue.key_le. apply orb_true_iff. right.
       apply andb_true_iff. split; [apply Z.eqb_refl | apply Nat.leb_refl]. Qed.

Lemma key_le_spec r1 r2 :
  book_queue.key_le r1 r2 = true ↔
  priority r1 < priority r2
  ∨ (priority r1 = priority r2 ∧ (insertionSeq r1 ≤ insertionSeq r2)%nat).
Proof.
  unfold book_queue.key_le.
  rewrite orb_true_iff, andb_true_iff, Z.ltb_lt, Z.eqb_eq, Nat.leb_le. done.
Qed.

Lemma key_le_trans r1 r2 r3 :
  book_queue.key_le r1 r2 = true → book_queue.key_le r2 r3 = true →
  book_queue.key_le r1 r3 = true.
Proof. rewrite !key_le_spec. lia. Qed.

Lemma key_le_total r1 r2 :
  book_queue.key_le r1 r2 = false → book_queue.key_le r2 r1 = true.
Proof.
  intros H. apply key_le_spec.
  destruct (decide (priority r2 < priority r1)); [by left|].
  destruct (decide (priority r1 < priority r2)) as [Hlt|].
  { assert (book_queue.key_le r1 r2 = true) by (apply key_le_spec; lia).
    congruence. }
  right. split; [lia|].
  destruct (decide (insertionSeq r2 ≤ insertionSeq r1)%nat); [done|].
  assert (book_queue.key_le r1 r2 = true) by (apply key_le_spec; lia).
  congruence.
Qed.

Lemma min_job_elem best l :
  book_queue.min_job best l = best ∨ book_queue.min_job best l ∈ l.
Proof.
  revert best. induction l as [|y l IH]; intros best; simpl; [by left|].
  destruct (book_queue.key_le best.2 y.2).
  - destruct (IH best) as [->|]; [by left | right; by constructor].
  - destruct (IH y) as [->|]; right; [left | by constructor].
Qed.

Lemma min_job_le_best best l :
  book_queue.key_le (book_queue.min_job best l).2 best.2 = true.
Proof.
  revert best. induction l as [|y l IH]; intros best; simpl.
  - apply key_le_refl.
  - destruct (book_queue.key_le best.2 y.2) eqn:E; [apply IH|].
    eapply key_le_trans; [apply IH|]. by apply key_le_total.
Qed.

Lemma min_job_least best l y :
  y ∈ l → book_queue.key_le (book_queue.min_job best l).2 y.2 = true.
Proof.
  revert best. induction l as [|z l IH]; intros best Hy; [by inversion Hy|].
  simpl. apply elem_of_cons in Hy as [->|Hy].
  - destruct (book_queue.key_le best.2 z.2) eqn:E.
    + eapply key_le_trans; [apply min_job_le_best | done].
    + apply min_job_le_best.
  - destruct (book_queue.key_le best.2 z.2); by apply IH.
Qed.

(** What [get_next] returns: a [Queued] record that is least in the
    scheduler's order, moved to [PROCESSING]. *)
Lemma get_next_Some q k e q' :
  book_queue.get_next q = (Some (k, e), q') →
  e = k ∧ ∃ r, queued_in q k r
    ∧ (∀ k' r', queued_in q k' r' → book_queue.key_le r r' = true)
    ∧ jobs q' = <[k := set_cancelSignal false (set_status PROCESSING r)]> (jobs q).
Proof.
  unfold book_queue.get_next.
  destruct (book_queue.queued q) as [|x l] eqn:E; [done|].
  intros [= <- <- <-]. split; [done|].
  set (m := book_queue.min_job x l).
  assert (m ∈ x :: l) as Hm.
  { destruct (min_job_elem x l) as [Heq|Hin].
    - fold m in Heq. rewrite Heq. by left.
    - fold m in Hin. by right. }
  exists m.2. split; [|split].
  - apply elem_of_queued. rewrite E. by destruct m.
  - intros k' r' Hq. apply elem_of_queued in Hq. rewrite E in Hq.
    apply elem_of_cons in Hq as [<-|Hq].
    + apply (min_job_le_best (k', r') l).
    + apply (min_job_least x l (k', r') Hq).
  - done.
Qed.

Lemma get_next_None q q' :
  book_queue.get_next q = (None, q') →
  q' = q ∧ ∀ k r, ¬ queued_in q k r.
Proof.
  unfold book_queue.get_next.
  destruct (book_queue.queued q) as [|x l] eqn:E; [|done].
  intros [= <-]. split; [done|]. intros k r Hq.
  apply elem_of_queued in Hq. rewrite E in Hq. by inversion Hq.
Qed.

Lemma queued_in_after_get_next q k r q' k' r' :
  queued_in q k r →
  jobs q' = <[k := set_cancelSignal false (set_status PROCESSING r)]> (jobs q) →
  queued_in q' k' r' ↔ k' ≠ k ∧ queued_in q k' r'.
Proof.
  intros [Hk Hs] Hq'. unfold queued_in. rewrite Hq'.
  destruct (decide (k' = k)) as [->|Hne].
  - rewrite lookup_insert_eq. split; [|naive_solver].
    intros [[= <-] Hst]. done.
  - rewrite lookup_insert_ne by done. naive_solver.
Qed.

Lemma StronglySorted_weaken {A} (R1 R2 : relation A) (l : list A) :
  (∀ a b, R1 a b → R2 a b) → StronglySorted R1 l → StronglySorted R2 l.
Proof.
  intros HR. induction 1 as [|a l Hs IH Hf]; constructor; [done|].
  eapply Forall_impl; [exact Hf|]. intros b. apply HR.
Qed.

(** The order in which two jobs are handed out, read on the store the
    draining starts from. *)
Definition before_in (q : BookQueue) (a b : string) : Prop :=
  a ≠ b ∧ ∃ ra rb, queued_in q a ra ∧ queued_in q b rb
                   ∧ book_queue.key_le ra rb = true.

Lemma drain_sorted n q :
  StronglySorted (before_in q) (drain n q)
  ∧ Forall (λ a, ∃ r, queued_in q a r) (drain n q).
Proof.
  revert q. induction n as [|n IH]; intros q; simpl.
  { split; constructor. }
  destruct (book_queue.get_next q) as [[[k e]|] q'] eqn:E.
  2:{ split; constructor. }
  apply get_next_Some in E as (-> & r & Hq & Hmin & Hjobs).
  destruct (IH q') as [Hs Hf].
  assert (∀ a, (∃ ra, queued_in q' a ra) → a ≠ k ∧ ∃ ra, queued_in q a ra)
    as Hback.
  { intros a [ra Ha].
    apply (queued_in_after_get_next q k r q' a ra Hq Hjobs) in Ha.
    naive_solver. }
  split.
  - apply StronglySorted_cons. split.
    + eapply Forall_impl; [exact Hf|]. intros a Ha.
      apply Hback in Ha as [Hne [ra Ha]].
      split; [done|]. exists r, ra. eauto.
    + eapply StronglySorted_weaken; [|exact Hs].
      intros a b (Hne & ra & rb & Ha & Hb & Hle).
      split; [done|]. exists ra, rb.
      apply (queued_in_after_get_next q k r q' a ra Hq Hjobs) in Ha.
      apply (queued_in_after_get_next q k r q' b rb Hq Hjobs) in Hb.
      naive_solver.
  - constructor; [eauto|].
    eapply Forall_impl; [exact Hf|]. intros a Ha.
    apply Hback in Ha. naive_solver.
Qed.
End scheduler.

Section enqueue.
Implicit Types (q : BookQueue) (ops : list (string * BookInfo * Z)).

Lemma drain_complete n q a r :
  (size (filter (λ p, status p.2 = QUEUED) (jobs q)) ≤ n)%nat →
  queued_in q a r → a ∈ drain n q.
Proof.
  revert q. induction n as [|n IH]; intros q Hsz Ha.
  - assert (filter (λ p : string * JobRecord, status p.2 = QUEUED) (jobs q)
            !! a = Some r) as Hl
      by (apply map_lookup_filter_Some; exact Ha).
    apply Nat.le_0_r, map_size_empty_iff in Hsz. rewrite Hsz in Hl.
    by rewrite lookup_empty in Hl.
  - simpl. destruct (book_queue.get_next q) as [[[k e]|] q'] eqn:E.
    + apply get_next_Some in E as (-> & rk & Hq & _ & Hjobs).
      destruct (decide (a = k)) as [->|Hne]; [by left|]. right.
      apply (IH q').
      * rewrite Hjobs, map_filter_insert_False by (simpl; done).
        rewrite map_filter_delete, map_size_delete_Some.
        -- lia.
        -- exists rk. apply map_lookup_filter_Some. exact Hq.
      * apply (queued_in_after_get_next q k rk q' a r Hq Hjobs). done.
    + apply get_next_None in E as [_ Hnone]. by destruct (Hnone a r).
Qed.

Lemma enqueue_all_snoc ops op q :
  enqueue_all (ops ++ [op]) q
  = book_queue.add op.1.1 op.1.2 op.2 (enqueue_all ops q).
Proof. unfold enqueue_all. by rewrite foldl_app. Qed.

Lemma first_op_snoc ops op k :
  first_op (ops ++ [op]) k
  = match first_op ops k with
    | Some x => Some x
    | None => if decide (op.1.1 = k) then Some (length ops, op.2) else None
    end.
Proof.
  induction ops as [|o ops IH]; simpl.
  - by destruct (decide (op.1.1 = k)).
  - destruct (decide (o.1.1 = k)); [done|]. rewrite IH.
    destruct (first_op ops k); simpl; [done|].
    by destruct (decide (op.1.1 = k)).
Qed.

Lemma first_op_lt ops k i p :
  first_op ops k = Some (i, p) → (i < length ops)%nat.
Proof.
  revert i. induction ops as [|o ops IH]; intros i; simpl; [done|].
  destruct (decide (o.1.1 = k)).
  - intros [= <- _]. lia.
  - destruct (first_op ops k) as [[i' p']|]; simpl; [|done].
    intros [= <- <-]. specialize (IH i' eq_refl). lia.
Qed.

Lemma first_op_inj ops a b i pa pb :
  first_op ops a = Some (i, pa) → first_op ops b = Some (i, pb) → a = b.
Proof.
  revert i. induction ops as [|o ops IH]; intros i; simpl; [done|].
  destruct (decide (o.1.1 = a)) as [<-|Ha];
    destruct (decide (o.1.1 = b)) as [Hb|Hb]; [done| | |].
  - intros [= <- _]. destruct (first_op ops b) as [[]|]; simpl; [|done].
    intros [=].
  - destruct (first_op ops a) as [[]|]; simpl; [|done].
    intros [= <- _] [=].
  - destruct (first_op ops a) as [[i1 p1]|]; simpl; [|done].
    destruct (first_op ops b) as [[i2 p2]|]; simpl; [|done].
    intros [= <- <-] [= <- <-]. by eapply IH.
Qed.

Lemma first_op_elem ops k :
  is_Some (first_op ops k) ↔ k ∈ ops.*1.*1.
Proof.
  induction ops as [|o ops IH]; simpl.
  - split; [by intros [? ?] | by inversion 1].
  - rewrite elem_of_cons. destruct (decide (o.1.1 = k)) as [<-|Hne].
    + split; eauto.
    + rewrite <- IH. destruct (first_op ops k); simpl.
      * split; eauto.
      * split; [by intros [? ?] | intros [?|[? ?]]; congruence].
Qed.

(** The store a sequence of enqueues builds on the empty store. *)
Record enqueued (ops : list (string * BookInfo * Z)) (q : BookQueue) : Prop := {
  enq_tracked k r :
    jobs q !! k = Some r →
    status r = QUEUED ∧ (insertionSeq r < next_seq q)%nat
    ∧ ∃ i, first_op ops k = Some (i, priority r);
  enq_untracked k : jobs q !! k = None → first_op ops k = None;
  enq_order k1 r1 i1 p1 k2 r2 i2 p2 :
    jobs q !! k1 = Some r1 → jobs q !! k2 = Some r2 →
    first_op ops k1 = Some (i1, p1) → first_op ops k2 = Some (i2, p2) →
    (insertionSeq r1 < insertionSeq r2)%nat ↔ (i1 < i2)%nat;
  enq_size : (size (jobs q) ≤ length ops)%nat
}.

Lemma enqueue_all_enqueued ops : enqueued ops (enqueue_all ops book_queue.empty).
Proof.
  induction ops as [|op ops IH] using rev_ind.
  - split; simpl; try done.
  - rewrite enqueue_all_snoc. set (q := enqueue_all ops book_queue.empty) in *.
    destruct IH as [Ht Hu Ho Hsz]. unfold book_queue.add.
    destruct (jobs q !! op.1.1) as [r0|] eqn:E0.
    + destruct (Ht _ _ E0) as (Hs0 & _ & i0 & Hf0). rewrite Hs0. simpl.
      assert (∀ k r, jobs q !! k = Some r →
                     first_op (ops ++ [op]) k = first_op ops k) as Hsame.
      { intros k r Hk. rewrite first_op_snoc.
        destruct (Ht _ _ Hk) as (_ & _ & i & ->). done. }
      split.
      * intros k r Hk. rewrite (Hsame _ _ Hk). by apply Ht.
      * intros k Hk. rewrite first_op_snoc, (Hu _ Hk).
        rewrite decide_False; [done|]. intros <-. congruence.
      * intros k1 r1 i1 p1 k2 r2 i2 p2 H1 H2.
        rewrite (Hsame _ _ H1), (Hsame _ _ H2). by apply Ho.
      * rewrite length_app. simpl. lia.
    + pose proof (Hu _ E0) as Hf0.
      assert (first_op (ops ++ [op]) op.1.1 = Some (length ops, op.2)) as Hnew.
      { rewrite first_op_snoc, Hf0. by rewrite decide_True. }
      assert (∀ k, k ≠ op.1.1 →
                   first_op (ops ++ [op]) k = first_op ops k) as Hold.
      { intros k Hne. rewrite first_op_snoc.
        destruct (first_op ops k); [done|]. by rewrite decide_False. }
      split; simpl.
      * intros k r. destruct (decide (k = op.1.1)) as [->|Hne].
        -- rewrite lookup_insert_eq. intros [= <-]. simpl.
           split; [done|]. split; [lia|]. eauto.
        -- rewrite lookup_insert_ne by done. intros Hk.
           rewrite (Hold _ Hne). destruct (Ht _ _ Hk) as (? & ? & ?).
           split; [done|]. split; [lia|done].
      * intros k. destruct (decide (k = op.1.1)) as [->|Hne].
        -- by rewrite lookup_insert_eq.
        -- rewrite lookup_insert_ne by done. intros Hk.
           rewrite (Hold _ Hne). by apply Hu.
      * intros k1 r1 i1 p1 k2 r2 i2 p2.
        destruct (decide (k1 = op.1.1)) as [->|Hne1];
          destruct (decide (k2 = op.1.1)) as [->|Hne2].
        -- rewrite lookup_insert_eq, Hnew. intros [= <-] [= <-] [= <- _] [= <- _].
           simpl. lia.
        -- rewrite lookup_insert_eq, lookup_insert_ne, Hnew, (Hold _ Hne2) by done.
           intros [= <-] H2 [= <- _] Hf2. simpl.
           destruct (Ht _ _ H2) as (_ & Hlt & _).
           apply first_op_lt in Hf2. lia.
        -- rewrite lookup_insert_eq, lookup_insert_ne, Hnew, (Hold _ Hne1) by done.
           intros H1 [= <-] Hf1 [= <- _]. simpl.
           destruct (Ht _ _ H1) as (_ & Hlt & _).
           apply first_op_lt in Hf1. lia.
        -- rewrite !lookup_insert_ne, (Hold _ Hne1), (Hold _ Hne2) by done.
           by apply Ho.
      * rewrite map_size_insert_None, length_app by done. simpl. lia.
Qed.
End enqueue.

Lemma StronglySorted_lookup {A} (R : relation A) (l : list A) i j a b :
  StronglySorted R l → (i < j)%nat → l !! i = Some a → l !! j = Some b → R a b.
Proof.
  intros Hs. revert i j. induction Hs as [|x l Hs IH Hf]; intros i j Hij Ha Hb.
  - by rewrite lookup_nil in Ha.
  - destruct j as [|j]; [lia|]. simpl in Hb. destruct i as [|i]; simpl in Ha.
    + injection Ha as <-. rewrite Forall_forall in Hf. apply Hf.
      by eapply list_elem_of_lookup_2.
    + eapply IH; [|done..]. lia.
Qed.

(** C6: successive [get_next] calls after a sequence of enqueues hand a
    job out once, hand out enqueued jobs only and, given enough calls,
    all of them; of two jobs handed out, the earlier has the strictly
    lower priority value or the same priority and the earlier enqueue. *)
Theorem get_next_priority_then_fifo
    (ops : list (string * BookInfo * Z)) (n : nat) :
  let handed := drain n (enqueue_all ops book_queue.empty) in
  NoDup handed
  ∧ (∀ a, a ∈ handed → a ∈ ops.*1.*1)
  ∧ ((length ops ≤ n)%nat → ∀ a, a ∈ ops.*1.*1 → a ∈ handed)
  ∧ ∀ i j a b, (i < j)%nat → handed !! i = Some a → handed !! j = Some b →
      ∃ ia pa ib pb,
        first_op ops a = Some (ia, pa) ∧ first_op ops b = Some (ib, pb)
        ∧ (pa < pb ∨ (pa = pb ∧ (ia < ib)%nat)).
Proof.
  intros handed. subst handed.
  set (q := enqueue_all ops book_queue.empty).
  pose proof (enqueue_all_enqueued ops) as [Ht Hu Ho Hsz]. fold q in Ht, Hu, Ho, Hsz.
  destruct (drain_sorted n q) as [Hs Hf].
  assert (∀ i j a b, (i < j)%nat → drain n q !! i = Some a →
            drain n q !! j = Some b → before_in q a b) as Hpair.
  { intros. by eapply StronglySorted_lookup. }
  repeat split.
  - apply NoDup_alt. intros i j a Hi Hj.
    destruct (Nat.lt_trichotomy i j) as [Hlt|[->|Hlt]]; [|done|].
    + by destruct (Hpair i j a a Hlt Hi Hj).
    + by destruct (Hpair j i a a Hlt Hj Hi).
  - intros a Ha. rewrite Forall_forall in Hf.
    destruct (Hf a Ha) as [r [Hr _]].
    apply first_op_elem. destruct (Ht _ _ Hr) as (_ & _ & i & ->). eauto.
  - intros Hn a Ha. apply first_op_elem in Ha as [x Hx].
    destruct (jobs q !! a) as [r|] eqn:E.
    + apply (drain_complete n q a r).
      * etrans; [apply map_subseteq_size, map_filter_subseteq|]. lia.
      * split; [done|]. by destruct (Ht _ _ E).
    + rewrite (Hu _ E) in Hx. done.
  - intros i j a b Hij Ha Hb.
    destruct (Hpair i j a b Hij Ha Hb) as (Hne & ra & rb & [Hra _] & [Hrb _] & Hle).
    destruct (Ht _ _ Hra) as (_ & _ & ia & Hfa).
    destruct (Ht _ _ Hrb) as (_ & _ & ib & Hfb).
    exists ia, (priority ra), ib, (priority rb). split; [done|]. split; [done|].
    apply key_le_spec in Hle as [Hlt|[Heq Hseq]]; [by left|]. right.
    split; [done|].
    destruct (decide (insertionSeq ra = insertionSeq rb)) as [Hsame|Hdiff].
    + exfalso.
      pose proof (Ho a ra ia _ b rb ib _ Hra Hrb Hfa Hfb) as H1.
      pose proof (Ho b rb ib _ a ra ia _ Hrb Hra Hfb Hfa) as H2.
      assert (ia = ib) as -> by lia.
      by apply Hne, (first_op_inj ops a b ib (priority ra) (priority rb)).
    + apply (Ho a ra ia _ b rb ib _ Hra Hrb Hfa Hfb). lia.
Qed.

Lemma get_next_priority_then_fifo_witness :
  drain 3 (enqueue_all three_books book_queue.empty) = ["B"; "A"; "C"]
  ∧ ∃ ia pa ib pb,
      first_op three_books "A" = Some (ia, pa)
      ∧ first_op three_books "C" = Some (ib, pb)
      ∧ (pa < pb ∨ (pa = pb ∧ (ia < ib)%nat)).
Proof.
  split; [vm_compute; reflexivity|].
  refine (proj2 (proj2 (proj2 (get_next_priority_then_fifo three_books 3)))
            1%nat 2%nat "A" "C" _ _ _).
  - lia.
  - vm_compute. reflexivity.
  - vm_compute. reflexivity.
Defined.

(** * Staging and publication paths *)

Section paths.
Implicit Types (a b f g s : string) (c : ascii).

Lemma app_cons c a s : String c a +:+ s = String c (a +:+ s).
Proof. reflexivity. Qed.

Lemma app_nil s : "" +:+ s = s.
Proof. reflexivity. Qed.




Lemma length_app a s :
  String.length (a +:+ s) = (String.length a + String.length s)%nat.
Proof. induction a as [|c a IH]; [done|]. rewrite app_cons. simpl. by rewrite IH. Qed.


End paths.




(** * The progress callback *)

(** C10: [update_download_progress] moves the status of the job from
    [PROCESSING] to [DOWNLOADING] and changes no status otherwise; when
    the job is in any other status, in particular a terminal one, the
    call is exactly the write of the progress value, and the status of
    the job is the one it had. *)
Theorem update_download_progress_status_frame
    (book_id : string) (v : float) (q : BookQueue) :
  let q' := update_download_progress book_id v q in
  (book_queue.get_status_for_book book_id q = Some PROCESSING →
   book_queue.get_status_for_book book_id q' = Some DOWNLOADING)
  ∧ (book_queue.get_status_for_book book_id q ≠ Some PROCESSING →
     q' = book_queue.update_progress book_id v q
     ∧ book_queue.get_status_for_book book_id q'
       = book_queue.get_status_for_book book_id q)
  ∧ (∀ s, book_queue.get_status_for_book book_id q = Some s →
          is_terminal s = true →
          book_queue.get_status_for_book book_id q' = Some s)
  ∧ (∀ other, other ≠ book_id →
              book_queue.get_status_for_book other q'
              = book_queue.get_status_for_book other q)
  ∧ progress <$> book_queue._book_data book_id q'
    = (λ _, Some v) <$> book_queue._book_data book_id q.
Proof.
  intros q'. subst q'. repeat split.
  - intros Hp. rewrite status_update_download_progress.
    by rewrite decide_True.
  - unfold update_download_progress. by rewrite decide_False.
  - rewrite status_update_download_progress.
    rewrite decide_False; [done|]. by intros [_ ?].
  - intros s Hs Ht. rewrite status_update_download_progress.
    rewrite decide_False; [done|]. intros [_ Hp]. rewrite Hp in Hs.
    by simplify_eq.
  - intros other Hne. rewrite status_update_download_progress.
    rewrite decide_False; [done|]. by intros [? _].
  - unfold update_download_progress, book_queue._book_data,
      book_queue.update_progress; simpl.
    rewrite lookup_alter, decide_True by done.
    case_decide; simpl.
    + rewrite lookup_alter, decide_True by done.
      by destruct (jobs q !! book_id).
    + by destruct (jobs q !! book_id).
Qed.

Lemma update_download_progress_status_frame_witness :
  book_queue.get_status_for_book "b1"
    (update_download_progress "b1" 0.5%float queue_with_available)
  = Some AVAILABLE.
Proof.
  refine (proj1 (proj2 (proj2
    (update_download_progress_status_frame "b1" 0.5%float queue_with_available)))
    AVAILABLE _ _).
  - vm_compute. reflexivity.
  - reflexivity.
Defined.

(** * Worker runs *)

(** ** What a run keeps true of the store *)

Section worker_store.
Context (I : World → Prop) (HI : store_only I).
Context (env : Env) (book_id : string) (cancel_flag : Event).
Context (Hcancel : preserves I (deliver_cancel env cancel_flag)).
Context (Hprogress :
  preserves I (for_each (progress_callback book_id) 0 (fetch_progress env))).

Local Ltac prim :=
  first
    [ apply Hcancel | apply Hprogress
    | apply (store_only_tick I HI) | apply (store_only_emit I HI)
    | apply (store_only_fs_set I HI) | apply (store_only_path_exists I HI)
    | apply (store_only_os_remove I HI) | apply (store_only_os_rename I HI)
    | apply (store_only_move I HI) | apply (store_only_copyfile I HI)
    | apply (store_only_unlink_if_exists I HI) | apply (store_only_run I HI) ].

Lemma is_set_preserves : preserves I (Event.is_set env cancel_flag).
Proof. unfold Event.is_set. preserves_walk prim. Qed.

Lemma download_book_preserves p :
  preserves I (book_manager.download_book env book_id p).
Proof. unfold book_manager.download_book. preserves_walk prim. Qed.

Lemma publish_preserves cfg book_info p1 p2 p3 :
  preserves I (publish cfg env book_id cancel_flag book_info p1 p2 p3).
Proof.
  unfold publish.
  preserves_walk ltac:(first [apply is_set_preserves | prim]).
Qed.

Lemma download_attempt_preserves cfg :
  preserves I (download_attempt cfg env book_id cancel_flag).
Proof.
  unfold download_attempt, Event.wait.
  preserves_walk
    ltac:(first [apply is_set_preserves | apply download_book_preserves
                | apply publish_preserves | prim]).
Qed.

Lemma download_handler_preserves e :
  preserves I (download_handler env book_id cancel_flag e).
Proof.
  unfold download_handler.
  preserves_walk ltac:(first [apply is_set_preserves | prim]).
Qed.

Lemma download_preserves cfg :
  preserves I (_download_book_with_cancellation cfg env book_id cancel_flag).
Proof.
  apply preserves_try;
    [apply download_attempt_preserves | apply download_handler_preserves].
Qed.
End worker_store.

Lemma returns_store_call o k f : returns (store_call o k f).
Proof. intros w. by exists (). Qed.

Lemma returns_deliver_cancel env flag : returns (deliver_cancel env flag).
Proof.
  intros w. unfold deliver_cancel. case_match; by exists ().
Qed.

Lemma returns_is_set env flag : returns (Event.is_set env flag).
Proof.
  unfold Event.is_set.
  apply returns_bind; [apply returns_deliver_cancel|intros _].
  apply returns_bind; [apply returns_gets|intros b].
  apply returns_bind; [apply returns_modify|intros _]. apply returns_ret.
Qed.

Lemma returns_emit lvl msg : returns (logger.emit lvl msg).
Proof. apply returns_modify. Qed.

Lemma returns_download_handler env k flag e :
  returns (download_handler env k flag e).
Proof.
  unfold download_handler, bindM.
  apply returns_bind; [apply returns_is_set|intros c].
  destruct c; (apply returns_bind; [apply returns_emit | intros _; apply returns_ret]).
Qed.

(** [_download_book_with_cancellation] raises nothing. *)
Lemma returns_download cfg env k flag :
  returns (_download_book_with_cancellation cfg env k flag).
Proof. apply returns_try. apply returns_download_handler. Qed.



(** ** The record of the job during a run *)


Lemma running_deliver_cancel env k r0 :
  preserves (running k r0) (deliver_cancel env k).
Proof.
  intros w (r & Hr & Hact & Hinfo & Hp & Hs). unfold deliver_cancel.
  destruct (due env (clock w)); [|by exists r].
  simpl. unfold book_queue.cancel_download. rewrite Hr.
  destruct (status r) eqn:E; try done; unfold running; simpl;
    rewrite lookup_insert_eq; eexists; (split; [done|]); simpl; by rewrite ?E.
Qed.

Lemma running_progress_callback k r0 n p :
  preserves (running k r0) (progress_callback k n p).
Proof.
  intros w (r & Hr & Hact & Hinfo & Hp & Hs). simpl.
  unfold update_download_progress, book_queue.get_status_for_book.
  rewrite Hr. simpl. unfold running. simpl.
  destruct (decide (Some (status r) = Some PROCESSING)); simpl;
    rewrite ?lookup_alter_eq, Hr; simpl; eexists; (split; [done|]); simpl;
    by rewrite ?Hinfo.
Qed.



Lemma running_started k q f r :
  jobs q !! k = Some r → running k r (started_world k q f).
Proof.
  intros Hr. unfold started_world, running. simpl.
  rewrite lookup_alter_eq, Hr. simpl. eexists. split; [done|]. done.
Qed.

(** The value [is_set] returns is the signal left in the store. *)
Lemma is_set_result env flag w :
  ∃ w', Event.is_set env flag w = (Ok (book_queue.is_set flag (queue w')), w')
        ∧ fs w' = fs w ∧ fs_trace w' = fs_trace w ∧ log w' = log w
        ∧ clock w' = S (clock w).
Proof.
  destruct (Event.is_set env flag w) as [res w'] eqn:E. exists w'.
  unfold Event.is_set, deliver_cancel, bindM, mbind, M_bind in E.
  destruct (due env (clock w)); simpl in E; injection E as <- <-; done.
Qed.

(** ** How [_process_single_download] ends *)

Lemma process_single_download_run cfg env k q f :
  ∃ dp w2 w3,
    _download_book_with_cancellation cfg env k k (started_world k q f)
    = (Ok dp, w2)
    ∧ Event.is_set env k w2 = (Ok (book_queue.is_set k (queue w3)), w3)
    ∧ _process_single_download cfg env k k (init_world q f)
      = (Ok (), conclude k dp (book_queue.is_set k (queue w3)) w3).
Proof.
  destruct (returns_download cfg env k k (started_world k q f)) as [dp Hdp].
  destruct (_download_book_with_cancellation cfg env k k (started_world k q f))
    as [res w2] eqn:ED. simpl in Hdp. subst res.
  destruct (is_set_result env k w2) as (w3 & Hw3 & _).
  exists dp, w2, w3. split; [done|]. split; [done|].
  unfold _process_single_download, try_except, bindM, mbind, M_bind.
  unfold started_world in ED. simpl in ED |- *. rewrite ED, Hw3.
  unfold conclude. destruct (book_queue.is_set k (queue w3)); [done|].
  destruct (truthy dp); done.
Qed.

Lemma conclude_spec k r0 dp w :
  running k r0 w →
  let c := book_queue.is_set k (queue w) in
  ∃ r', jobs (queue (conclude k dp c w)) !! k = Some r'
        ∧ status r' = (if c then CANCELLED
                       else if truthy dp then AVAILABLE else ERROR)
        ∧ download_path (info r')
          = (if c then download_path (info r0)
             else if truthy dp then dp else download_path (info r0))
        ∧ cancelSignal r' = c.
Proof.
  intros (r & Hr & Hact & Hinfo & Hp & Hs) c.
  assert (download_path (info r) = download_path (info r0)) as Hdp
    by exact (f_equal download_path Hinfo).
  assert (c = cancelSignal r) as Hc
    by (unfold c, book_queue.is_set; by rewrite Hr).
  clearbody c. subst c.
  unfold conclude. destruct (cancelSignal r) eqn:Hsig.
  - simpl. rewrite lookup_alter_eq, Hr. simpl. eauto.
  - destruct (truthy dp) eqn:Ht; simpl.
    + rewrite !lookup_alter_eq, Hr. simpl. eexists. split; [done|]. simpl.
      split; [done|]. split; [|done]. destruct dp; [done|]. done.
    + rewrite lookup_alter_eq, Hr. simpl. eauto.
Qed.

Lemma conclude_log k dp c w x : x ∈ log w → x ∈ log (conclude k dp c w).
Proof.
  intros Hx. unfold conclude. destruct c; [done|].
  destruct (truthy dp); simpl; by right.
Qed.



(** ** The status changes of a run *)

Section status_trace.
Context (ok : StatusWrite → Prop).
Context (Hok : ∀ e, sw_after e ≠ Some DOWNLOADING → ok e).









End status_trace.


(** ** A run, step by step *)

Lemma lookup_fs_put_eq p d (m : FileSystem) : fs_put p d m !! p = d.
Proof. destruct d; unfold fs_put; [apply lookup_insert_eq | apply lookup_delete_eq]. Qed.

Lemma lookup_fs_put_ne p p' d (m : FileSystem) :
  p ≠ p' → fs_put p d m !! p' = m !! p'.
Proof.
  intros. destruct d; unfold fs_put;
    [by apply lookup_insert_ne | by apply lookup_delete_ne].
Qed.

Local Arguments fs_put : simpl never.

Lemma due_mono env m : due env m = true → due env (S m) = true.
Proof.
  unfold due. destruct (cancel_tick env) as [t|]; [|done].
  rewrite !Nat.leb_le. lia.
Qed.

Lemma last_state_cons st l init :
  last_state (st :: l) init = last_state l st.
Proof. unfold last_state. rewrite last_cons. by destruct (last l). Qed.

Section attempt.
Context (cfg : Config) (env : Env) (k : string) (r0 : JobRecord).
Context (f0 : FileSystem).

Let bp := staging_path cfg k (info r0).
Let ip := intermediate_path_of cfg k.
Let fp := final_path_of cfg k (info r0).

Context (Hbf : bp ≠ fp) (Hif : ip ≠ fp) (Hbi : bp ≠ ip).

(** Whether the signal is set after [n] examinations. *)
Definition seen (n : nat) : bool :=
  cancelSignal r0 || match n with O => false | S m => due env m end.

Lemma seen_S n : seen (S n) = seen n || due env n.
Proof.
  unfold seen. destruct n as [|m]; [by rewrite orb_false_r|].
  destruct (cancelSignal r0); [done|]. simpl.
  destruct (due env m) eqn:E; [|done]. by rewrite (due_mono _ _ E).
Qed.

Lemma seen_mono n m : (n ≤ m)%nat → seen n = true → seen m = true.
Proof.
  induction 1 as [|m Hle IH]; [done|]. intros Hn.
  rewrite seen_S, (IH Hn). done.
Qed.

(** The public path has not been written. *)
Definition quiet (w : World) : Prop :=
  Forall (λ x : FileSystem, x !! fp = f0 !! fp) (fs_trace w)
  ∧ ∃ rest, fs_trace w = fs w :: rest.

(** The job is running and the signal in the store is the one seen so
    far. *)
Definition Live (w : World) : Prop :=
  running k r0 w ∧ book_queue.is_set k (queue w) = seen (clock w).

(** The state of a run after [n] examinations of the signal, with the
    staging file [Xb] and the intermediate file [Xi]. *)
Definition Stage (n : nat) (Xb Xi : option (list Byte.byte)) (w : World)
  : Prop :=
  Live w ∧ clock w = n ∧ quiet w ∧ fs w !! bp = Xb ∧ fs w !! ip = Xi.

Lemma Stage_with_log n Xb Xi l w :
  Stage n Xb Xi w → Stage n Xb Xi (with_log l w).
Proof. done. Qed.

Lemma quiet_put p d w :
  p ≠ fp → quiet w → quiet (with_fs (fs_put p d (fs w)) w).
Proof.
  intros Hp [Hall [rest Hhd]]. split; simpl; [|eauto].
  constructor; [|done]. rewrite lookup_fs_put_ne by done.
  rewrite Hhd in Hall. by inversion Hall.
Qed.

Lemma Stage_put_bp n Xb Xi d w :
  Stage n Xb Xi w → Stage n d Xi (with_fs (fs_put bp d (fs w)) w).
Proof.
  intros (Hl & Hc & Hq & Hb & Hi).
  split; [done|]. split; [done|]. split; [by apply quiet_put|]. simpl.
  split; [apply lookup_fs_put_eq | by rewrite lookup_fs_put_ne].
Qed.

Lemma Stage_put_ip n Xb Xi d w :
  Stage n Xb Xi w → Stage n Xb d (with_fs (fs_put ip d (fs w)) w).
Proof.
  intros (Hl & Hc & Hq & Hb & Hi).
  split; [done|]. split; [done|]. split; [by apply quiet_put|]. simpl.
  split; [by rewrite lookup_fs_put_ne | apply lookup_fs_put_eq].
Qed.

Lemma Stage_rename n x Xi w :
  Stage n (Some x) Xi w →
  Stage n None (Some x)
    (with_fs (fs_put ip (Some x) (fs_put bp None (fs w))) w).
Proof.
  intros (Hl & Hc & [Hall [rest Hhd]] & Hb & Hi).
  split; [done|]. split; [done|]. split; [split|]; simpl.
  - constructor; [|done].
    rewrite !lookup_fs_put_ne by done. rewrite Hhd in Hall. by inversion Hall.
  - eauto.
  - split; [|apply lookup_fs_put_eq].
    rewrite lookup_fs_put_ne by done. apply lookup_fs_put_eq.
Qed.

Lemma is_set_live w :
  Live w →
  ∃ w', Event.is_set env k w = (Ok (seen (S (clock w))), w')
        ∧ Live w' ∧ clock w' = S (clock w)
        ∧ fs w' = fs w ∧ fs_trace w' = fs_trace w
        ∧ status_trace w' = status_trace w ∧ log w' = log w.
Proof.
  intros [Hr Hs].
  pose proof (running_deliver_cancel env k r0 w Hr) as Hr'.
  destruct Hr as (r & Hjob & Hact & Hrest).
  assert (status r = PROCESSING ∨ status r = DOWNLOADING) as Hst
    by (destruct (status r); simpl in Hact; try discriminate; auto).
  assert (book_queue.get_status_for_book k
            (book_queue.cancel_download k (queue w)).2
          = book_queue.get_status_for_book k (queue w)
          ∧ book_queue.is_set k (book_queue.cancel_download k (queue w)).2
            = true) as [Hst' Hsig'].
  { unfold book_queue.cancel_download, book_queue.get_status_for_book,
      book_queue.is_set. rewrite Hjob.
    destruct Hst as [E|E]; rewrite E; simpl; rewrite lookup_insert_eq;
      simpl; by rewrite E. }
  unfold Live. rewrite seen_S, <- Hs.
  unfold Event.is_set, bindM, mbind, M_bind.
  unfold deliver_cancel in *.
  destruct (due env (clock w)) eqn:Hdue.
  - rewrite orb_true_r. simpl in *. rewrite Hst', decide_True by done.
    rewrite Hst', decide_True in Hr' by done.
    eexists. split; [unfold mret, M_ret; rewrite Hsig'; reflexivity|].
    simpl. rewrite seen_S, <- Hs, Hdue, orb_true_r. done.
  - rewrite orb_false_r. simpl. eexists. split; [done|]. simpl.
    rewrite seen_S, <- Hs, Hdue, orb_false_r.
    split; [|done]. split; [by exists r|]. done.
Qed.

Lemma is_set_step n Xb Xi w :
  Stage n Xb Xi w →
  ∃ w', Event.is_set env k w = (Ok (seen (S n)), w')
        ∧ Stage (S n) Xb Xi w'
        ∧ status_trace w' = status_trace w ∧ log w' = log w.
Proof.
  intros (Hl & Hc & [Hall Hhd] & Hb & Hi). subst n.
  destruct (is_set_live w Hl) as (w' & E & Hl' & Hc' & Hfs & Hft & Hst & Hlog).
  exists w'. split; [exact E|]. split; [|by split].
  unfold Stage, quiet. rewrite Hfs, Hft. done.
Qed.

Lemma found_step n Xb Xi w :
  Stage n Xb Xi w →
  ∃ bi, book_queue._book_data k (queue w) = Some bi
        ∧ staging_path cfg k bi = bp ∧ final_path_of cfg k bi = fp
        ∧ title bi = title (info r0).
Proof.
  intros ([(r & Hjob & _ & Hinfo & _) _] & _).
  exists (info r). unfold book_queue._book_data. rewrite Hjob.
  split; [done|].
  assert (title (info r) = title (info r0)) as Ht
    by exact (f_equal title Hinfo).
  assert (format (info r) = format (info r0)) as Hf
    by exact (f_equal format Hinfo).
  unfold bp, fp, staging_path, final_path_of, book_name_of.
  by rewrite Ht, Hf.
Qed.

Lemma is_set_update_download_progress p q :
  book_queue.is_set k (update_download_progress k p q)
  = book_queue.is_set k q.
Proof.
  unfold update_download_progress, book_queue.is_set,
    book_queue.get_status_for_book.
  destruct (jobs q !! k) as [r|] eqn:E; simpl;
    repeat case_decide; simpl; rewrite ?lookup_alter_eq, ?E; simpl;
    rewrite ?lookup_alter_eq, ?E; done.
Qed.

Lemma callbacks_step n Xb Xi l m w :
  Stage n Xb Xi w →
  ∃ w', for_each (progress_callback k) m l w = (Ok (), w')
        ∧ Stage n Xb Xi w' ∧ log w' = log w.
Proof.
  revert m w. induction l as [|p l IH]; intros m w Hw; [by exists w|].
  simpl. unfold mbind, M_bind. simpl.
  edestruct (IH (S m)) as (w' & E & Hs & Hlog); [|exists w'; split; [exact E|by split]].
  destruct Hw as ([Hr Hsig] & Hc & Hq & Hb & Hi).
  split; [split|done].
  - apply (running_progress_callback k r0 m p w Hr).
  - simpl. rewrite is_set_update_download_progress. done.
Qed.

Lemma states_bp_step n Xb Xi l m w :
  Stage n Xb Xi w →
  ∃ w', for_each (λ _ st, fs_set bp st) m l w = (Ok (), w')
        ∧ Stage n (last_state l Xb) Xi w' ∧ log w' = log w.
Proof.
  revert m Xb w. induction l as [|st l IH]; intros m Xb w Hw; [by exists w|].
  simpl. unfold mbind, M_bind. simpl. rewrite last_state_cons.
  edestruct (IH (S m) st) as (w' & E & Hs & Hlog);
    [|exists w'; split; [exact E|by split]].
  exact (Stage_put_bp n Xb Xi st w Hw).
Qed.

Lemma download_book_step n Xb Xi w :
  Stage n Xb Xi w →
  ∃ w', book_manager.download_book env k bp w
        = (match fetch_result env with
           | FetchReturn b => Ok b
           | FetchRaise e => Raise e
           end, w')
        ∧ Stage n (last_state (fetch_file_states env) Xb) Xi w'.
Proof.
  intros Hw. unfold book_manager.download_book, mbind, M_bind.
  destruct (callbacks_step n Xb Xi (fetch_progress env) 0 w Hw)
    as (w1 & -> & H1 & _).
  destruct (states_bp_step n Xb Xi (fetch_file_states env) 0 w1 H1)
    as (w2 & -> & H2 & _).
  exists w2. split; [|done]. by destruct (fetch_result env).
Qed.

Lemma run_script_step n Xb Xi w :
  Stage n Xb Xi w →
  ∃ w', subprocess.run env bp w
        = (match script_result env with
           | ScriptRan _ => Ok ()
           | ScriptRaise e => Raise e
           end, w')
        ∧ Stage n (match script_result env with
                   | ScriptRan states => last_state states Xb
                   | ScriptRaise _ => Xb
                   end) Xi w'.
Proof.
  intros Hw. unfold subprocess.run.
  destruct (script_result env) as [e|states]; [by exists w|].
  destruct (states_bp_step n Xb Xi states 0 w Hw) as (w' & -> & H & _).
  by exists w'.
Qed.

Lemma unlink_bp_step n Xb Xi w :
  Stage n Xb Xi w →
  ∃ res w', unlink_if_exists env bp w = (res, w')
    ∧ match res with
      | Ok _ => Stage n None Xi w'
      | Raise _ => Stage n Xb Xi w'
      end.
Proof.
  intros Hw. pose proof Hw as (_ & _ & _ & Hb & _).
  unfold unlink_if_exists, os_remove, path_exists, bindM, mbind, M_bind, gets.
  rewrite Hb. destruct Xb as [x|]; simpl; rewrite ?Hb; simpl.
  - destruct (unlink_error env); simpl; eexists _, _; (split; [done|]);
      [done | exact (Stage_put_bp n (Some x) Xi None w Hw)].
  - by eexists _, _.
Qed.

Lemma unlink_ip_step n Xb Xi w :
  Stage n Xb Xi w →
  ∃ res w', unlink_if_exists env ip w = (res, w')
    ∧ match res with
      | Ok _ => Stage n Xb None w'
      | Raise _ => Stage n Xb Xi w'
      end.
Proof.
  intros Hw. pose proof Hw as (_ & _ & _ & _ & Hi).
  unfold unlink_if_exists, os_remove, path_exists, bindM, mbind, M_bind, gets.
  rewrite Hi. destruct Xi as [x|]; simpl; rewrite ?Hi; simpl.
  - destruct (unlink_error env); simpl; eexists _, _; (split; [done|]);
      [done | exact (Stage_put_ip n Xb (Some x) None w Hw)].
  - by eexists _, _.
Qed.

Local Arguments Event.is_set : simpl never.
Local Arguments Event.wait : simpl never.
Local Arguments book_manager.download_book : simpl never.
Local Arguments subprocess.run : simpl never.
Local Arguments unlink_if_exists : simpl never.
Local Arguments shutil.move : simpl never.
Local Arguments shutil.copyfile : simpl never.
Local Arguments os_remove : simpl never.
Local Arguments os_rename : simpl never.
Local Arguments path_exists : simpl never.
Local Arguments publish : simpl never.
Local Arguments store_call : simpl never.

Lemma move_step r n x Xi w :
  Stage n (Some x) Xi w →
  ∃ res w', shutil.move r bp ip w = (res, w')
    ∧ match r with
      | MoveFail e residue =>
          res = Raise e
          ∧ Stage n (Some x)
              (match residue with Some m => Some (take m x) | None => Xi end) w'
      | _ => res = Ok () ∧ Stage n None (Some x) w'
      end.
Proof.
  intros Hw. pose proof Hw as (_ & _ & _ & Hb & _).
  unfold shutil.move, bindM, mbind, M_bind, gets. rewrite Hb.
  destruct r as [|m|e [m|]]; simpl; eexists _, _; (split; [done|]);
    (split; [done|]).
  - exact (Stage_rename n x Xi w Hw).
  - exact (Stage_put_bp n (Some x) (Some x) None _
             (Stage_put_ip n (Some x) (Some (take m x)) (Some x) _
                (Stage_put_ip n (Some x) Xi (Some (take m x)) w Hw))).
  - exact (Stage_put_ip n (Some x) Xi (Some (take m x)) w Hw).
  - done.
Qed.

Lemma move_absent_step r n Xi w :
  Stage n None Xi w →
  shutil.move r bp ip w = (Raise "FileNotFoundError", w).
Proof.
  intros (_ & _ & _ & Hb & _).
  unfold shutil.move, bindM, mbind, M_bind, gets. by rewrite Hb.
Qed.

Lemma copyfile_step r n x Xi w :
  Stage n (Some x) Xi w →
  ∃ res w', shutil.copyfile r bp ip w = (res, w')
    ∧ match r with
      | CopyOk _ => res = Ok () ∧ Stage n (Some x) (Some x) w'
      | CopyFail e residue =>
          res = Raise e
          ∧ Stage n (Some x)
              (match residue with Some m => Some (take m x) | None => Xi end) w'
      end.
Proof.
  intros Hw. pose proof Hw as (_ & _ & _ & Hb & _).
  unfold shutil.copyfile, bindM, mbind, M_bind, gets. rewrite Hb.
  destruct r as [m|e [m|]]; simpl; eexists _, _; (split; [done|]);
    (split; [done|]).
  - exact (Stage_put_ip n (Some x) (Some (take m x)) (Some x) _
             (Stage_put_ip n (Some x) Xi (Some (take m x)) w Hw)).
  - exact (Stage_put_ip n (Some x) Xi (Some (take m x)) w Hw).
  - done.
Qed.

Lemma remove_bp_step n Xb Xi w :
  Stage n Xb Xi w →
  ∃ res w', os_remove (remove_error env) bp w = (res, w')
    ∧ match res with
      | Ok _ => Stage n None Xi w'
      | Raise _ => Stage n Xb Xi w'
      end
    ∧ (Xb = None → ∃ e, res = Raise e).
Proof.
  intros Hw. pose proof Hw as (_ & _ & _ & Hb & _).
  unfold os_remove, path_exists, bindM, mbind, M_bind, gets.
  rewrite Hb. destruct Xb as [x|]; simpl.
  - destruct (remove_error env); simpl; eexists _, _; (split; [done|]);
      (split; [|done]); [done | exact (Stage_put_bp n (Some x) Xi None w Hw)].
  - eexists _, _. split; [done|]. split; [done|]. eauto.
Qed.

(** The [try] statement that moves the staged file to the intermediate
    name, with its fallbacks. *)
Definition move_chain : M unit :=
  try_except
    (shutil.move (move_first env) bp ip)
    (λ e,
       try_except
         (logger.debug ("Error moving book: " +:+ e
                        +:+ ", will try copying instead");;
          shutil.move (move_second env) bp ip)
         (λ e,
            logger.debug ("Error copying book: " +:+ e
                          +:+ ", will try copying without permissions instead");;
            shutil.copyfile (copyfile_result env) bp ip);;
       os_remove (remove_error env) bp).

Lemma move_chain_step n x Xi w :
  Stage n (Some x) Xi w →
  ∃ res w', move_chain w = (res, w')
    ∧ match res with
      | Ok _ => Stage n None (Some x) w'
      | Raise _ => ∃ Xb' Xi', Stage n Xb' Xi' w'
      end
    ∧ (move_first env = MoveRename ∨ (∃ m, move_first env = MoveCopy m) →
       res = Ok ()).
Proof.
  intros Hw. unfold move_chain, try_except.
  destruct (move_step (move_first env) n x Xi w Hw) as (res1 & w1 & -> & H1).
  destruct (move_first env) as [|m1|e1 res1'] eqn:E1.
  - destruct H1 as [-> H1]. eexists _, _. split; [done|]. split; [done|]. done.
  - destruct H1 as [-> H1]. eexists _, _. split; [done|]. split; [done|]. done.
  - destruct H1 as [-> H1].
    set (Xi1 := match res1' with Some m => Some (take m x) | None => Xi end) in *.
    unfold mbind, M_bind. simpl.
    assert (Stage n (Some x) Xi1
              (with_log ((DEBUG, "Error moving book: " +:+ e1
                           +:+ ", will try copying instead") :: log w1) w1))
      as H1' by done.
    destruct (move_step (move_second env) n x Xi1 _ H1') as (res2 & w2 & -> & H2).
    destruct (move_second env) as [|m2|e2 res2'] eqn:E2.
    + destruct H2 as [-> H2].
      destruct (remove_bp_step n None (Some x) w2 H2) as (r3 & w3 & -> & H3 & Hr).
      destruct (Hr eq_refl) as [e3 ->].
      eexists _, _. split; [done|]. split; [eauto|].
      intros [?|[? ?]]; done.
    + destruct H2 as [-> H2].
      destruct (remove_bp_step n None (Some x) w2 H2) as (r3 & w3 & -> & H3 & Hr).
      destruct (Hr eq_refl) as [e3 ->].
      eexists _, _. split; [done|]. split; [eauto|].
      intros [?|[? ?]]; done.
    + destruct H2 as [-> H2].
      set (Xi2 := match res2' with Some m => Some (take m x) | None => Xi1 end) in *.
      simpl.
      assert (Stage n (Some x) Xi2
                (with_log ((DEBUG, "Error copying book: " +:+ e2
                    +:+ ", will try copying without permissions instead")
                   :: log w2) w2)) as H2' by done.
      destruct (copyfile_step (copyfile_result env) n x Xi2 _ H2')
        as (res3 & w3 & -> & H3).
      destruct (copyfile_result env) as [m3|e3 res3'].
      * destruct H3 as [-> H3].
        destruct (remove_bp_step n (Some x) (Some x) w3 H3)
          as (r4 & w4 & -> & H4 & _).
        eexists _, _. split; [done|]. split.
        -- destruct r4; [done|eauto].
        -- intros [?|[? ?]]; done.
      * destruct H3 as [-> H3].
        eexists _, _. split; [done|]. split; [eauto|].
        intros [?|[? ?]]; done.
Qed.

(** The public path holds [x], and got it in the last step. *)
Definition published (x : list Byte.byte) (w : World) : Prop :=
  fs w !! fp = Some x ∧ fs w !! bp = None ∧ fs w !! ip = None
  ∧ ∃ rest, fs_trace w = fs w :: rest
            ∧ Forall (λ y : FileSystem, y !! fp = f0 !! fp) rest.

Lemma rename_step x w :
  Stage 6 None (Some x) w →
  ∃ res w', os_rename (rename_error env) ip fp w = (res, w')
    ∧ match res with
      | Ok _ => Live w' ∧ clock w' = 6%nat ∧ published x w'
      | Raise _ => Stage 6 None (Some x) w'
      end
    ∧ (rename_error env = None → res = Ok ()).
Proof.
  intros Hw. pose proof Hw as (Hl & Hc & [Hall [rest Hhd]] & Hb & Hi).
  unfold os_rename, bindM, mbind, M_bind, gets. rewrite Hi.
  destruct (rename_error env); simpl; eexists _, _; (split; [done|]);
    (split; [|done]); [done|].
  split; [done|]. split; [done|]. unfold published. simpl.
  split; [apply lookup_fs_put_eq|].
  split; [by rewrite !lookup_fs_put_ne by done|].
  split; [rewrite lookup_fs_put_ne by done; apply lookup_fs_put_eq|].
  exists (fs_trace w). by rewrite Hhd in *.
Qed.

Lemma publish_unfold bi :
  publish cfg env k k bi bp ip fp
  = (logger.info ("Moving book to ingest directory: " +:+ bp +:+ " -> "
                  +:+ fp);;
     move_chain;;
     let! c := Event.is_set env k in
     if c then
       logger.info ("Download cancelled before final rename: " +:+ k);;
       unlink_if_exists env ip;;
       mret (Some None)
     else
       os_rename (rename_error env) ip fp;;
       logger.info ("Download completed successfully: " +:+ title bi);;
       mret None).
Proof. reflexivity. Qed.

Lemma publish_step bi x Xi w :
  Stage 5 (Some x) Xi w →
  ∃ res w', publish cfg env k k bi bp ip fp w = (res, w')
    ∧ match res with
      | Ok None => seen 6 = false ∧ Live w' ∧ clock w' = 6%nat
                   ∧ published x w'
      | Ok (Some r) => r = None ∧ seen 6 = true ∧ Stage 6 None None w'
      | Raise _ => ∃ n Xb' Xi', (5 ≤ n ≤ 6)%nat ∧ Stage n Xb' Xi' w'
      end
    ∧ (seen 6 = false →
       move_first env = MoveRename ∨ (∃ m, move_first env = MoveCopy m) →
       rename_error env = None → res = Ok None).
Proof.
  intros Hw. rewrite publish_unfold. unfold bindM, mbind, M_bind. simpl.
  match goal with |- context [move_chain ?w0] =>
    assert (Stage 5 (Some x) Xi w0) as Hw0 by done;
    destruct (move_chain_step 5 x Xi w0 Hw0) as (r1 & w1 & -> & H1 & Hhappy1)
  end.
  destruct r1 as [[]|e1].
  2:{ destruct H1 as (Xb' & Xi' & H1). eexists _, _. split; [done|].
      split; [exists 5%nat, Xb', Xi'; split; [lia|done]|].
      intros _ Hm _. by specialize (Hhappy1 Hm). }
  destruct (is_set_step 5 None (Some x) w1 H1) as (w2 & -> & H2 & _ & _).
  destruct (seen 6) eqn:Hs6.
  - simpl.
    match goal with |- context [unlink_if_exists env ip ?w0] =>
      assert (Stage 6 None (Some x) w0) as Hw2 by done;
      destruct (unlink_ip_step 6 None (Some x) w0 Hw2) as (r3 & w3 & -> & H3)
    end.
    destruct r3 as [[]|e3]; eexists _, _; (split; [done|]); (split; [|done]).
    + done.
    + exists 6%nat, None, (Some x). split; [lia|done].
  - destruct (rename_step x w2 H2) as (r3 & w3 & -> & H3 & Hhappy3).
    destruct r3 as [[]|e3]; simpl; eexists _, _; (split; [done|]).
    + split; [|done]. destruct H3 as (Hl & Hc & Hp). done.
    + split; [exists 6%nat, None, (Some x); split; [lia|done]|].
      intros _ _ Hr. by specialize (Hhappy3 Hr).
Qed.

(** Nothing is cancelled, the fetch succeeds, the script (when one is
    configured) runs, a staged file is there, the first move and the
    rename succeed. *)
Definition smooth (X0 : option (list Byte.byte)) : Prop :=
  seen 6 = false ∧ fetch_result env = FetchReturn true
  ∧ (CUSTOM_SCRIPT cfg ≠ "" → ∃ st, script_result env = ScriptRan st)
  ∧ is_Some (staged_file cfg env X0)
  ∧ (move_first env = MoveRename ∨ ∃ m, move_first env = MoveCopy m)
  ∧ rename_error env = None.

(** The script is reached and cannot be launched. *)
Definition script_fails (e : string) : Prop :=
  seen 5 = false ∧ fetch_result env = FetchReturn true
  ∧ CUSTOM_SCRIPT cfg ≠ "" ∧ script_result env = ScriptRaise e.

Definition attempt_post (X0 I0 : option (list Byte.byte)) (w : World)
    (res : Result (option string)) (w' : World) : Prop :=
  match res with
  | Ok (Some p) =>
      p = fp
      ∧ ((staged_file cfg env X0 = None ∧ Stage 5 None I0 w')
         ∨ (∃ x, staged_file cfg env X0 = Some x ∧ seen 6 = false
                 ∧ clock w' = 6%nat ∧ published x w'))
  | Ok None =>
      ∃ n Xb Xi, Stage n Xb Xi w' ∧ seen n = true
        ∧ (seen 2 = false → Xb = None ∧ (Xi = None ∨ Xi = I0))
        ∧ (seen 2 = true → status_trace w' = status_trace w)
  | Raise e => ∃ n Xb Xi, Stage n Xb Xi w'
  end.

Local Ltac clock_le H :=
  let Hc := fresh in
  pose proof H as (_ & Hc & _); simpl; rewrite Hc; lia.

Local Ltac seen_contra :=
  match goal with
  | H1 : seen ?n = true, H2 : seen ?m = false |- _ =>
      exfalso;
      assert (seen m = true) by (apply (seen_mono n m); [lia | exact H1]);
      congruence
  end.

(** The statements after the script: the test for the staged file, the
    publication, the returned path. *)
Definition after_script (bi : BookInfo) : M (option string) := λ w,
  let (r1, w1) :=
    (if bool_decide (is_Some (fs w !! bp))
     then publish cfg env k k bi bp ip fp
     else mret None) w in
  match r1 with
  | Ok a0 =>
      match a0 return M (option string) with
      | Some r2 => mret r2
      | None => mret (Some fp)
      end w1
  | Raise e => (Raise e, w1)
  end.

Lemma after_script_step bi Xs I0 w :
  Stage 5 Xs I0 w →
  ∃ res w', after_script bi w = (res, w')
    ∧ Live w' ∧ (clock w' ≤ 6)%nat
    ∧ match res with
      | Ok (Some p) =>
          p = fp
          ∧ ((Xs = None ∧ Stage 5 None I0 w')
             ∨ (∃ x, Xs = Some x ∧ seen 6 = false
                     ∧ clock w' = 6%nat ∧ published x w'))
      | Ok None => Stage 6 None None w' ∧ seen 6 = true
      | Raise _ => ∃ n Xb Xi, Stage n Xb Xi w'
      end
    ∧ (seen 6 = false → is_Some Xs →
       move_first env = MoveRename ∨ (∃ m, move_first env = MoveCopy m) →
       rename_error env = None → res = Ok (Some fp)).
Proof.
  intros Hw. pose proof Hw as (Hl & Hc & Hq & Hb & Hi).
  unfold after_script. rewrite Hb. destruct Xs as [x|]; simpl.
  - destruct (publish_step bi x I0 w Hw) as (r1 & w1 & -> & H1 & Hhappy).
    destruct r1 as [[[r2|]|]|e1].
    + by destruct H1 as ([=] & _).
    + destruct H1 as (_ & Hs6 & H1). eexists _, _. split; [done|].
      split; [apply H1|]. split; [clock_le H1|]. split; [done|].
      intros; seen_contra.
    + destruct H1 as (Hs6 & Hl1 & Hc1 & Hp). eexists _, _. split; [done|].
      split; [done|]. split; [simpl; lia|]. split; [|done].
      split; [done|]. right. by exists x.
    + destruct H1 as (n & Xb' & Xi' & Hn & H1). eexists _, _. split; [done|].
      split; [apply H1|]. split; [clock_le H1|]. split; [eauto|].
      intros Hs6 _ Hm Hr. by specialize (Hhappy Hs6 Hm Hr).
  - eexists _, _. split; [done|]. split; [done|]. split; [lia|].
    split; [|done]. split; [done|]. by left.
Qed.

Lemma attempt_spec X0 I0 w :
  Stage 0 X0 I0 w →
  ∃ res w', download_attempt cfg env k k w = (res, w')
    ∧ Live w' ∧ (clock w' ≤ 6)%nat
    ∧ attempt_post X0 I0 w res w'
    ∧ (seen 2 = true → res = Ok None)
    ∧ (smooth X0 → res = Ok (Some fp))
    ∧ (∀ e, script_fails e → res = Raise e).
Proof.
  intros Hw. unfold attempt_post, smooth, script_fails.
  unfold download_attempt, bindM, mbind, M_bind.
  destruct (is_set_step 0 X0 I0 w Hw) as (w1 & -> & H1 & T1 & _).
  destruct (seen 1) eqn:Hs1.
  { simpl. eexists _, _. split; [done|].
    split; [apply H1|]. split; [clock_le H1|].
    split; [|split; [done|split]].
    - exists 1%nat, X0, I0. split; [done|]. split; [done|].
      split; [intros; seen_contra | done].
    - intros (? & _). seen_contra.
    - intros e (? & _). seen_contra. }
  destruct (found_step 1 X0 I0 w1 H1) as (bi & Hfound & Hbp & Hfp & Hti).
  unfold gets at 1. rewrite Hfound. simpl. rewrite Hbp, Hfp.
  match goal with |- context [Event.is_set env k ?w0] =>
    assert (Stage 1 X0 I0 w0) as H1' by done;
    destruct (is_set_step 1 X0 I0 w0 H1') as (w2 & -> & H2 & T2 & _)
  end.
  destruct (seen 2) eqn:Hs2.
  { simpl. eexists _, _. split; [done|].
    split; [apply H2|]. split; [clock_le H2|].
    split; [|split; [done|split]].
    - exists 2%nat, X0, I0. split; [done|]. split; [done|].
      split; [done|]. intros _. simpl. by rewrite T2.
    - intros (? & _). seen_contra.
    - intros e (? & _). seen_contra. }
  destruct (download_book_step 2 X0 I0 w2 H2) as (w3 & -> & H3).
  set (Xf := last_state (fetch_file_states env) X0) in *.
  destruct (fetch_result env) as [success|ef] eqn:Hfetch.
  2:{ eexists _, _. split; [done|].
      split; [apply H3|]. split; [clock_le H3|].
      split; [by exists 2%nat, Xf, I0|]. split; [done|].
      split; [by intros (_ & ? & _) | by intros e (_ & ? & _)]. }
  unfold Event.wait.
  destruct (is_set_step 2 Xf I0 w3 H3) as (w4 & -> & H4 & _ & _).
  destruct (is_set_step 3 Xf I0 w4 H4) as (w5 & -> & H5 & _ & _).
  destruct (seen 4) eqn:Hs4.
  { simpl.
    match goal with |- context [unlink_if_exists env bp ?w0] =>
      assert (Stage 4 Xf I0 w0) as H5' by done;
      destruct (unlink_bp_step 4 Xf I0 w0 H5') as (r6 & w6 & -> & H6)
    end.
    destruct r6 as [[]|e6]; eexists _, _; (split; [done|]);
      (split; [apply H6|]); (split; [clock_le H6|]);
      (split; [|split; [done|split]]).
    - exists 4%nat, None, I0. split; [done|]. split; [done|]. split; [auto|done].
    - intros (? & _). seen_contra.
    - intros e (? & _). seen_contra.
    - by exists 4%nat, Xf, I0.
    - intros (? & _). seen_contra.
    - intros e (? & _). seen_contra. }
  destruct success; simpl.
  2:{ eexists _, _. split; [done|].
      split; [apply H5|]. split; [clock_le H5|].
      split; [by exists 4%nat, Xf, I0|]. split; [done|].
      split; [by intros (_ & ? & _) | by intros e (_ & ? & _)]. }
  destruct (is_set_step 4 Xf I0 w5 H5) as (w6 & -> & H6 & _ & _).
  destruct (seen 5) eqn:Hs5.
  { simpl.
    match goal with |- context [unlink_if_exists env bp ?w0] =>
      assert (Stage 5 Xf I0 w0) as H6' by done;
      destruct (unlink_bp_step 5 Xf I0 w0 H6') as (r7 & w7 & -> & H7)
    end.
    destruct r7 as [[]|e7]; eexists _, _; (split; [done|]);
      (split; [apply H7|]); (split; [clock_le H7|]);
      (split; [|split; [done|split]]).
    - exists 5%nat, None, I0. split; [done|]. split; [done|]. split; [auto|done].
    - intros (? & _). seen_contra.
    - by intros e (? & _).
    - by exists 5%nat, Xf, I0.
    - intros (? & _). seen_contra.
    - by intros e (? & _). }
  assert (∀ Xs w7,
    Stage 5 Xs I0 w7 → staged_file cfg env X0 = Xs →
    ∃ res w', after_script bi w7 = (res, w')
      ∧ Live w' ∧ (clock w' ≤ 6)%nat
      ∧ match res with
        | Ok (Some p) =>
            p = fp
            ∧ ((staged_file cfg env X0 = None ∧ Stage 5 None I0 w')
               ∨ (∃ x, staged_file cfg env X0 = Some x ∧ seen 6 = false
                       ∧ clock w' = 6%nat ∧ published x w'))
        | Ok None =>
            ∃ n Xb Xi, Stage n Xb Xi w' ∧ seen n = true
              ∧ (false = false → Xb = None ∧ (Xi = None ∨ Xi = I0))
              ∧ (false = true → status_trace w' = status_trace w)
        | Raise _ => ∃ n Xb Xi, Stage n Xb Xi w'
        end
      ∧ (seen 6 = false → is_Some (staged_file cfg env X0) →
         move_first env = MoveRename ∨ (∃ m, move_first env = MoveCopy m) →
         rename_error env = None → res = Ok (Some fp))) as Htail.
  { intros Xs w7 H7 ->.
    destruct (after_script_step bi _ I0 w7 H7)
      as (res & w' & E & Hl' & Hc' & Hpost & Hhappy).
    exists res, w'. split; [exact E|]. split; [done|]. split; [done|].
    split; [|done]. destruct res as [[p|]|e]; [done| |done].
    destruct Hpost as [Hst Hs6]. exists 6%nat, None, None.
    split; [done|]. split; [done|]. split; [auto|done]. }
  destruct (bool_decide (CUSTOM_SCRIPT cfg ≠ "")) eqn:Hcs.
  - apply bool_decide_eq_true in Hcs.
    match goal with |- context [subprocess.run env bp ?w0] =>
      assert (Stage 5 Xf I0 w0) as H6' by done;
      destruct (run_script_step 5 Xf I0 w0 H6') as (w7 & -> & H7)
    end.
    destruct (script_result env) as [e|states] eqn:Hsr.
    + eexists _, _. split; [done|]. split; [apply H7|].
      split; [clock_le H7|]. split; [by exists 5%nat, Xf, I0|].
      split; [done|]. split.
      * intros (_ & _ & Hran & _). by destruct (Hran Hcs).
      * by intros e' (_ & _ & _ & [= ->]).
    + assert (staged_file cfg env X0 = last_state states Xf) as HXs.
      { unfold staged_file. rewrite bool_decide_eq_true_2 by done.
        by rewrite Hsr. }
      destruct (Htail _ w7 H7 HXs) as (res & w' & E & Hl' & Hc' & Hpost & Hhappy).
      exists res, w'. split; [exact E|]. split; [done|]. split; [done|].
      split; [done|]. split; [done|]. split.
      * intros (Hs6 & _ & _ & HX & Hm & Hr). by apply Hhappy.
      * by intros e' (_ & _ & _ & ?).
  - apply bool_decide_eq_false in Hcs.
    assert (staged_file cfg env X0 = Xf) as HXs.
    { unfold staged_file. by rewrite bool_decide_eq_false_2 by done. }
    destruct (Htail _ w6 H6 HXs) as (res & w' & E & Hl' & Hc' & Hpost & Hhappy).
    exists res, w'. split; [exact E|]. split; [done|]. split; [done|].
    split; [done|]. split; [done|]. split.
    * intros (Hs6 & _ & _ & HX & Hm & Hr). by apply Hhappy.
    * by intros e' (_ & _ & ? & _).
Qed.
End attempt.

(** ** A whole run *)

Lemma seen_none env r n :
  cancel_tick env = None → cancelSignal r = false → seen env r n = false.
Proof.
  intros Ht Hs. unfold seen, due. rewrite Ht, Hs. by destruct n.
Qed.


Lemma conclude_frame k dp c w :
  fs (conclude k dp c w) = fs w ∧ fs_trace (conclude k dp c w) = fs_trace w
  ∧ clock (conclude k dp c w) = clock w.
Proof. unfold conclude. destruct c; [done|]. by destruct (truthy dp). Qed.

Lemma Stage_started cfg env k q f r :
  jobs q !! k = Some r →
  Stage cfg env k r f 0 (f !! staging_path cfg k (info r))
    (f !! intermediate_path_of cfg k) (started_world k q f).
Proof.
  intros Hr. split; [split|].
  - by apply running_started.
  - unfold started_world, book_queue.is_set, seen. simpl.
    rewrite lookup_alter_eq, Hr. simpl. by rewrite orb_false_r.
  - split; [done|]. split; [|done]. split; [|by exists []].
    simpl. by constructor.
Qed.

Section run.
Context (cfg : Config) (env : Env) (k : string) (q : BookQueue).
Context (f : FileSystem) (r : JobRecord).
Context (Hr : jobs q !! k = Some r).

Let bp := staging_path cfg k (info r).
Let ip := intermediate_path_of cfg k.
Let fp := final_path_of cfg k (info r).

Context (Hbf : bp ≠ fp) (Hif : ip ≠ fp) (Hbi : bp ≠ ip).

Lemma run_spec :
  ∃ res wa w3,
    download_attempt cfg env k k (started_world k q f) = (res, wa)
    ∧ (clock wa ≤ 6)%nat
    ∧ attempt_post cfg env k r f (f !! bp) (f !! ip) (started_world k q f)
        res wa
    ∧ (seen env r 2 = true → res = Ok None)
    ∧ (smooth cfg env r (f !! bp) → res = Ok (Some fp))
    ∧ (∀ e, script_fails cfg env r e → res = Raise e)
    ∧ Live env k r w3
    ∧ clock w3 = S (match res with
                    | Ok _ => clock wa
                    | Raise _ => S (clock wa)
                    end)
    ∧ fs w3 = fs wa ∧ fs_trace w3 = fs_trace wa
    ∧ status_trace w3 = status_trace wa
    ∧ match res with
      | Ok _ => True
      | Raise e =>
          (if seen env r (S (clock wa))
           then (INFO, "Download cancelled during error handling: " +:+ k)
           else (ERROR_TRACE, "Error downloading book: " +:+ e)) ∈ log w3
      end
    ∧ run_worker cfg env k q f
      = conclude k (returned res) (seen env r (clock w3)) w3.
Proof.
  destruct (attempt_spec cfg env k r f Hbf Hif Hbi _ _ _
              (Stage_started cfg env k q f r Hr))
    as (res & wa & EA & Hla & Hca & Hpost & Hs2 & Hsm & Hsf).
  assert (∃ w2, _download_book_with_cancellation cfg env k k
                  (started_world k q f) = (Ok (returned res), w2)
                ∧ Live env k r w2
                ∧ clock w2 = match res with
                             | Ok _ => clock wa
                             | Raise _ => S (clock wa)
                             end
                ∧ fs w2 = fs wa ∧ fs_trace w2 = fs_trace wa
                ∧ status_trace w2 = status_trace wa
                ∧ match res with
                  | Ok _ => True
                  | Raise e =>
                      (if seen env r (S (clock wa))
                       then (INFO, "Download cancelled during error handling: "
                                     +:+ k)
                       else (ERROR_TRACE, "Error downloading book: " +:+ e))
                      ∈ log w2
                  end)
    as (w2 & ED & Hl2 & Hc2 & Hfs2 & Hft2 & Hst2 & Hlog2).
  { unfold _download_book_with_cancellation, try_except. rewrite EA.
    destruct res as [dp|e]; [by exists wa|].
    unfold download_handler, bindM, mbind, M_bind.
    destruct (is_set_live env k r wa Hla)
      as (w2 & -> & Hl2 & Hc2 & Hfs2 & Hft2 & Hst2 & Hlog2).
    destruct (seen env r (S (clock wa))); simpl; eexists; (split; [done|]);
      (split; [done|]); (split; [done|]); (split; [done|]);
      (split; [done|]); (split; [done|]); by left. }
  destruct (is_set_live env k r w2 Hl2)
    as (w3 & ES & Hl3 & Hc3 & Hfs3 & Hft3 & Hst3 & Hlog3).
  exists res, wa, w3. split; [done|]. split; [done|]. split; [done|].
  split; [done|]. split; [done|]. split; [done|]. split; [done|].
  split; [by rewrite Hc3, Hc2|]. split; [by rewrite Hfs3|].
  split; [by rewrite Hft3|]. split; [by rewrite Hst3|].
  split; [destruct res; [done|]; by rewrite Hlog3|].
  destruct (process_single_download_run cfg env k q f)
    as (dp' & w2' & w3' & HD & HS & Hrun).
  rewrite ED in HD. injection HD as <- <-. rewrite ES in HS.
  injection HS as Hsig <-. unfold run_worker. rewrite Hrun. simpl.
  destruct Hl3 as [_ Hsig3]. by rewrite Hsig3.
Qed.
End run.

(** ** Publication *)

Lemma quiet_final cfg k r f w :
  quiet cfg k r f w →
  never_written (final_path_of cfg k (info r)) f w
  ∧ fs w !! final_path_of cfg k (info r) = f !! final_path_of cfg k (info r).
Proof.
  intros [Hall [rest Hhd]]. split; [done|].
  rewrite Hhd in Hall. by inversion Hall.
Qed.




Lemma truthy_final_path cfg k bi : truthy (Some (final_path_of cfg k bi)) = true.
Proof.
  unfold truthy, final_path_of, path_join. apply bool_decide_eq_true.
  destruct (INGEST_DIR cfg); done.
Qed.




(** ** Cancellation *)




(** ** The post-processing script *)




(** ** Entering [DOWNLOADING] *)





(** * The coordinator, its workers and their callers *)

(** ** What the store operations do to a status and a download path *)

Section store_effects.
Implicit Types (q : BookQueue) (k b : string).

Lemma path_update_status k b s q :
  path_of k (book_queue.update_status b s q) = path_of k q.
Proof.
  unfold path_of, book_queue.update_status; simpl.
  rewrite lookup_alter. case_decide; subst; [|done].
  by destruct (jobs q !! k).
Qed.

Lemma path_update_progress k b v q :
  path_of k (book_queue.update_progress b v q) = path_of k q.
Proof.
  unfold path_of, book_queue.update_progress; simpl.
  rewrite lookup_alter. case_decide; subst; [|done].
  by destruct (jobs q !! k).
Qed.

Lemma path_update_download_progress k b v q :
  path_of k (update_download_progress b v q) = path_of k q.
Proof.
  unfold update_download_progress. rewrite path_update_progress.
  case_decide; [apply path_update_status | done].
Qed.

Lemma path_update_download_path k b p q :
  path_of k (book_queue.update_download_path b p q)
  = if decide (k = b) then (λ _, Some p) <$> path_of k q else path_of k q.
Proof.
  unfold path_of, book_queue.update_download_path; simpl.
  rewrite lookup_alter. destruct (decide (k = b)) as [->|Hne].
  - rewrite decide_True by done. by destruct (jobs q !! b).
  - by rewrite decide_False by done.
Qed.

(** [add]: a no-op on a queued or active job, a fresh [QUEUED] record
    without path otherwise. *)
Lemma add_effect b info p q k :
  (status_of k (book_queue.add b info p q) = status_of k q
   ∧ path_of k (book_queue.add b info p q) = path_of k q)
  ∨ (k = b ∧ ¬ active_in q k
     ∧ status_of k (book_queue.add b info p q) = Some QUEUED
     ∧ path_of k (book_queue.add b info p q) = Some None).
Proof.
  unfold book_queue.add, status_of, path_of, active_in, status_of.
  destruct (jobs q !! b) as [r|] eqn:E.
  - destruct (is_queued (status r) || is_active (status r)) eqn:Eq;
      [by left|].
    destruct (decide (k = b)) as [->|Hne].
    + right. simpl. rewrite lookup_insert_eq, E. simpl.
      split; [done|]. split; [|done]. intros (s & [= <-] & Ha).
      rewrite Ha, orb_true_r in Eq. done.
    + left. simpl. by rewrite lookup_insert_ne.
  - destruct (decide (k = b)) as [->|Hne].
    + right. simpl. rewrite lookup_insert_eq, E. simpl.
      split; [done|]. split; [|done]. by intros (s & [=] & _).
    + left. simpl. by rewrite lookup_insert_ne.
Qed.

(** [cancel_download]: only a [QUEUED] status changes, to [CANCELLED]. *)
Lemma cancel_download_effect b q k :
  path_of k (book_queue.cancel_download b q).2 = path_of k q
  ∧ (status_of k (book_queue.cancel_download b q).2 = status_of k q
     ∨ (status_of k q = Some QUEUED
        ∧ status_of k (book_queue.cancel_download b q).2 = Some CANCELLED)).
Proof.
  unfold book_queue.cancel_download, status_of, path_of.
  destruct (jobs q !! b) as [r|] eqn:E; [|by split; [|left]].
  destruct (decide (k = b)) as [->|Hne].
  - rewrite E. destruct (status r) eqn:Es; simpl;
      rewrite ?lookup_insert_eq, ?E; simpl; rewrite ?Es; auto.
  - destruct (status r); simpl; rewrite ?lookup_insert_ne by done; auto.
Qed.

Lemma set_priority_effect b p q k :
  status_of k (book_queue.set_priority b p q).2 = status_of k q
  ∧ path_of k (book_queue.set_priority b p q).2 = path_of k q.
Proof.
  unfold book_queue.set_priority, status_of, path_of.
  destruct (jobs q !! b) as [r|] eqn:E; [|done].
  destruct (is_queued (status r)); [|done]. simpl.
  destruct (decide (k = b)) as [->|Hne].
  - by rewrite lookup_insert_eq, E.
  - by rewrite lookup_insert_ne.
Qed.

(** [clear_completed]: the terminal records go, the others stay. *)
Lemma clear_completed_effect q k :
  (status_of k (book_queue.clear_completed q).2 = status_of k q
   ∧ path_of k (book_queue.clear_completed q).2 = path_of k q)
  ∨ (status_of k (book_queue.clear_completed q).2 = None
     ∧ path_of k (book_queue.clear_completed q).2 = None
     ∧ ¬ active_in q k).
Proof.
  unfold book_queue.clear_completed, status_of, path_of, active_in, status_of.
  simpl. destruct (jobs q !! k) as [r|] eqn:E.
  - destruct (is_terminal (status r)) eqn:Et.
    + right. rewrite map_lookup_filter_None_2.
      * split; [done|]. split; [done|]. intros (s & [= <-] & Ha).
        by destruct (status r).
      * right. intros r' Hr'. simpl. rewrite E in Hr'. injection Hr' as <-.
        by rewrite Et.
    + left. by rewrite (map_lookup_filter_Some_2 _ _ k r).
  - left. rewrite map_lookup_filter_None_2, ?E; [done|by left].
Qed.

(** [get_book_data]: the status stays, the path stays or is cleared. *)
Lemma get_book_data_effect f e b q k :
  status_of k (get_book_data f e b q).2 = status_of k q
  ∧ (path_of k (get_book_data f e b q).2 = path_of k q
     ∨ path_of k (get_book_data f e b q).2 = Some None).
Proof.
  unfold get_book_data, book_queue._book_data, status_of, path_of.
  destruct (jobs q !! b) as [r|] eqn:E; simpl; [|auto].
  assert (∀ q', q' = book_queue.with_jobs
                       (alter (set_info (set_download_path None)) b (jobs q)) q →
            status <$> jobs q' !! k = status <$> jobs q !! k
            ∧ ((λ r, download_path (info r)) <$> jobs q' !! k
               = (λ r, download_path (info r)) <$> jobs q !! k
               ∨ (λ r, download_path (info r)) <$> jobs q' !! k = Some None))
    as Hfail.
  { intros q' ->. simpl. rewrite lookup_alter.
    destruct (decide (b = k)) as [->|]; [|auto]. rewrite E. simpl. auto. }
  destruct (download_path (info r)) as [path|]; [|by apply Hfail].
  destruct (f !! path); [|by apply Hfail].
  destruct e; [by apply Hfail|]. simpl. auto.
Qed.

(** [get_next]: the record handed out goes from [QUEUED] to
    [PROCESSING]; nothing else changes. *)
Lemma get_next_effect q x e q' k :
  book_queue.get_next q = (Some (x, e), q') →
  status_of x q = Some QUEUED
  ∧ path_of k q' = path_of k q
  ∧ status_of k q'
    = if decide (k = x) then Some PROCESSING else status_of k q.
Proof.
  intros H. apply get_next_Some in H as (_ & r & [Hr Hs] & _ & Hjobs).
  unfold status_of, path_of. rewrite Hjobs, Hr. simpl. rewrite Hs.
  split; [done|]. destruct (decide (k = x)) as [->|Hne].
  - by rewrite lookup_insert_eq, Hr.
  - by rewrite lookup_insert_ne.
Qed.
End store_effects.

(** ** The invariant of the process *)

Lemma Inv_init cfg : Inv cfg init_system.
Proof.
  split; simpl.
  - rewrite map_size_empty. lia.
  - by intros k [flag ?].
  - intros. apply lookup_empty.
  - by intros k (s & ? & _).
  - intros k [(i & fu & H & _)|[flag ?]]; [|done].
    simpl in H. by rewrite lookup_empty in H.
  - intros i j fu fu' H. by rewrite lookup_empty in H.
  - by intros k [flag ?].
  - by intros k p.
Qed.

(** A call from outside the coordinator and the workers: no status
    becomes or ceases to be active, and a path is set only where one
    was, on a job that stays [AVAILABLE] if it was. *)
Lemma Inv_external cfg s q' :
  Inv cfg s →
  (∀ k, active_in q' k ↔ active_in (store s) k) →
  (∀ k p, path_of k q' = Some (Some p) →
     ∃ p0, path_of k (store s) = Some (Some p0)
           ∧ (status_of k (store s) = Some AVAILABLE →
              status_of k q' = Some AVAILABLE)) →
  Inv cfg (with_store q' s).
Proof.
  intros [H1 H2 H3 H4 H5 H6 H7 H8] Hact Hpath. split; simpl; try done.
  - intros k Hk. apply Hact in Hk. by apply H4.
  - intros k Hk. apply Hact. by apply H5.
  - intros k p Hp. destruct (Hpath k p Hp) as (p0 & Hp0 & Hav).
    destruct (H8 k p0 Hp0) as [Ha|Hw]; [left; by apply Hav | by right].
Qed.

Lemma active_in_status q q' k :
  status_of k q' = status_of k q → active_in q' k ↔ active_in q k.
Proof. unfold active_in. by intros ->. Qed.

Lemma Inv_coord cfg s c :
  Inv cfg s → (∀ k, ¬ holds s k) → (∀ k flag, c ≠ Holding k flag) →
  Inv cfg (with_coord c s).
Proof.
  intros [H1 H2 H3 H4 H5 H6 H7 H8] Hno Hc. split; simpl; try done.
  - intros k [flag Hk]. simpl in Hk. by destruct (Hc k flag).
  - intros k Hk. destruct (H4 k Hk) as [Hw|Hh]; [by left|by destruct (Hno k)].
  - intros k [Hw|[flag Hk]]; [apply H5; by left|].
    simpl in Hk. by destruct (Hc k flag).
  - intros k [flag Hk]. simpl in Hk. by destruct (Hc k flag).
Qed.

(** A step of a worker whose future stays outstanding. *)
Lemma Inv_worker_live cfg s i fu to (g : BookQueue → BookQueue) :
  Inv cfg s →
  active_futures s !! i = Some fu → live fu →
  to ≠ Finished → fut_phase fu ≠ PathWritten →
  (∀ k, k ≠ fut_book_id fu →
        status_of k (g (store s)) = status_of k (store s)
        ∧ path_of k (g (store s)) = path_of k (store s)) →
  (active_in (store s) (fut_book_id fu) →
   active_in (g (store s)) (fut_book_id fu)) →
  (to = PathWritten
   ∨ path_of (fut_book_id fu) (g (store s))
     = path_of (fut_book_id fu) (store s)) →
  Inv cfg {| store := g (store s);
             active_futures := <[i := with_phase to fu]> (active_futures s);
             next_future := next_future s; coord := coord s |}.
Proof.
  intros [H1 H2 H3 H4 H5 H6 H7 H8] Hi Hlive Hto Hfrom Hother Hact Hpath.
  set (x := fut_book_id fu) in *.
  assert (∀ k, worked s k ↔
    worked {| store := g (store s);
              active_futures := <[i := with_phase to fu]> (active_futures s);
              next_future := next_future s; coord := coord s |} k) as Hworked.
  { intros k. unfold worked. simpl. split.
    - intros (j & fu' & Hj & Hk & Hl). destruct (decide (i = j)) as [<-|Hne].
      + exists i, (with_phase to fu). rewrite lookup_insert_eq.
        rewrite Hi in Hj. injection Hj as <-. done.
      + exists j, fu'. by rewrite lookup_insert_ne.
    - intros (j & fu' & Hj & Hk & Hl). destruct (decide (i = j)) as [<-|Hne].
      + rewrite lookup_insert_eq in Hj. injection Hj as <-. by exists i, fu.
      + rewrite lookup_insert_ne in Hj by done. by exists j, fu'. }
  assert (active_in (store s) x) as Hx by (apply H5; left; by exists i, fu).
  assert (∀ k, active_in (g (store s)) k ↔ active_in (store s) k) as Hactive.
  { intros k. destruct (decide (k = x)) as [->|Hne].
    - split; [done|by apply Hact].
    - apply active_in_status. by apply Hother. }
  split; simpl.
  - by rewrite map_size_insert_Some.
  - intros k Hk. rewrite map_size_insert_Some by done. by apply (H2 k).
  - intros j Hj. destruct (decide (i = j)) as [<-|Hne].
    + rewrite (H3 i Hj) in Hi. done.
    + rewrite lookup_insert_ne by done. by apply H3.
  - intros k Hk. apply Hactive, H4 in Hk as [Hw|Hh]; [left; by apply Hworked|by right].
  - intros k [Hw|Hh]; apply Hactive, H5; [left; by apply Hworked | by right].
  - intros j1 j2 fu1 fu2 Hj1 Hj2 Hl1 Hl2 Hid.
    assert (∀ j fu', <[i:=with_phase to fu]> (active_futures s) !! j = Some fu' →
              live fu' →
              ∃ fu0, active_futures s !! j = Some fu0 ∧ live fu0
                     ∧ fut_book_id fu0 = fut_book_id fu') as Hback.
    { intros j fu' Hj Hl. destruct (decide (i = j)) as [<-|Hne].
      - rewrite lookup_insert_eq in Hj. injection Hj as <-. by exists fu.
      - rewrite lookup_insert_ne in Hj by done. by exists fu'. }
    destruct (Hback j1 fu1 Hj1 Hl1) as (g1 & Hg1 & Hlg1 & He1).
    destruct (Hback j2 fu2 Hj2 Hl2) as (g2 & Hg2 & Hlg2 & He2).
    apply (H6 j1 j2 g1 g2 Hg1 Hg2 Hlg1 Hlg2).
    rewrite He1, He2. done.
  - intros k Hh Hw. apply Hworked in Hw. by apply (H7 k).
  - intros k p Hp. destruct (decide (k = x)) as [->|Hne].
    + destruct Hpath as [->|Hsame].
      * right. exists i, (with_phase PathWritten fu). simpl.
        by rewrite lookup_insert_eq.
      * rewrite Hsame in Hp. destruct (H8 x p Hp) as [Hav|(j & fu' & Hj & Hk & Hph)].
        -- destruct Hx as (st & Hst & Ha). rewrite Hav in Hst.
           injection Hst as <-. done.
        -- right. exists j, fu'. simpl. rewrite lookup_insert_ne; [done|].
           intros <-. rewrite Hi in Hj. injection Hj as <-. done.
    + destruct (Hother k Hne) as [Hs Hq]. rewrite Hq in Hp. rewrite Hs.
      destruct (H8 k p Hp) as [Hav|(j & fu' & Hj & Hk & Hph)]; [by left|].
      right. exists j, fu'. simpl. rewrite lookup_insert_ne; [done|].
      intros <-. rewrite Hi in Hj. injection Hj as <-. done.
Qed.

(** A step of a worker that completes its future. *)
Lemma Inv_worker_finish cfg s i fu (g : BookQueue → BookQueue) :
  Inv cfg s →
  active_futures s !! i = Some fu → live fu →
  (∀ k, k ≠ fut_book_id fu →
        status_of k (g (store s)) = status_of k (store s)
        ∧ path_of k (g (store s)) = path_of k (store s)) →
  ¬ active_in (g (store s)) (fut_book_id fu) →
  path_of (fut_book_id fu) (g (store s)) = path_of (fut_book_id fu) (store s) →
  (fut_phase fu = PathWritten →
   status_of (fut_book_id fu) (g (store s)) = Some AVAILABLE) →
  Inv cfg {| store := g (store s);
             active_futures := <[i := with_phase Finished fu]> (active_futures s);
             next_future := next_future s; coord := coord s |}.
Proof.
  intros [H1 H2 H3 H4 H5 H6 H7 H8] Hi Hlive Hother Hterm Hpath Hav.
  set (x := fut_book_id fu) in *.
  assert (active_in (store s) x) as Hx by (apply H5; left; by exists i, fu).
  assert (¬ holds s x) as Hnh.
  { intros Hh. apply (H7 x Hh). by exists i, fu. }
  assert (∀ j fu', <[i:=with_phase Finished fu]> (active_futures s) !! j = Some fu' →
            live fu' → i ≠ j ∧ active_futures s !! j = Some fu') as Hback.
  { intros j fu' Hj Hl. destruct (decide (i = j)) as [<-|Hne].
    - rewrite lookup_insert_eq in Hj. injection Hj as <-. by destruct Hl.
    - rewrite lookup_insert_ne in Hj by done. done. }
  assert (∀ k, worked {| store := g (store s);
              active_futures := <[i := with_phase Finished fu]> (active_futures s);
              next_future := next_future s; coord := coord s |} k
            ↔ worked s k ∧ k ≠ x) as Hworked.
  { intros k. unfold worked. simpl. split.
    - intros (j & fu' & Hj & Hk & Hl). destruct (Hback j fu' Hj Hl) as [Hne Hj'].
      split; [by exists j, fu'|]. intros ->. apply Hne.
      apply (H6 i j fu fu' Hi Hj' Hlive Hl). done.
    - intros [(j & fu' & Hj & Hk & Hl) Hne]. exists j, fu'.
      rewrite lookup_insert_ne; [done|]. intros <-.
      rewrite Hi in Hj. injection Hj as <-. done. }
  split; simpl.
  - by rewrite map_size_insert_Some.
  - intros k Hk. rewrite map_size_insert_Some by done. by apply (H2 k).
  - intros j Hj. destruct (decide (i = j)) as [<-|Hne].
    + rewrite (H3 i Hj) in Hi. done.
    + rewrite lookup_insert_ne by done. by apply H3.
  - intros k Hk. destruct (decide (k = x)) as [->|Hne]; [done|].
    apply (active_in_status (store s)) in Hk; [|by apply Hother].
    destruct (H4 k Hk) as [Hw|Hh]; [left; by apply Hworked | by right].
  - intros k Hk.
    assert (k ≠ x) as Hne.
    { destruct Hk as [Hw|Hh]; [by apply Hworked in Hw as [_ ?]|by intros ->]. }
    apply (active_in_status (store s)); [by apply Hother|].
    apply H5. destruct Hk as [Hw|Hh]; [left; by apply Hworked in Hw as [? _]|by right].
  - intros j1 j2 fu1 fu2 Hj1 Hj2 Hl1 Hl2 Hid.
    destruct (Hback j1 fu1 Hj1 Hl1) as [_ Hg1].
    destruct (Hback j2 fu2 Hj2 Hl2) as [_ Hg2].
    by apply (H6 j1 j2 fu1 fu2).
  - intros k Hh Hw. apply Hworked in Hw as [Hw _]. by apply (H7 k).
  - intros k p Hp. destruct (decide (k = x)) as [->|Hne].
    + rewrite Hpath in Hp. destruct (H8 x p Hp) as [Ha|(j & fu' & Hj & Hk & Hph)].
      * destruct Hx as (st & Hst & Ha'). rewrite Ha in Hst.
        injection Hst as <-. done.
      * left. apply Hav.
        assert (i = j) as <-.
        { apply (H6 i j fu fu' Hi Hj Hlive); [unfold live; by rewrite Hph|done]. }
        rewrite Hi in Hj. by injection Hj as <-.
    + destruct (Hother k Hne) as [Hs Hq]. rewrite Hq in Hp. rewrite Hs.
      destruct (H8 k p Hp) as [Ha|(j & fu' & Hj & Hk & Hph)]; [by left|].
      right. exists j, fu'. simpl. rewrite lookup_insert_ne; [done|].
      intros <-. rewrite Hi in Hj. injection Hj as <-. done.
Qed.

(** The coordinator pops a finished future. *)
Lemma Inv_reap cfg s i fu :
  Inv cfg s → coord s = Reaping →
  active_futures s !! i = Some fu → done fu = true →
  Inv cfg {| store := store s; active_futures := delete i (active_futures s);
             next_future := next_future s; coord := Reaping |}.
Proof.
  intros [H1 H2 H3 H4 H5 H6 H7 H8] Hc Hi Hdone.
  apply bool_decide_eq_true in Hdone.
  assert (∀ k, ¬ holds s k) as Hno.
  { intros k [flag Hk]. by rewrite Hc in Hk. }
  assert (∀ j fu', active_futures s !! j = Some fu' → live fu' →
                   delete i (active_futures s) !! j = Some fu') as Hkeep.
  { intros j fu' Hj Hl. rewrite lookup_delete_ne; [done|]. intros <-.
    rewrite Hi in Hj. injection Hj as <-. done. }
  assert (∀ j fu', delete i (active_futures s) !! j = Some fu' →
                   active_futures s !! j = Some fu') as Hback.
  { intros j fu' Hj. by apply lookup_delete_Some in Hj as [_ ?]. }
  split; simpl.
  - rewrite map_size_delete_Some by done. lia.
  - intros k [flag Hk]. done.
  - intros j Hj. apply lookup_delete_None. right. by apply H3.
  - intros k Hk. destruct (H4 k Hk) as [(j & fu' & Hj & Hid & Hl)|Hh].
    + left. exists j, fu'. simpl. split; [by apply Hkeep|done].
    + by destruct (Hno k).
  - intros k [(j & fu' & Hj & Hid & Hl)|[flag Hh]]; [|done].
    apply H5. left. exists j, fu'. split; [by apply Hback|done].
  - intros j1 j2 fu1 fu2 Hj1 Hj2. apply H6; by apply Hback.
  - intros k [flag Hh]. done.
  - intros k p Hp. destruct (H8 k p Hp) as [Ha|(j & fu' & Hj & Hid & Hph)]; [by left|].
    right. exists j, fu'. simpl. split; [|done].
    apply Hkeep; [done|]. unfold live. by rewrite Hph.
Qed.

(** The coordinator takes a job from the scheduler. *)
Lemma Inv_get_next cfg s x e q' :
  Inv cfg s → coord s = Filling →
  (size (active_futures s) < MAX_CONCURRENT_DOWNLOADS cfg)%nat →
  book_queue.get_next (store s) = (Some (x, e), q') →
  Inv cfg (with_coord (Holding x e) (with_store q' s)).
Proof.
  intros [H1 H2 H3 H4 H5 H6 H7 H8] Hc Hsize Hget.
  assert (∀ k, ¬ holds s k) as Hno.
  { intros k [flag Hk]. by rewrite Hc in Hk. }
  assert (status_of x (store s) = Some QUEUED) as Hx
    by apply (get_next_effect _ _ _ _ x Hget).
  assert (¬ active_in (store s) x) as Hnx.
  { intros (st & Hst & Ha). rewrite Hx in Hst. by injection Hst as <-. }
  assert (∀ k, k ≠ x → status_of k q' = status_of k (store s)) as Hother.
  { intros k Hne. destruct (get_next_effect _ _ _ _ k Hget) as (_ & _ & Hs).
    by rewrite decide_False in Hs. }
  assert (status_of x q' = Some PROCESSING) as Hx'.
  { destruct (get_next_effect _ _ _ _ x Hget) as (_ & _ & Hs).
    by rewrite decide_True in Hs. }
  split; simpl; try done.
  - intros k Hk. destruct (decide (k = x)) as [->|Hne].
    + right. by exists e.
    + apply (active_in_status (store s)) in Hk; [|by apply Hother].
      destruct (H4 k Hk) as [Hw|Hh]; [by left|by destruct (Hno k)].
  - intros k [Hw|[flag Hh]].
    + assert (active_in (store s) k) as Hk by (apply H5; by left).
      apply (active_in_status (store s)); [|done].
      apply Hother. by intros ->.
    + simpl in Hh. injection Hh as <- <-. by exists PROCESSING.
  - intros k [flag Hh] Hw. simpl in Hh. injection Hh as <- <-.
    apply Hnx, H5. by left.
  - intros k p Hp.
    destruct (get_next_effect _ _ _ _ k Hget) as (_ & Hq & _).
    rewrite Hq in Hp. destruct (H8 k p Hp) as [Ha|Hpub]; [|by right].
    left. rewrite Hother; [done|]. intros ->. rewrite Hx in Ha. done.
Qed.

(** The coordinator submits the job it holds. *)
Lemma Inv_submit cfg s x e :
  Inv cfg s → coord s = Holding x e →
  Inv cfg {| store := store s;
             active_futures :=
               <[next_future s := mkFuture x e Submitted]> (active_futures s);
             next_future := S (next_future s); coord := Filling |}.
Proof.
  intros [H1 H2 H3 H4 H5 H6 H7 H8] Hc.
  assert (holds s x) as Hx by by exists e.
  assert (active_futures s !! next_future s = None) as Hfresh by by apply H3.
  assert (∀ j fu', active_futures s !! j = Some fu' →
            <[next_future s := mkFuture x e Submitted]> (active_futures s) !! j
            = Some fu') as Hkeep.
  { intros j fu' Hj. rewrite lookup_insert_ne; [done|]. intros <-.
    by rewrite Hfresh in Hj. }
  split; simpl.
  - rewrite map_size_insert_None by done. by apply (H2 x).
  - intros k [flag Hk]. done.
  - intros j Hj. rewrite lookup_insert_ne by lia. apply H3. lia.
  - intros k Hk. left. destruct (H4 k Hk) as [(j & fu' & Hj & Hid & Hl)|[flag Hh]].
    + exists j, fu'. simpl. split; [by apply Hkeep|done].
    + rewrite Hc in Hh. injection Hh as <- <-.
      exists (next_future s), (mkFuture x e Submitted). simpl.
      by rewrite lookup_insert_eq.
  - intros k [(j & fu' & Hj & Hid & Hl)|[flag Hh]]; [|done].
    simpl in Hj. apply H5. destruct (decide (next_future s = j)) as [<-|Hne].
    + rewrite lookup_insert_eq in Hj. injection Hj as <-. simpl in Hid.
      subst k. by right.
    + rewrite lookup_insert_ne in Hj by done. left. by exists j, fu'.
  - intros j1 j2 fu1 fu2 Hj1 Hj2 Hl1 Hl2 Hid.
    destruct (decide (next_future s = j1)) as [<-|Hne1];
      destruct (decide (next_future s = j2)) as [<-|Hne2]; [done| | |].
    + rewrite lookup_insert_eq in Hj1. injection Hj1 as <-.
      rewrite lookup_insert_ne in Hj2 by done. simpl in Hid.
      destruct (H7 x Hx). by exists j2, fu2.
    + rewrite lookup_insert_eq in Hj2. injection Hj2 as <-.
      rewrite lookup_insert_ne in Hj1 by done. simpl in Hid.
      destruct (H7 x Hx). by exists j1, fu1.
    + rewrite lookup_insert_ne in Hj1 by done.
      rewrite lookup_insert_ne in Hj2 by done. by apply (H6 j1 j2 fu1 fu2).
  - intros k [flag Hh]. done.
  - intros k p Hp. destruct (H8 k p Hp) as [Ha|(j & fu' & Hj & Hid & Hph)]; [by left|].
    right. exists j, fu'. simpl. split; [by apply Hkeep|done].
Qed.

Lemma worker_step_Some i from to guard f s s' :
  worker_step i from to guard f s = Some s' →
  ∃ fu, active_futures s !! i = Some fu ∧ fut_phase fu = from
        ∧ guard fu (store s) = true
        ∧ s' = {| store := f (fut_book_id fu) (store s);
                  active_futures := <[i := with_phase to fu]> (active_futures s);
                  next_future := next_future s; coord := coord s |}.
Proof.
  unfold worker_step. destruct (active_futures s !! i) as [fu|]; [|done].
  destruct (bool_decide (fut_phase fu = from)) eqn:E; [|done].
  apply bool_decide_eq_true in E.
  destruct (guard fu (store s)) eqn:G; [|done]. simpl.
  intros [= <-]. by exists fu.
Qed.

Lemma active_in_update_status q k s :
  active_in (book_queue.update_status k s q) k ↔
  (∃ s0, status_of k q = Some s0) ∧ is_active s = true.
Proof.
  unfold active_in. rewrite status_update_status, decide_True by done.
  destruct (status_of k q) as [s0|]; simpl.
  - split.
    + intros (s1 & [= <-] & Ha). split; [by exists s0|done].
    + intros [_ Ha]. by exists s.
  - split; [by intros (s1 & ? & _)|by intros [[s1 ?] _]].
Qed.

(** Every step of the coordinator, of a worker or of a caller keeps the
    invariant. *)
Lemma Inv_step cfg a s s' : Inv cfg s → step cfg a s = Some s' → Inv cfg s'.
Proof.
  intros HI. destruct a; cbn [step].
  - intros [= <-]. apply Inv_external; [done| |].
    + intros k. destruct (add_effect book_id book_info prio (store s) k)
        as [[Hs _]|(-> & Hna & Hs & _)]; [by apply active_in_status|].
      split; [|done]. intros (st & Hst & Ha). rewrite Hs in Hst.
      by injection Hst as <-.
    + intros k p Hp. destruct (add_effect book_id book_info prio (store s) k)
        as [[Hs Hq]|(-> & Hna & Hs & Hq)].
      * exists p. rewrite <- Hq, Hs. done.
      * by rewrite Hq in Hp.
  - intros [= <-].
    pose proof (cancel_download_effect book_id (store s)) as He.
    apply Inv_external; [done| |].
    + intros k. destruct (He k) as [_ [Hs|[Hb Ha]]]; [by apply active_in_status|].
      split; intros (st & Hst & Hact).
      * rewrite Ha in Hst. by injection Hst as <-.
      * rewrite Hb in Hst. by injection Hst as <-.
    + intros k p Hp. destruct (He k) as [Hq Hs]. exists p.
      rewrite <- Hq. split; [done|]. intros Hav.
      destruct Hs as [->|[Hb _]]; [done|]. by rewrite Hb in Hav.
  - intros [= <-].
    pose proof (set_priority_effect book_id prio (store s)) as He.
    apply Inv_external; [done| |].
    + intros k. apply active_in_status, He.
    + intros k p Hp. destruct (He k) as [Hs Hq]. exists p.
      by rewrite <- Hq, Hs.
  - pose proof (clear_completed_effect (store s)) as He.
    destruct (book_queue.clear_completed (store s)) as [n q'].
    intros [= <-]. simpl in He.
    apply Inv_external; [done| |].
    + intros k. destruct (He k) as [[Hs _]|(Hs & _ & Hna)];
        [by apply active_in_status|].
      split; [|done]. unfold active_in. rewrite Hs. by intros (st & ? & _).
    + intros k p Hp. destruct (He k) as [[Hs Hq]|(_ & Hq & _)].
      * exists p. by rewrite <- Hq, Hs.
      * by rewrite Hq in Hp.
  - intros [= <-].
    pose proof (get_book_data_effect f read_error book_id (store s)) as He.
    apply Inv_external; [done| |].
    + intros k. apply active_in_status, He.
    + intros k p Hp. destruct (He k) as [Hs [Hq|Hq]].
      * exists p. by rewrite <- Hq, Hs.
      * by rewrite Hq in Hp.
  - destruct (coord s) eqn:Hc; try done.
    destruct (active_futures s !! i) as [fu|] eqn:Hi; [|done].
    destruct (done fu) eqn:Hd; [|done].
    intros [= <-]. by apply (Inv_reap cfg s i fu).
  - destruct (coord s) eqn:Hc; try done.
    intros [= <-]. apply Inv_coord; [done| |done].
    intros k [flag Hk]. by rewrite Hc in Hk.
  - destruct (coord s) eqn:Hc; try done.
    assert (∀ k, ¬ holds s k) as Hno.
    { intros k [flag Hk]. by rewrite Hc in Hk. }
    destruct (size (active_futures s) <? MAX_CONCURRENT_DOWNLOADS cfg)%nat eqn:Hn.
    + apply Nat.ltb_lt in Hn.
      destruct (book_queue.get_next (store s)) as [[[x e]|] q'] eqn:Hget.
      * intros [= <-]. by apply Inv_get_next.
      * intros [= <-]. apply get_next_None in Hget as [-> _].
        apply Inv_coord; [|done|done]. by destruct s.
    + intros [= <-]. by apply Inv_coord.
  - destruct (coord s) eqn:Hc; try done.
    intros [= <-]. by apply Inv_submit.
  - destruct (coord s) eqn:Hc; try done.
    intros [= <-]. apply Inv_coord; [done| |done].
    intros k [flag Hk]. by rewrite Hc in Hk.
  - intros H. apply worker_step_Some in H as (fu & Hi & Hph & _ & ->).
    apply Inv_worker_live; try done; try (unfold live; by rewrite Hph).
    + intros k Hne. by rewrite status_update_status, decide_False,
        path_update_status.
    + intros (st & Hst & _). apply active_in_update_status.
      split; [by exists st|done].
    + right. apply path_update_status.
  - intros H. apply worker_step_Some in H as (fu & Hi & Hph & _ & ->).
    apply Inv_worker_live; try done; try (unfold live; by rewrite Hph).
    + intros k Hne. rewrite status_update_download_progress,
        path_update_download_progress. rewrite decide_False; [done|].
      by intros [? _].
    + intros (st & Hst & Ha). unfold active_in.
      rewrite status_update_download_progress. case_decide.
      * by exists DOWNLOADING.
      * by exists st.
    + right. apply path_update_download_progress.
  - intros H. apply worker_step_Some in H as (fu & Hi & Hph & _ & ->).
    apply Inv_worker_finish; try done; try (unfold live; by rewrite Hph).
    + intros k Hne. by rewrite status_update_status, decide_False,
        path_update_status.
    + intros Ha. by apply active_in_update_status in Ha as [_ ?].
    + apply path_update_status.
  - intros H. apply worker_step_Some in H as (fu & Hi & Hph & _ & ->).
    apply (Inv_worker_live cfg s i fu Checked (λ q, q));
      try done; try (unfold live; by rewrite Hph).
    by right.
  - intros H. apply worker_step_Some in H as (fu & Hi & Hph & _ & ->).
    apply Inv_worker_finish; try done; try (unfold live; by rewrite Hph).
    + intros k Hne. by rewrite status_update_status, decide_False,
        path_update_status.
    + intros Ha. by apply active_in_update_status in Ha as [_ ?].
    + apply path_update_status.
  - intros H. apply worker_step_Some in H as (fu & Hi & Hph & _ & ->).
    apply Inv_worker_live; try done; try (unfold live; by rewrite Hph).
    + intros k Hne. by rewrite status_update_download_path,
        path_update_download_path, decide_False.
    + apply active_in_status, status_update_download_path.
    + by left.
  - intros H. apply worker_step_Some in H as (fu & Hi & Hph & _ & ->).
    assert (active_in (store s) (fut_book_id fu)) as (st & Hst & _).
    { apply (inv_owned_active cfg s HI). left. exists i, fu.
      split; [done|]. split; [done|]. unfold live. by rewrite Hph. }
    apply Inv_worker_finish; try done; try (unfold live; by rewrite Hph).
    + intros k Hne. by rewrite status_update_status, decide_False,
        path_update_status.
    + intros Ha. by apply active_in_update_status in Ha as [_ ?].
    + apply path_update_status.
    + intros _. rewrite status_update_status, decide_True by done.
      by rewrite Hst.
Qed.

Lemma run_Inv cfg acts s s' : Inv cfg s → run cfg acts s = Some s' → Inv cfg s'.
Proof.
  revert s. induction acts as [|a acts IH]; simpl; intros s HI.
  - by intros [= <-].
  - destruct (step cfg a s) as [s1|] eqn:E; [|done].
    apply IH. by apply (Inv_step cfg a s).
Qed.

Lemma reachable_Inv cfg s : reachable cfg s → Inv cfg s.
Proof. intros [acts H]. apply (run_Inv cfg acts init_system); [apply Inv_init|done]. Qed.

(** ** The worker of the process and the worker run

    The steps the process takes for the worker of a future are the store
    calls of a run of [_process_single_download], in the order of the
    run, with the requests to cancel the job that take effect during the
    run between them. *)

Lemma run_app cfg acts1 acts2 s :
  run cfg (acts1 ++ acts2) s
  = match run cfg acts1 s with
    | Some s' => run cfg acts2 s'
    | None => None
    end.
Proof.
  revert s. induction acts1 as [|a acts1 IH]; intros s; simpl; [done|].
  destruct (step cfg a s); [apply IH|done].
Qed.

Lemma run_snoc cfg acts a s s1 s2 :
  run cfg acts s = Some s1 → step cfg a s1 = Some s2 →
  run cfg (acts ++ [a]) s = Some s2.
Proof. intros H1 H2. rewrite run_app, H1. simpl. by rewrite H2. Qed.

Lemma queue_store_call o b g w : queue (store_call o b g w).2 = g (queue w).
Proof. done. Qed.

Section worker_steps.
Context (cfg : Config) (s0 : System) (i : nat) (k : string).

(** The worker of the future [i] has reached the phase [ph] by steps of
  its own and cancellation requests for its job, and the store is the
  one of [w]. *)
Definition reached (ph : Phase) (w : World) : Prop :=
∃ acts s, Forall (worker_action i k) acts
          ∧ run cfg acts s0 = Some s
          ∧ store s = queue w
          ∧ active_futures s !! i = Some (mkFuture k k ph).

Lemma reached_store_only ph : store_only (reached ph).
Proof.
intros w w' Hq _ (acts & s & Ha & Hr & Hs & Hf).
exists acts, s. by rewrite <- Hq.
Qed.

Lemma reached_step ph ph' a g w w' :
worker_action i k a →
(∀ s, active_futures s !! i = Some (mkFuture k k ph) →
      store s = queue w →
      ∃ s', step cfg a s = Some s' ∧ store s' = g (store s)
            ∧ active_futures s' !! i = Some (mkFuture k k ph')) →
queue w' = g (queue w) →
reached ph w → reached ph' w'.
Proof.
intros Ha Hstep Hq (acts & s & Hacts & Hr & Hs & Hf).
destruct (Hstep s Hf Hs) as (s' & Hs' & Hst & Hf').
exists (acts ++ [a]), s'. split; [|split; [|split]].
- apply Forall_app. split; [done|]. by apply Forall_singleton.
- by apply (run_snoc cfg acts a s0 s s').
- by rewrite Hst, Hs, Hq.
- done.
Qed.

Lemma worker_step_at ph ph' guard g s :
active_futures s !! i = Some (mkFuture k k ph) →
guard (mkFuture k k ph) (store s) = true →
∃ s', worker_step i ph ph' guard g s = Some s'
      ∧ store s' = g k (store s)
      ∧ active_futures s' !! i = Some (mkFuture k k ph').
Proof.
intros Hf Hg. unfold worker_step. rewrite Hf. simpl.
rewrite bool_decide_eq_true_2 by done. rewrite Hg. simpl.
eexists. split; [done|]. split; [done|]. simpl. apply lookup_insert_eq.
Qed.

Lemma reached_deliver_cancel env :
preserves (reached Fetching) (deliver_cancel env k).
Proof.
intros w Hw. unfold deliver_cancel. destruct (due env (clock w)); [|done].
apply (reached_step Fetching Fetching (ACancelDownload k)
         (λ q, (book_queue.cancel_download k q).2) w); [done| |done|done].
intros s Hf _. eexists. split; [done|]. split; [done|]. done.
Qed.

Lemma reached_progress_callback n p :
preserves (reached Fetching) (progress_callback k n p).
Proof.
intros w Hw.
apply (reached_step Fetching Fetching (WProgress i p)
         (update_download_progress k p) w); [done| |done|done].
intros s Hf _. by apply worker_step_at.
Qed.

(** A run of the worker on the job [k] is a sequence of steps of the
  worker of a future submitted for [k], and of cancellation requests
  for [k], that ends with the future done and the store of the run. *)
Lemma worker_run_is_worker_steps env f :
active_futures s0 !! i = Some (mkFuture k k Submitted) →
∃ acts s, Forall (worker_action i k) acts
          ∧ run cfg acts s0 = Some s
          ∧ store s = queue (run_worker cfg env k (store s0) f)
          ∧ active_futures s !! i = Some (mkFuture k k Finished).
Proof.
intros Hsub.
destruct (process_single_download_run cfg env k (store s0) f)
  as (dp & w2 & w3 & Hd & Hs & Hrun).
assert (reached Fetching (started_world k (store s0) f)) as H1.
{ destruct (worker_step_at Submitted Fetching (λ _ _, true)
              (λ b, book_queue.update_status b PROCESSING) s0 Hsub eq_refl)
    as (s' & Hs' & Hst & Hf').
  exists [WStart i], s'. split; [by apply Forall_singleton|].
  split; [simpl; by rewrite Hs'|]. by split. }
assert (reached Fetching w2) as H2.
{ pose proof (download_preserves (reached Fetching)
                (reached_store_only Fetching) env k k
                (reached_deliver_cancel env)
                (preserves_for_each _ _ _ _ reached_progress_callback)
                cfg _ H1) as H.
  by rewrite Hd in H. }
assert (reached Fetching w3) as H3.
{ pose proof (is_set_preserves (reached Fetching)
                (reached_store_only Fetching) env k
                (reached_deliver_cancel env) _ H2) as H.
  by rewrite Hs in H. }
unfold run_worker. rewrite Hrun. simpl. unfold conclude.
destruct (book_queue.is_set k (queue w3)) eqn:Hc.
- apply (reached_step Fetching Finished (WCancelled i)
           (book_queue.update_status k CANCELLED) w3); [done| |done|done].
  intros s Hf Hq. apply worker_step_at; [done|]. simpl. by rewrite Hq.
- assert (reached Checked w3) as H4.
  { apply (reached_step Fetching Checked (WCheck i) (λ q, q) w3);
      [done| |done|done].
    intros s Hf Hq.
    apply (worker_step_at Fetching Checked _ (λ _ q, q)); [done|].
    simpl. by rewrite Hq, Hc. }
  destruct (truthy dp) eqn:Ht.
  + destruct dp as [p|]; [|done]. simpl.
    assert (reached PathWritten
              (store_call FromWorker k
                 (book_queue.update_download_path k p) w3).2) as H5.
    { apply (reached_step Checked PathWritten (WPath i p)
               (book_queue.update_download_path k p) w3); [done| |done|done].
      intros s Hf Hq.
      by apply (worker_step_at Checked PathWritten (λ _ _, truthy (Some p))
                  (λ b, book_queue.update_download_path b p)). }
    assert (reached Finished
              (store_call FromWorker k
                 (book_queue.update_status k AVAILABLE)
                 (store_call FromWorker k
                    (book_queue.update_download_path k p) w3).2).2) as H6.
    { apply (reached_step PathWritten Finished (WAvailable i)
               (book_queue.update_status k AVAILABLE)
               (store_call FromWorker k
                  (book_queue.update_download_path k p) w3).2);
        [done| |done|done].
      intros s Hf Hq. by apply worker_step_at. }
    destruct H6 as (acts & s & Ha & Hr & Hq & Hf). by exists acts, s.
  + assert (reached Finished
              (store_call FromWorker k
                 (book_queue.update_status k ERROR) w3).2) as H6.
    { apply (reached_step Checked Finished (WError i)
               (book_queue.update_status k ERROR) w3); [done| |done|done].
      intros s Hf Hq. by apply worker_step_at. }
    destruct H6 as (acts & s & Ha & Hr & Hq & Hf). by exists acts, s.
Qed.

End worker_steps.

(** The store a worker run leaves is the store of a reachable state of
    the process. *)
Lemma worker_run_reachable cfg env f s0 i k :
  reachable cfg s0 →
  active_futures s0 !! i = Some (mkFuture k k Submitted) →
  ∃ s, reachable cfg s
       ∧ store s = queue (run_worker cfg env k (store s0) f).
Proof.
  intros [acts0 H0] Hsub.
  destruct (worker_run_is_worker_steps cfg s0 i k env f Hsub)
    as (acts & s & _ & Hr & Hs & _).
  exists s. split; [|done]. exists (acts0 ++ acts). by rewrite run_app, H0.
Qed.

(** ** The bound on the number of active jobs *)

Lemma size_union_le (X Y : gset string) : (size (X ∪ Y) ≤ size X + size Y)%nat.
Proof.
  rewrite size_union_alt.
  assert (size (Y ∖ X) ≤ size Y)%nat.
  { apply subseteq_size. intros x Hx. by apply elem_of_difference in Hx as [? _]. }
  lia.
Qed.

Lemma size_list_to_set_le (l : list string) :
  (size (list_to_set l : gset string) ≤ length l)%nat.
Proof.
  induction l as [|x l IH].
  - by rewrite list_to_set_nil, size_empty.
  - rewrite list_to_set_cons. cbn [length].
    pose proof (size_union_le {[x]} (list_to_set l)) as H.
    rewrite size_singleton in H. lia.
Qed.

Lemma size_tracked_ids s : (size (tracked_ids s) ≤ size (active_futures s))%nat.
Proof.
  unfold tracked_ids.
  etrans; [apply size_list_to_set_le|].
  by rewrite length_fmap, length_map_to_list.
Qed.

Lemma worked_tracked s k : worked s k → k ∈ tracked_ids s.
Proof.
  intros (i & fu & Hi & Hid & _). unfold tracked_ids.
  apply elem_of_list_to_set, list_elem_of_fmap. exists (i, fu).
  split; [done|]. by apply elem_of_map_to_list.
Qed.

Lemma elem_of_get_active_downloads q k :
  k ∈ book_queue.get_active_downloads q ↔ active_in q k.
Proof.
  unfold book_queue.get_active_downloads, active_in, status_of,
    book_queue.get_status_for_book.
  rewrite elem_of_dom. unfold is_Some. setoid_rewrite map_lookup_filter_Some.
  simpl. split.
  - intros (r & Hr & Ha). exists (status r). by rewrite Hr.
  - intros (st & Hst & Ha). destruct (jobs q !! k) as [r|]; [|done].
    injection Hst as <-. by exists r.
Qed.

(** C1: for every pool size [N = MAX_CONCURRENT_DOWNLOADS], [N >= 1], in
    every state the coordinator loop, its workers and the callers of the
    core can reach from the empty store, whatever was enqueued, at most
    [N] jobs are [PROCESSING] or [DOWNLOADING], and at most [N] futures
    are outstanding. *)
Theorem at_most_N_jobs_active (cfg : Config) (s : System) :
  (1 ≤ MAX_CONCURRENT_DOWNLOADS cfg)%nat →
  reachable cfg s →
  (size (book_queue.get_active_downloads (store s))
   ≤ MAX_CONCURRENT_DOWNLOADS cfg)%nat
  ∧ (size (active_futures s) ≤ MAX_CONCURRENT_DOWNLOADS cfg)%nat.
Proof.
  intros _ [acts Hrun].
  assert (Inv cfg s) as HI
    by (apply (run_Inv cfg acts init_system); [apply Inv_init|done]).
  split; [|apply (inv_cap cfg s HI)].
  (* the active jobs are with a worker or with the coordinator *)
  assert (∀ k, k ∈ book_queue.get_active_downloads (store s) →
               worked s k ∨ holds s k) as Howned.
  { intros k Hk. apply elem_of_get_active_downloads in Hk.
    apply (inv_active_owned cfg s HI k Hk). }
  pose proof (size_tracked_ids s) as Hids.
  destruct (coord s) as [| |x e|] eqn:Hc.
  1,2,4: etrans; [|apply (inv_cap cfg s HI)];
    (etrans; [|apply size_tracked_ids]); apply subseteq_size;
    intros k Hk;
    (destruct (Howned k Hk) as [Hw|[flag Hh]];
     [by apply worked_tracked|by rewrite Hc in Hh]).
  (* the coordinator holds [x]: a slot of the pool is free for it *)
  assert (holds s x) as Hx by by exists e.
  pose proof (inv_cap_holding cfg s HI x Hx) as Hlt.
  pose proof (size_union_le {[x]} (tracked_ids s)) as Hu.
  rewrite size_singleton in Hu.
  assert (size (book_queue.get_active_downloads (store s))
          ≤ size ({[x]} ∪ tracked_ids s))%nat; [|lia].
  apply subseteq_size. intros k Hk.
  destruct (Howned k Hk) as [Hw|[flag Hh]].
  - apply elem_of_union_r. by apply worked_tracked.
  - rewrite Hc in Hh. injection Hh as <- <-.
    apply elem_of_union_l. by apply elem_of_singleton.
Qed.

Lemma at_most_N_jobs_active_witness :
  book_queue.get_active_downloads (store (after cfg_one burst)) = {[ "b1" ]}
  ∧ status_of "b2" (store (after cfg_one burst)) = Some QUEUED
  ∧ (size (book_queue.get_active_downloads (store (after cfg_one burst))) ≤ 1)%nat
  ∧ (size (active_futures (after cfg_one burst)) ≤ 1)%nat.
Proof.
  split; [by vm_compute|]. split; [by vm_compute|].
  apply (at_most_N_jobs_active cfg_one (after cfg_one burst)).
  - simpl. lia.
  - exists burst. by vm_compute.
Defined.

(** ** The download path and the status [AVAILABLE] *)

(** C2, counterexample: after a download and a failed read of the file
    by [get_book_data] the job is [AVAILABLE] and has no download
    path. *)
Lemma available_with_empty_download_path :
  ∃ s, reachable cfg_one s
       ∧ status_of "b1" (store s) = Some AVAILABLE
       ∧ path_of "b1" (store s) = Some None.
Proof.
  exists (after cfg_one download_then_failed_read).
  split; [exists download_then_failed_read|]; by vm_compute.
Qed.

(** C2, amended: in every reachable state a job that has a download
    path is [AVAILABLE], or its worker has written the path and not yet
    the status. *)
Theorem download_path_set_only_when_available (cfg : Config) (s : System)
    (k p : string) :
  reachable cfg s →
  path_of k (store s) = Some (Some p) →
  status_of k (store s) = Some AVAILABLE ∨ publishing s k.
Proof.
  intros [acts Hrun] Hp.
  assert (Inv cfg s) as HI
    by (apply (run_Inv cfg acts init_system); [apply Inv_init|done]).
  destruct (inv_path cfg s HI k p Hp) as [Hav|Hpub]; [by left|by right].
Qed.

Lemma download_path_set_only_when_available_witness :
  status_of "b1" (store (after cfg_one download_until_path)) = Some PROCESSING
  ∧ (status_of "b1" (store (after cfg_one download_until_path)) = Some AVAILABLE
     ∨ publishing (after cfg_one download_until_path) "b1").
Proof.
  split; [by vm_compute|].
  apply (download_path_set_only_when_available cfg_one
           (after cfg_one download_until_path) "b1" "/ingest/b1.epub").
  - exists download_until_path. by vm_compute.
  - by vm_compute.
Defined.

(** * File names *)

Section sanitize.
Implicit Types (s t : string) (c : ascii).

Lemma mem_filter p c s :
  Str.mem c (Str.filter p s) = true ↔ Str.mem c s = true ∧ p c = true.
Proof.
  induction s as [|d s IH]; simpl.
  - split; [done|by intros [? _]].
  - destruct (p d) eqn:Ed; simpl; destruct (decide (c = d)) as [->|Hne].
    + by rewrite Ed.
    + exact IH.
    + rewrite IH, Ed. split; [by intros [_ ?]|by intros [_ ?]].
    + exact IH.
Qed.

Lemma filter_id p s :
  (∀ c, Str.mem c s = true → p c = true) → Str.filter p s = s.
Proof.
  induction s as [|d s IH]; simpl; [done|]. intros H.
  rewrite (H d) by (by rewrite decide_True).
  f_equal. apply IH. intros c Hc. apply H. by destruct (decide (c = d)).
Qed.

Lemma mem_rstrip c s : Str.mem c (Str.rstrip s) = true → Str.mem c s = true.
Proof.
  induction s as [|d s IH]; simpl; [done|].
  destruct (Str.rstrip s) as [|e r] eqn:E.
  - destruct (Str.isspace d); simpl; [done|].
    by destruct (decide (c = d)).
  - simpl. destruct (decide (c = d)); [done|]. exact IH.
Qed.

Lemma rstrip_idem s : Str.rstrip (Str.rstrip s) = Str.rstrip s.
Proof.
  induction s as [|d s IH]; simpl; [done|].
  destruct (Str.rstrip s) as [|e r] eqn:E.
  - destruct (Str.isspace d) eqn:Ed; simpl; [done|]. by rewrite Ed.
  - change (Str.rstrip (String d (String e r))) with
      (match Str.rstrip (String e r) with
       | EmptyString => if Str.isspace d then EmptyString else String d EmptyString
       | r0 => String d r0
       end).
    by rewrite IH.
Qed.

Lemma rstrip_last s t c :
  Str.rstrip s = t +:+ String c EmptyString → Str.isspace c = false.
Proof.
  revert t. induction s as [|d s IH]; intros t; simpl.
  - by destruct t.
  - destruct (Str.rstrip s) as [|e r] eqn:E.
    + destruct (Str.isspace d) eqn:Ed; [by destruct t|].
      destruct t as [|d' t]; simpl; [by intros [= ->]|].
      intros [= _ H]. by destruct t.
    + destruct t as [|d' t]; simpl; [done|].
      intros [= _ H]. by apply (IH t).
Qed.

(** A string [rstrip] leaves alone: empty, or ending in a character that
    is not white space. *)
Lemma rstrip_id s :
  Str.rstrip s = s ↔
  s = EmptyString ∨ ∃ t c, s = t +:+ String c EmptyString ∧ Str.isspace c = false.
Proof.
  split.
  - intros H. destruct s as [|d s]; [by left|]. right.
    assert (∃ t c, String d s = t +:+ String c EmptyString) as (t & c & Ht).
    { clear H. revert d. induction s as [|e s IH]; intros d.
      - by exists EmptyString, d.
      - destruct (IH e) as (t & c & Ht). exists (String d t), c.
        simpl. by rewrite Ht. }
    exists t, c. split; [done|]. apply (rstrip_last (String d s) t). by rewrite H.
  - intros [->|(t & c & -> & Hc)]; [done|].
    induction t as [|d t IH]; simpl; [by rewrite Hc|].
    rewrite IH. by destruct t.
Qed.

End sanitize.

(** X1: every character of a sanitized file name is alphanumeric, a
    space, a dot or an underscore, so that the name holds no path
    separator; and the name does not end in white space. *)
Theorem sanitize_filename_is_safe (filename : string) :
  (∀ c, Str.mem c (_sanitize_filename filename) = true → kept c = true)
  ∧ Str.mem "/" (_sanitize_filename filename) = false
  ∧ Str.mem "\" (_sanitize_filename filename) = false
  ∧ Str.mem "000" (_sanitize_filename filename) = false
  ∧ ∀ t c, _sanitize_filename filename = t +:+ String c EmptyString →
           Str.isspace c = false.
Proof.
  assert (∀ c, Str.mem c (_sanitize_filename filename) = true → kept c = true)
    as Hkept.
  { intros c Hc. unfold _sanitize_filename in Hc.
    apply mem_rstrip, mem_filter in Hc as [_ Hc]. exact Hc. }
  assert (∀ c, kept c = false → Str.mem c (_sanitize_filename filename) = false)
    as Hnot.
  { intros c Hc. destruct (Str.mem c (_sanitize_filename filename)) eqn:E; [|done].
    apply Hkept in E. congruence. }
  split; [exact Hkept|].
  split; [by apply Hnot|]. split; [by apply Hnot|]. split; [by apply Hnot|].
  intros t c. apply rstrip_last.
Qed.

(** X2: sanitizing is idempotent, and a name made of kept characters that
    does not end in white space is left as it is: inner spaces are kept,
    not replaced. *)
Theorem sanitize_filename_idempotent (filename : string) :
  _sanitize_filename (_sanitize_filename filename) = _sanitize_filename filename
  ∧ ((∀ c, Str.mem c filename = true → kept c = true) →
     Str.rstrip filename = filename →
     _sanitize_filename filename = filename).
Proof.
  assert (∀ s, (∀ c, Str.mem c s = true → kept c = true) →
               Str.rstrip s = s → _sanitize_filename s = s) as Hclean.
  { intros s Hs Hr. unfold _sanitize_filename.
    rewrite (filter_id _ s); [done|]. exact Hs. }
  split; [|apply Hclean].
  apply Hclean.
  - intros c Hc. unfold _sanitize_filename in Hc.
    apply mem_rstrip, mem_filter in Hc as [_ Hc]. exact Hc.
  - unfold _sanitize_filename. apply rstrip_idem.
Qed.

(** * Serving a downloaded file *)

Lemma alter_clear_path_idem (k : string) (m : gmap string JobRecord) :
  alter (set_info (set_download_path None)) k
    (alter (set_info (set_download_path None)) k m)
  = alter (set_info (set_download_path None)) k m.
Proof.
  apply map_eq. intros i. rewrite !lookup_alter.
  destruct (decide (k = i)) as [<-|Hne]; [|done].
  rewrite decide_True by done.
  by destruct (m !! k) as [r|].
Qed.

Lemma get_book_data_cases f e k q :
  match jobs q !! k with
  | None => get_book_data f e k q = (Raise "UnboundLocalError", q)
  | Some r =>
      (∃ p data, download_path (info r) = Some p ∧ f !! p = Some data
                 ∧ e = None
                 ∧ get_book_data f e k q = (Ok (Some data, info r), q))
      ∨ ((∀ p data, download_path (info r) = Some p → f !! p = Some data →
                    e ≠ None)
         ∧ get_book_data f e k q
           = (Ok (None, set_download_path None (info r)),
              book_queue.with_jobs
                (alter (set_info (set_download_path None)) k (jobs q)) q))
  end.
Proof.
  unfold get_book_data, book_queue._book_data.
  destruct (jobs q !! k) as [r|]; simpl; [|done].
  destruct (download_path (info r)) as [p|] eqn:Ep; [|by right].
  destruct (f !! p) as [data|] eqn:Ef; [|right; split; [|done]].
  - destruct e as [x|]; [right; split; [|done]|left].
    + by intros.
    + by exists p, data.
  - intros p' data [= <-]. by rewrite Ef.
Qed.


(** X3: once [get_book_data] has failed to read the file of a tracked
    job, the job has no download path any more and nothing else of the
    store has changed; every later call for the job fails as well,
    whatever the file system holds then, and changes nothing. *)
Theorem get_book_data_failure_is_sticky (f f' : FileSystem)
    (e e' : option string) (k : string) (q : BookQueue) (bi : BookInfo) :
  (get_book_data f e k q).1 = Ok (None, bi) →
  let q' := (get_book_data f e k q).2 in
  jobs q' = alter (set_info (set_download_path None)) k (jobs q)
  ∧ next_seq q' = next_seq q
  ∧ ∃ bi', get_book_data f' e' k q' = (Ok (None, bi'), q').
Proof.
  intros H q'. subst q'.
  pose proof (get_book_data_cases f e k q) as Hc.
  destruct (jobs q !! k) as [r|] eqn:Er; [|by rewrite Hc in H].
  destruct Hc as [(p & data & _ & _ & _ & Hc)|[_ Hc]]; [by rewrite Hc in H|].
  rewrite Hc. simpl. split; [done|]. split; [done|].
  pose proof (get_book_data_cases f' e' k
                (book_queue.with_jobs
                   (alter (set_info (set_download_path None)) k (jobs q)) q))
    as Hc'.
  simpl in Hc'. rewrite lookup_alter_eq, Er in Hc'. simpl in Hc'.
  destruct Hc' as [(p & data & Hp & _)|[_ Hc']]; [done|].
  rewrite Hc'. eexists. f_equal.
  unfold book_queue.with_jobs. simpl. by rewrite alter_clear_path_idem.
Qed.

Lemma get_book_data_failure_is_sticky_witness :
  (∃ bi, (get_book_data ∅ None "b1" queue_downloaded).1 = Ok (None, bi))
  ∧ ∃ bi',
      (get_book_data fs_downloaded None "b1"
         (get_book_data ∅ None "b1" queue_downloaded).2).1 = Ok (None, bi').
Proof.
  split; [eexists; by vm_compute|].
  destruct (get_book_data_failure_is_sticky ∅ fs_downloaded None None "b1"
              queue_downloaded
              (set_download_path None
                 (mkBookInfo "b1" "  Dune: Part 1 " "epub"
                    (Some "/ingest/b1.epub") (Some 0%float))))
    as (_ & _ & bi' & H); [by vm_compute|].
  exists bi'. by rewrite H.
Defined.


Lemma mem_take c n s : Str.mem c (Str.take n s) = true → Str.mem c s = true.
Proof.
  revert s. induction n as [|n IH]; intros [|d s]; simpl; try done.
  destruct (decide (c = d)); [done|]. apply IH.
Qed.

Lemma length_take n s : (String.length (Str.take n s) ≤ n)%nat.
Proof.
  revert s. induction n as [|n IH]; intros [|d s]; simpl; try lia.
  specialize (IH s). lia.
Qed.

Lemma mem_sub_chars p c s :
  Str.mem c (Str.sub_chars p "_" s) = true →
  c = "_"%char ∨ p c = false.
Proof.
  induction s as [|d s IH]; simpl; [done|].
  destruct (p d) eqn:Ed; simpl.
  - destruct (decide (c = "_"%char)); [by left|]. exact IH.
  - destruct (decide (c = d)) as [->|Hne]; [by right|]. exact IH.
Qed.

(** X5: the name under which [api_local_download] sends a file is the
    title of the job, cut to at most 245 characters none of which is
    one of the nine reserved characters, followed by a dot and the
    format of the job, which is not filtered. *)
Theorem api_local_download_name (args_id : option string) (f : FileSystem)
    (e : option string) (q : BookQueue) (data : list Byte.byte)
    (name : string) :
  (api_local_download args_id f e q).1 = SendFile data name →
  ∃ r stem,
    jobs q !! default "" args_id = Some r
    ∧ name = stem +:+ "." +:+ format (info r)
    ∧ (String.length stem ≤ 245)%nat
    ∧ ∀ c, Str.mem c stem = true → c ∉ reserved_chars.
Proof.
  unfold api_local_download. case_bool_decide as Hid; [done|].
  pose proof (get_book_data_cases f e (default "" args_id) q) as Hc.
  destruct (jobs q !! default "" args_id) as [r|]; [|by rewrite Hc].
  destruct Hc as [(p & data' & _ & _ & _ & ->)|[_ ->]]; [|done].
  cbn [fst]. intros H.
  exists r, (Str.take 245
               (Str.sub_chars is_reserved "_" (Str.strip (title (info r))))).
  split; [reflexivity|]. split; [congruence|].
  split; [apply length_take|].
  intros c Hc. apply mem_take, mem_sub_chars in Hc as [->|Hc].
  - intros Hin. apply (bool_decide_eq_true_2 _) in Hin. by vm_compute in Hin.
  - by apply bool_decide_eq_false in Hc.
Qed.

Lemma api_local_download_name_witness :
  (api_local_download (Some "b1") fs_downloaded None queue_downloaded).1
  = SendFile [Byte.x50; Byte.x4b] "Dune_ Part 1.epub"
  ∧ ∃ r stem,
      jobs queue_downloaded !! "b1" = Some r
      ∧ "Dune_ Part 1.epub" = stem +:+ "." +:+ format (info r)
      ∧ (String.length stem ≤ 245)%nat.
Proof.
  split; [by vm_compute|].
  destruct (api_local_download_name (Some "b1") fs_downloaded None
              queue_downloaded [Byte.x50; Byte.x4b] "Dune_ Part 1.epub")
    as (r & stem & Hr & Hn & Hl & _); [by vm_compute|].
  by exists r, stem.
Defined.

(** * The choice among Google Books results *)

Lemma credit_range vi key points :
  0 ≤ points → 0 ≤ credit vi key points ≤ points.
Proof. unfold credit. destruct (truth _); lia. Qed.

Lemma scorable_spec book :
  scorable book = true ↔ ∃ z, completeness_score book = Ok z.
Proof.
  unfold scorable, completeness_score, attr_get.
  destruct book as [| | | | | |d]; simpl;
    try (split; [done|by intros [z ?]]).
  destruct (default (JDict []) (dict_get "volumeInfo" d)) as [| | | | | |vi];
    simpl; try (split; [done|by intros [z ?]]).
  destruct (truth (default (JStr "") (dict_get "description" vi))) eqn:Et;
    simpl; [|split; [eauto|done]].
  destruct (default (JStr "") (dict_get "description" vi)); simpl;
    try (split; [done|by intros [z ?]]); split; eauto.
Qed.

Lemma completeness_score_range book z :
  completeness_score book = Ok z → 0 ≤ z ≤ 121.
Proof.
  unfold completeness_score, attr_get.
  destruct book as [| | | | | |d]; simpl; try done.
  destruct (default (JDict []) (dict_get "volumeInfo" d)) as [| | | | | |vi];
    simpl; try done.
  pose proof (credit_range vi "title" 10).
  pose proof (credit_range vi "authors" 10).
  pose proof (credit_range vi "categories" 15).
  pose proof (credit_range vi "publisher" 8).
  pose proof (credit_range vi "publishedDate" 8).
  pose proof (credit_range vi "pageCount" 5).
  pose proof (credit_range vi "averageRating" 12).
  pose proof (credit_range vi "ratingsCount" 10).
  pose proof (credit_range vi "imageLinks" 5).
  pose proof (credit_range vi "previewLink" 3).
  pose proof (credit_range vi "infoLink" 3).
  pose proof (credit_range vi "industryIdentifiers" 7).
  destruct (truth (default (JStr "") (dict_get "description" vi))); simpl.
  - destruct (len (default (JStr "") (dict_get "description" vi))) as [n|];
      simpl; [|done].
    destruct (100 <? n); intros [= <-]; lia.
  - intros [= <-]. lia.
Qed.

Lemma completeness_score_volume_info book z :
  completeness_score book = Ok z →
  ∃ vi, attr_get book "volumeInfo" (JDict []) = Ok (JDict vi).
Proof.
  unfold completeness_score.
  destruct (attr_get book "volumeInfo" (JDict [])) as [[| | | | | |vi]|];
    simpl; try done.
  eauto.
Qed.

(** The loop keeps the first item whose score exceeds the score it
    started from and every score before it, and is not exceeded after
    it. *)
Lemma best_of_spec items b0 s0 :
  Forall (λ book, scorable book = true) items →
  ∃ b, best_of items b0 s0 = Ok b
    ∧ ((b = b0
        ∧ ∀ j book z, items !! j = Some book →
                      completeness_score book = Ok z → z ≤ s0)
       ∨ ∃ i z, items !! i = Some b ∧ completeness_score b = Ok z ∧ s0 < z
           ∧ ∀ j book z', items !! j = Some book →
               completeness_score book = Ok z' →
               z' ≤ z ∧ ((j < i)%nat → z' < z)).
Proof.
  intros Hall. revert b0 s0.
  induction Hall as [|book items Hs _ IH]; intros b0 s0; simpl.
  - exists b0. split; [done|]. left. split; [done|]. by intros j ? ?.
  - apply scorable_spec in Hs as [z1 Hz1]. rewrite Hz1. simpl.
    destruct (s0 <? z1) eqn:Hlt.
    + apply Z.ltb_lt in Hlt.
      destruct (IH book z1) as (b & -> & [[-> Hle]|(i & z & Hi & Hz & Hgt & Hmax)]);
        exists b || exists book; (split; [done|]); right.
      * exists 0%nat, z1. split; [done|]. split; [done|]. split; [done|].
        intros [|j] bk z' Hj Hz'; simpl in Hj.
        -- injection Hj as <-. rewrite Hz1 in Hz'. injection Hz' as <-.
           split; [lia|]. lia.
        -- split; [by apply (Hle j bk)|lia].
      * exists (S i), z. split; [done|]. split; [done|]. split; [lia|].
        intros [|j] bk z' Hj Hz'; simpl in Hj.
        -- injection Hj as <-. rewrite Hz1 in Hz'. injection Hz' as <-.
           split; lia.
        -- destruct (Hmax j bk z' Hj Hz') as [? Hs]. split; [done|].
           intros ?. apply Hs. lia.
    + apply Z.ltb_ge in Hlt.
      destruct (IH b0 s0) as (b & -> & [[-> Hle]|(i & z & Hi & Hz & Hgt & Hmax)]);
        exists b || exists b0; (split; [done|]).
      * left. split; [done|]. intros [|j] bk z' Hj Hz'; simpl in Hj.
        -- injection Hj as <-. rewrite Hz1 in Hz'. injection Hz' as <-. lia.
        -- by apply (Hle j bk).
      * right. exists (S i), z. split; [done|]. split; [done|]. split; [done|].
        intros [|j] bk z' Hj Hz'; simpl in Hj.
        -- injection Hj as <-. rewrite Hz1 in Hz'. injection Hz' as <-.
           split; lia.
        -- destruct (Hmax j bk z' Hj Hz') as [? Hs]. split; [done|].
           intros ?. apply Hs. lia.
Qed.

Lemma best_of_raises items b0 s0 :
  Exists (λ book, scorable book = false) items →
  ∃ e, best_of items b0 s0 = Raise e.
Proof.
  intros Hex. revert b0 s0.
  induction Hex as [book items Hs|book items _ IH]; intros b0 s0; simpl.
  - destruct (completeness_score book) as [z|e] eqn:E; [|by exists e].
    assert (scorable book = true) by (apply scorable_spec; eauto). congruence.
  - destruct (completeness_score book) as [z|e] eqn:E; [|by exists e].
    simpl. destruct (s0 <? z); apply IH.
Qed.

(** Started from [None] and [-1], the loop over a list that is not
    empty returns one of its items. *)
Lemma best_of_from_none items :
  items ≠ [] →
  Forall (λ book, scorable book = true) items →
  ∃ i best z,
    best_of items JNull (-1) = Ok best
    ∧ items !! i = Some best ∧ completeness_score best = Ok z
    ∧ ∀ j book z', items !! j = Some book →
        completeness_score book = Ok z' →
        z' ≤ z ∧ ((j < i)%nat → z' < z).
Proof.
  intros Hne Hall.
  destruct (best_of_spec items JNull (-1) Hall)
    as (b & Hb & [[_ Hle]|(i & z & Hi & Hz & _ & Hmax)]).
  - (* the first item scores at least 0 *)
    exfalso. destruct items as [|b1 items]; [done|].
    apply Forall_cons in Hall as [H1 _].
    apply scorable_spec in H1 as [z1 Hz1].
    pose proof (completeness_score_range b1 z1 Hz1).
    specialize (Hle 0%nat b1 z1 eq_refl Hz1). lia.
  - by exists i, b, z.
Qed.

(** X6: of two or more results that can all be scored,
    [find_best_google_books_match] returns the first of those with the
    highest completeness score, a score between 0 and 121; the title
    and the author looked for play no part. *)
Theorem find_best_is_first_most_complete (items : list Json)
    (target_title target_author : string) :
  (2 ≤ length items)%nat →
  Forall (λ book, scorable book = true) items →
  ∃ i best z,
    find_best_google_books_match items target_title target_author = Ok best
    ∧ items !! i = Some best
    ∧ completeness_score best = Ok z ∧ 0 ≤ z ≤ 121
    ∧ ∀ j book z', items !! j = Some book →
        completeness_score book = Ok z' →
        z' ≤ z ∧ ((j < i)%nat → z' < z).
Proof.
  intros Hlen Hall.
  destruct items as [|b1 [|b2 items]]; simpl in Hlen; [lia|lia|].
  unfold find_best_google_books_match.
  destruct (best_of_from_none (b1 :: b2 :: items) ltac:(done) Hall)
    as (i & b & z & -> & Hi & Hz & Hmax).
  exists i, b, z. simpl.
  (* the title of the selected item can be formatted *)
  destruct (completeness_score_volume_info b z Hz) as [vi ->]. simpl.
  split; [done|]. split; [done|]. split; [done|].
  split; [by apply (completeness_score_range b)|done].
Qed.

Lemma find_best_is_first_most_complete_witness :
  ∃ best,
    find_best_google_books_match two_volumes "Dune" "" = Ok best
    ∧ two_volumes !! 1%nat = Some best
    ∧ completeness_score best = Ok 20.
Proof.
  destruct (find_best_is_first_most_complete two_volumes "Dune" "")
    as (i & best & z & Hb & Hi & Hz & _ & _).
  - simpl. lia.
  - repeat constructor.
  - exists best. split; [done|].
    assert (Ok best = Ok (default JNull (two_volumes !! 1%nat))) as [= ->]
      by (rewrite <- Hb; reflexivity).
    split; reflexivity.
Defined.

(** X7: [find_best_google_books_match] returns [None] for no result and
    the only result as it is, whatever it is; of two or more results it
    raises exactly when one of them cannot be scored: a result that is
    not a dictionary, or whose [volumeInfo] is not one, or whose
    [description] is a number or [True]. *)
Theorem find_best_raises_on_unscorable (items : list Json)
    (target_title target_author : string) :
  let res := find_best_google_books_match items target_title target_author in
  (items = [] → res = Ok JNull)
  ∧ (∀ item, items = [item] → res = Ok item)
  ∧ ((2 ≤ length items)%nat →
     ((∃ e, res = Raise e) ↔ Exists (λ book, scorable book = false) items)).
Proof.
  intros res. subst res. split; [by intros ->|]. split; [by intros item ->|].
  intros Hlen. split.
  - intros [e He].
    destruct (decide (Forall (λ book, scorable book = true) items)) as [Hall|Hno].
    + destruct items as [|b1 [|b2 items]]; simpl in Hlen; [lia|lia|].
      destruct (best_of_from_none (b1 :: b2 :: items) ltac:(done) Hall)
        as (i & b & z & Hb & _ & Hz & _).
      unfold find_best_google_books_match in He. rewrite Hb in He.
      destruct (completeness_score_volume_info b z Hz) as [vi Hvi].
      simpl in He. by rewrite Hvi in He.
    + apply not_Forall_Exists in Hno; [|intros b; apply _].
      eapply Exists_impl; [exact Hno|]. intros b Hb. simpl in Hb.
      by destruct (scorable b).
  - intros Hex.
    destruct items as [|b1 [|b2 items]]; simpl in Hlen; [lia|lia|].
    unfold find_best_google_books_match.
    destruct (best_of_raises (b1 :: b2 :: items) JNull (-1) Hex) as [e ->].
    by exists e.
Qed.

(** * Further outcomes of a worker run *)

Section outcomes.
Context (cfg : Config) (env : Env) (k : string) (r0 : JobRecord).
Context (f0 : FileSystem).

Local Abbreviation bp := (staging_path cfg k (info r0)).
Local Abbreviation ip := (intermediate_path_of cfg k).
Local Abbreviation fp := (final_path_of cfg k (info r0)).

Context (Hbf : bp ≠ fp) (Hif : ip ≠ fp) (Hbi : bp ≠ ip).

Local Abbreviation Stage := (Stage cfg env k r0 f0).
Local Abbreviation seen := (seen env r0).

Local Arguments Event.is_set : simpl never.
Local Arguments Event.wait : simpl never.
Local Arguments book_manager.download_book : simpl never.
Local Arguments subprocess.run : simpl never.
Local Arguments unlink_if_exists : simpl never.
Local Arguments shutil.move : simpl never.
Local Arguments shutil.copyfile : simpl never.
Local Arguments os_remove : simpl never.
Local Arguments os_rename : simpl never.
Local Arguments path_exists : simpl never.
Local Arguments publish : simpl never.
Local Arguments store_call : simpl never.

Local Ltac seen_false n :=
  match goal with
  | H : seen ?m = false |- _ =>
      let E := fresh in
      destruct (seen n) eqn:E;
      [ exfalso;
        assert (seen m = true) by (apply (seen_mono env r0 n m); [lia | exact E]);
        congruence
      | clear E ]
  end.

(** The signal is found set at the first or the second examination:
    nothing is fetched and no file is touched. *)
Lemma attempt_cancelled_early X0 I0 w :
  Stage 0 X0 I0 w → seen 2 = true →
  ∃ w', download_attempt cfg env k k w = (Ok None, w')
        ∧ fs w' = fs w ∧ fs_trace w' = fs_trace w
        ∧ status_trace w' = status_trace w
        ∧ seen (clock w') = true.
Proof.
  intros Hw Hs2. unfold download_attempt, bindM, mbind, M_bind.
  pose proof Hw as (Hl & Hc & _).
  destruct (is_set_live env k r0 w Hl)
    as (w1 & -> & Hl1 & Hc1 & Hf1 & Hft1 & Hst1 & _).
  rewrite Hc. destruct (seen 1) eqn:Hs1.
  { simpl. eexists. split; [done|]. simpl. rewrite Hc1, Hc. by split. }
  pose proof Hl1 as [(r1 & Hjob & _) _].
  unfold gets at 1. unfold book_queue._book_data. rewrite Hjob. simpl.
  match goal with |- context [Event.is_set env k ?w0] =>
    assert (Live env k r0 w0) as Hl1' by done;
    destruct (is_set_live env k r0 w0 Hl1')
      as (w2 & -> & Hl2 & Hc2 & Hf2 & Hft2 & Hst2 & _)
  end.
  simpl in Hc2. rewrite Hc1, Hc in Hc2. simpl. rewrite Hc1, Hc, Hs2. simpl.
  eexists. split; [done|]. simpl. rewrite Hf2, Hft2, Hst2, Hc2. simpl. done.
Qed.

(** Nothing is cancelled and the fetch reports a failure: the attempt
    raises, and the staging file is left as the fetch left it. *)
Lemma attempt_fetch_failed X0 I0 w :
  Stage 0 X0 I0 w → seen 4 = false →
  fetch_result env = FetchReturn false →
  ∃ w', download_attempt cfg env k k w
        = (Raise "Unknown error downloading book", w')
        ∧ Stage 4 (last_state (fetch_file_states env) X0) I0 w'.
Proof.
  intros Hw Hs4 Hfetch. unfold download_attempt, bindM, mbind, M_bind.
  destruct (is_set_step cfg env k r0 f0 0 X0 I0 w Hw) as (w1 & -> & H1 & _).
  seen_false 1%nat.
  destruct (found_step cfg env k r0 f0 1 X0 I0 w1 H1)
    as (bi & Hfound & Hbp & Hfp & Hti).
  unfold gets at 1. rewrite Hfound. simpl. rewrite Hbp.
  match goal with |- context [Event.is_set env k ?w0] =>
    assert (Stage 1 X0 I0 w0) as H1' by done;
    destruct (is_set_step cfg env k r0 f0 1 X0 I0 w0 H1') as (w2 & -> & H2 & _)
  end.
  seen_false 2%nat.
  destruct (download_book_step cfg env k r0 f0 Hbf Hbi 2 X0 I0 w2 H2)
    as (w3 & -> & H3).
  rewrite Hfetch. unfold Event.wait.
  destruct (is_set_step cfg env k r0 f0 2 _ I0 w3 H3) as (w4 & -> & H4 & _ & _).
  destruct (is_set_step cfg env k r0 f0 3 _ I0 w4 H4) as (w5 & -> & H5 & _ & _).
  rewrite Hs4. simpl. by eexists.
Qed.

Lemma remove_absent_step n Xi w :
  Stage n None Xi w →
  os_remove (remove_error env) bp w = (Raise "FileNotFoundError", w).
Proof.
  intros (_ & _ & _ & Hb & _).
  unfold os_remove, path_exists, bindM, mbind, M_bind, gets. by rewrite Hb.
Qed.

(** The first [shutil.move] fails and its retry succeeds: [os.remove]
    then finds the staging file gone and raises. *)
Lemma move_chain_retry n x Xi w e1 residue :
  Stage n (Some x) Xi w →
  move_first env = MoveFail e1 residue →
  move_second env = MoveRename ∨ (∃ m, move_second env = MoveCopy m) →
  ∃ w', move_chain cfg env k r0 w = (Raise "FileNotFoundError", w')
        ∧ Stage n None (Some x) w'.
Proof.
  intros Hw E1 E2. unfold move_chain, try_except.
  destruct (move_step cfg env k r0 f0 Hbf Hif Hbi (move_first env) n x Xi w Hw)
    as (res1 & w1 & -> & H1).
  rewrite E1 in H1. destruct H1 as [-> H1].
  set (Xi1 := match residue with Some m => Some (take m x) | None => Xi end) in *.
  unfold mbind, M_bind. simpl.
  assert (Stage n (Some x) Xi1
            (with_log ((DEBUG, "Error moving book: " +:+ e1
                         +:+ ", will try copying instead") :: log w1) w1))
    as H1' by done.
  destruct (move_step cfg env k r0 f0 Hbf Hif Hbi (move_second env) n x Xi1 _ H1')
    as (res2 & w2 & -> & H2).
  assert (res2 = Ok () ∧ Stage n None (Some x) w2) as [-> H2'].
  { destruct E2 as [E2|[m E2]]; by rewrite E2 in H2. }
  rewrite (remove_absent_step n (Some x) w2 H2'). by exists w2.
Qed.

(** Both [shutil.move] fail, [shutil.copyfile] and [os.remove]
    succeed. *)
Lemma move_chain_copy n x Xi w e1 residue1 e2 residue2 m :
  Stage n (Some x) Xi w →
  move_first env = MoveFail e1 residue1 →
  move_second env = MoveFail e2 residue2 →
  copyfile_result env = CopyOk m →
  remove_error env = None →
  ∃ w', move_chain cfg env k r0 w = (Ok (), w') ∧ Stage n None (Some x) w'.
Proof.
  intros Hw E1 E2 E3 E4. unfold move_chain, try_except.
  destruct (move_step cfg env k r0 f0 Hbf Hif Hbi (move_first env) n x Xi w Hw)
    as (res1 & w1 & -> & H1).
  rewrite E1 in H1. destruct H1 as [-> H1].
  set (Xi1 := match residue1 with Some m => Some (take m x) | None => Xi end) in *.
  unfold mbind, M_bind. simpl.
  assert (Stage n (Some x) Xi1
            (with_log ((DEBUG, "Error moving book: " +:+ e1
                         +:+ ", will try copying instead") :: log w1) w1))
    as H1' by done.
  destruct (move_step cfg env k r0 f0 Hbf Hif Hbi (move_second env) n x Xi1 _ H1')
    as (res2 & w2 & -> & H2).
  rewrite E2 in H2. destruct H2 as [-> H2].
  set (Xi2 := match residue2 with Some m => Some (take m x) | None => Xi1 end) in *.
  simpl.
  assert (Stage n (Some x) Xi2
            (with_log ((DEBUG, "Error copying book: " +:+ e2
                +:+ ", will try copying without permissions instead")
               :: log w2) w2)) as H2' by done.
  destruct (copyfile_step cfg env k r0 f0 Hif Hbi (copyfile_result env)
              n x Xi2 _ H2') as (res3 & w3 & -> & H3).
  rewrite E3 in H3. destruct H3 as [-> H3].
  pose proof H3 as (_ & _ & _ & Hb3 & _).
  unfold os_remove, path_exists, bindM, mbind, M_bind, gets.
  rewrite Hb3, E4. simpl. eexists. split; [done|].
  exact (Stage_put_bp cfg env k r0 f0 Hbf Hbi n (Some x) (Some x) None w3 H3).
Qed.

(** Nothing is cancelled up to the examination before the script, the
    fetch succeeds, the script (if any) runs and a staged file is
    there: the attempt is the publication of that file. *)
Lemma attempt_reaches_publish X0 I0 w x :
  Stage 0 X0 I0 w → seen 5 = false →
  fetch_result env = FetchReturn true →
  (CUSTOM_SCRIPT cfg ≠ "" → ∃ st, script_result env = ScriptRan st) →
  staged_file cfg env X0 = Some x →
  ∃ bi w7, Stage 5 (Some x) I0 w7
           ∧ download_attempt cfg env k k w = after_script cfg env k r0 bi w7.
Proof.
  intros Hw Hs5 Hfetch Hscript Hstaged.
  unfold download_attempt, bindM, mbind, M_bind.
  destruct (is_set_step cfg env k r0 f0 0 X0 I0 w Hw) as (w1 & -> & H1 & _).
  seen_false 1%nat.
  destruct (found_step cfg env k r0 f0 1 X0 I0 w1 H1)
    as (bi & Hfound & Hbp & Hfp & Hti).
  unfold gets at 1. rewrite Hfound. simpl. rewrite Hbp, Hfp.
  match goal with |- context [Event.is_set env k ?w0] =>
    assert (Stage 1 X0 I0 w0) as H1' by done;
    destruct (is_set_step cfg env k r0 f0 1 X0 I0 w0 H1') as (w2 & -> & H2 & _)
  end.
  seen_false 2%nat.
  destruct (download_book_step cfg env k r0 f0 Hbf Hbi 2 X0 I0 w2 H2)
    as (w3 & -> & H3).
  set (Xf := last_state (fetch_file_states env) X0) in *.
  rewrite Hfetch. unfold Event.wait.
  destruct (is_set_step cfg env k r0 f0 2 Xf I0 w3 H3) as (w4 & -> & H4 & _ & _).
  destruct (is_set_step cfg env k r0 f0 3 Xf I0 w4 H4) as (w5 & -> & H5 & _ & _).
  seen_false 4%nat. simpl.
  destruct (is_set_step cfg env k r0 f0 4 Xf I0 w5 H5) as (w6 & -> & H6 & _ & _).
  rewrite Hs5.
  destruct (bool_decide (CUSTOM_SCRIPT cfg ≠ "")) eqn:Hcs.
  - apply bool_decide_eq_true in Hcs. destruct (Hscript Hcs) as [states Hsr].
    match goal with |- context [subprocess.run env bp ?w0] =>
      assert (Stage 5 Xf I0 w0) as H6' by done;
      destruct (run_script_step cfg env k r0 f0 Hbf Hbi 5 Xf I0 w0 H6')
        as (w7 & -> & H7)
    end.
    rewrite Hsr in H7 |- *.
    assert (last_state states Xf = Some x) as HXs.
    { rewrite <- Hstaged. unfold staged_file.
      rewrite bool_decide_eq_true_2 by done. by rewrite Hsr. }
    rewrite HXs in H7. by exists bi, w7.
  - apply bool_decide_eq_false in Hcs.
    assert (Xf = Some x) as HXs.
    { rewrite <- Hstaged. unfold staged_file.
      by rewrite bool_decide_eq_false_2 by done. }
    rewrite HXs in H6. by exists bi, w6.
Qed.

(** The publication when the move to the intermediate name raises. *)
Lemma after_script_move_raises bi x Xi w e w' :
  Stage 5 (Some x) Xi w →
  move_chain cfg env k r0
    (with_log ((INFO, "Moving book to ingest directory: " +:+ bp +:+ " -> "
                      +:+ fp) :: log w) w) = (Raise e, w') →
  after_script cfg env k r0 bi w = (Raise e, w').
Proof.
  intros Hw Hmove. pose proof Hw as (_ & _ & _ & Hb & _).
  unfold after_script. rewrite Hb. simpl.
  rewrite publish_unfold. unfold bindM, mbind, M_bind. simpl.
  by rewrite Hmove.
Qed.

(** The publication when the move to the intermediate name succeeds and
    nothing is cancelled or fails afterwards. *)
Lemma after_script_move_ok bi x Xi w w1 :
  Stage 5 (Some x) Xi w →
  move_chain cfg env k r0
    (with_log ((INFO, "Moving book to ingest directory: " +:+ bp +:+ " -> "
                      +:+ fp) :: log w) w) = (Ok (), w1) →
  Stage 5 None (Some x) w1 →
  seen 6 = false → rename_error env = None →
  ∃ w', after_script cfg env k r0 bi w = (Ok (Some fp), w')
        ∧ Live env k r0 w' ∧ clock w' = 6%nat
        ∧ published cfg k r0 f0 x w'.
Proof.
  intros Hw Hmove H1 Hs6 Hre. pose proof Hw as (_ & _ & _ & Hb & _).
  unfold after_script. rewrite Hb. simpl.
  rewrite publish_unfold. unfold bindM, mbind, M_bind. simpl.
  rewrite Hmove.
  destruct (is_set_step cfg env k r0 f0 5 None (Some x) w1 H1)
    as (w2 & -> & H2 & _ & _).
  rewrite Hs6.
  destruct (rename_step cfg env k r0 f0 Hbf Hif Hbi x w2 H2)
    as (r3 & w3 & -> & H3 & Hhappy3).
  rewrite (Hhappy3 Hre) in H3 |- *. simpl.
  destruct H3 as (Hl & Hc & Hp). eexists. split; [done|]. done.
Qed.

End outcomes.

(** A run in which nothing is cancelled ends [AVAILABLE] or [ERROR]
    after the result of the [try] block, and logs the exception of the
    block. *)
Lemma run_without_cancellation cfg env k q f r res wa :
  jobs q !! k = Some r →
  staging_path cfg k (info r) ≠ final_path_of cfg k (info r) →
  intermediate_path_of cfg k ≠ final_path_of cfg k (info r) →
  staging_path cfg k (info r) ≠ intermediate_path_of cfg k →
  cancel_tick env = None → cancelSignal r = false →
  download_attempt cfg env k k (started_world k q f) = (res, wa) →
  let w' := run_worker cfg env k q f in
  fs w' = fs wa ∧ fs_trace w' = fs_trace wa
  ∧ (∃ r', jobs (queue w') !! k = Some r'
       ∧ status r' = (if truthy (returned res) then AVAILABLE else ERROR)
       ∧ download_path (info r')
         = (if truthy (returned res) then returned res
            else download_path (info r)))
  ∧ ∀ e, res = Raise e →
         (ERROR_TRACE, "Error downloading book: " +:+ e) ∈ log w'.
Proof.
  intros Hr Hbf Hif Hbi Hct Hcs E w'. subst w'.
  destruct (run_spec cfg env k q f r Hr Hbf Hif Hbi)
    as (res' & wa' & w3 & EA & _ & _ & _ & _ & _ & [Hrun Hsig] & _
        & Hfs & Hft & _ & Hlog & Hw).
  rewrite E in EA. injection EA as <- <-. rewrite Hw.
  destruct (conclude_frame k (returned res) (seen env r (clock w3)) w3)
    as (Hcf & Hctr & _).
  rewrite Hcf, Hctr, Hfs, Hft. split; [done|]. split; [done|].
  destruct (conclude_spec k r (returned res) w3 Hrun)
    as (r' & Hr' & Hst & Hpath & _).
  rewrite Hsig in Hr', Hst, Hpath.
  rewrite (seen_none env r _ Hct Hcs) in *.
  split; [by exists r'|].
  intros e ->. apply conclude_log.
  by rewrite (seen_none env r _ Hct Hcs) in Hlog.
Qed.

(** X8: when nothing is cancelled and the fetch returns a false value,
    the job ends [ERROR] with "Unknown error downloading book" logged;
    what the fetch wrote at the staging path is left there, and the
    intermediate and the public path are as they were. *)
Theorem fetch_failure_leaves_staged_file
    (cfg : Config) (env : Env) (book_id : string) (q : BookQueue)
    (f : FileSystem) (r : JobRecord) :
  let bp := staging_path cfg book_id (info r) in
  let ip := intermediate_path_of cfg book_id in
  let fp := final_path_of cfg book_id (info r) in
  let w' := run_worker cfg env book_id q f in
  jobs q !! book_id = Some r →
  bp ≠ fp → ip ≠ fp → bp ≠ ip →
  cancel_tick env = None → cancelSignal r = false →
  fetch_result env = FetchReturn false →
  (∃ r', jobs (queue w') !! book_id = Some r' ∧ status r' = ERROR
         ∧ download_path (info r') = download_path (info r))
  ∧ (ERROR_TRACE, "Error downloading book: Unknown error downloading book")
    ∈ log w'
  ∧ fs w' !! bp = last_state (fetch_file_states env) (f !! bp)
  ∧ fs w' !! ip = f !! ip
  ∧ never_written fp f w'.
Proof.
  intros bp ip fp w' Hr Hbf Hif Hbi Hct Hcs Hfetch. subst bp ip fp w'.
  destruct (attempt_fetch_failed cfg env book_id r f Hbf Hbi _ _ _
              (Stage_started cfg env book_id q f r Hr)
              (seen_none env r 4 Hct Hcs) Hfetch)
    as (wa & EA & (_ & _ & Hq & Hb & Hi)).
  destruct (run_without_cancellation cfg env book_id q f r _ wa
              Hr Hbf Hif Hbi Hct Hcs EA)
    as (Hfs & Hft & (r' & Hr' & Hst & Hpath) & Hlog).
  split; [by exists r'|]. split; [by apply Hlog|].
  rewrite Hfs. split; [done|]. split; [done|].
  unfold never_written. rewrite Hft. apply (quiet_final cfg book_id r f wa Hq).
Qed.

Lemma fetch_failure_leaves_staged_file_witness :
  fs (run_worker cfg_plain env_fetch_false "b1" one_book ∅) !! "/tmp/cwa/b1.epub"
  = Some [Byte.x50]
  ∧ book_queue.get_status_for_book "b1"
      (queue (run_worker cfg_plain env_fetch_false "b1" one_book ∅)) = Some ERROR.
Proof.
  destruct (fetch_failure_leaves_staged_file cfg_plain env_fetch_false "b1"
              one_book ∅ one_book_record)
    as ((r' & Hr' & Hst & _) & _ & Hb & _).
  - vm_compute. reflexivity.
  - vm_compute. discriminate.
  - vm_compute. discriminate.
  - vm_compute. discriminate.
  - reflexivity.
  - reflexivity.
  - reflexivity.
  - split; [exact Hb|].
    unfold book_queue.get_status_for_book. rewrite Hr'. simpl. by rewrite Hst.
Defined.

(** X9: when nothing is cancelled, the staged file is there, the first
    [shutil.move] fails and its retry succeeds, [os.remove] raises on
    the staging file that is gone: the job ends [ERROR] with
    [FileNotFoundError] logged, the complete file is left at the
    intermediate path, and the public path is never written. *)
Theorem move_retry_success_ends_in_error
    (cfg : Config) (env : Env) (book_id : string) (q : BookQueue)
    (f : FileSystem) (r : JobRecord) (x : list Byte.byte) (e1 : string)
    (residue : option nat) :
  let bp := staging_path cfg book_id (info r) in
  let ip := intermediate_path_of cfg book_id in
  let fp := final_path_of cfg book_id (info r) in
  let w' := run_worker cfg env book_id q f in
  jobs q !! book_id = Some r →
  bp ≠ fp → ip ≠ fp → bp ≠ ip →
  cancel_tick env = None → cancelSignal r = false →
  fetch_result env = FetchReturn true →
  (CUSTOM_SCRIPT cfg ≠ "" → ∃ st, script_result env = ScriptRan st) →
  staged_file cfg env (f !! bp) = Some x →
  move_first env = MoveFail e1 residue →
  move_second env = MoveRename ∨ (∃ m, move_second env = MoveCopy m) →
  (∃ r', jobs (queue w') !! book_id = Some r' ∧ status r' = ERROR
         ∧ download_path (info r') = download_path (info r))
  ∧ (ERROR_TRACE, "Error downloading book: FileNotFoundError") ∈ log w'
  ∧ fs w' !! bp = None
  ∧ fs w' !! ip = Some x
  ∧ never_written fp f w'.
Proof.
  intros bp ip fp w' Hr Hbf Hif Hbi Hct Hcs Hfetch Hscript Hstaged Hm1 Hm2.
  subst bp ip fp w'.
  destruct (attempt_reaches_publish cfg env book_id r f Hbf Hbi _ _ _ x
              (Stage_started cfg env book_id q f r Hr)
              (seen_none env r 5 Hct Hcs) Hfetch Hscript Hstaged)
    as (bi & w7 & H7 & EA).
  destruct (move_chain_retry cfg env book_id r f Hbf Hif Hbi 5 x _ _ e1 residue
              (Stage_with_log cfg env book_id r f 5 _ _
                 ((INFO, "Moving book to ingest directory: "
                         +:+ staging_path cfg book_id (info r) +:+ " -> "
                         +:+ final_path_of cfg book_id (info r)) :: log w7)
                 w7 H7) Hm1 Hm2)
    as (wa & Hmove & (_ & _ & Hq & Hb & Hi)).
  rewrite (after_script_move_raises cfg env book_id r f bi x _ w7 _ wa H7 Hmove)
    in EA.
  destruct (run_without_cancellation cfg env book_id q f r _ wa
              Hr Hbf Hif Hbi Hct Hcs EA)
    as (Hfs & Hft & (r' & Hr' & Hst & Hpath) & Hlog).
  split; [by exists r'|]. split; [by apply Hlog|].
  rewrite Hfs. split; [done|]. split; [done|].
  unfold never_written. rewrite Hft. apply (quiet_final cfg book_id r f wa Hq).
Qed.

Lemma move_retry_success_ends_in_error_witness :
  fs (run_worker cfg_plain env_move_retry "b1" one_book ∅)
    !! "/ingest/b1.crdownload" = Some [Byte.x50; Byte.x4b]
  ∧ book_queue.get_status_for_book "b1"
      (queue (run_worker cfg_plain env_move_retry "b1" one_book ∅)) = Some ERROR.
Proof.
  destruct (move_retry_success_ends_in_error cfg_plain env_move_retry "b1"
              one_book ∅ one_book_record [Byte.x50; Byte.x4b] "OSError" None)
    as ((r' & Hr' & Hst & _) & _ & _ & Hi & _).
  - vm_compute. reflexivity.
  - vm_compute. discriminate.
  - vm_compute. discriminate.
  - vm_compute. discriminate.
  - reflexivity.
  - reflexivity.
  - reflexivity.
  - intros H. by destruct H.
  - vm_compute. reflexivity.
  - reflexivity.
  - by left.
  - split; [exact Hi|].
    unfold book_queue.get_status_for_book. rewrite Hr'. simpl. by rewrite Hst.
Defined.

(** X10: when nothing is cancelled, the staged file is there, both
    [shutil.move] fail and [shutil.copyfile], [os.remove] and
    [os.rename] succeed, the job ends [AVAILABLE] with the final path as
    download path, the public path holds the staged file, and neither
    the staging nor the intermediate file is left. *)
Theorem copy_fallback_publishes
    (cfg : Config) (env : Env) (book_id : string) (q : BookQueue)
    (f : FileSystem) (r : JobRecord) (x : list Byte.byte)
    (e1 e2 : string) (residue1 residue2 : option nat) (m : nat) :
  let bp := staging_path cfg book_id (info r) in
  let ip := intermediate_path_of cfg book_id in
  let fp := final_path_of cfg book_id (info r) in
  let w' := run_worker cfg env book_id q f in
  jobs q !! book_id = Some r →
  bp ≠ fp → ip ≠ fp → bp ≠ ip →
  cancel_tick env = None → cancelSignal r = false →
  fetch_result env = FetchReturn true →
  (CUSTOM_SCRIPT cfg ≠ "" → ∃ st, script_result env = ScriptRan st) →
  staged_file cfg env (f !! bp) = Some x →
  move_first env = MoveFail e1 residue1 →
  move_second env = MoveFail e2 residue2 →
  copyfile_result env = CopyOk m →
  remove_error env = None → rename_error env = None →
  (∃ r', jobs (queue w') !! book_id = Some r' ∧ status r' = AVAILABLE
         ∧ download_path (info r') = Some fp)
  ∧ fs w' !! fp = Some x
  ∧ fs w' !! bp = None
  ∧ fs w' !! ip = None.
Proof.
  intros bp ip fp w' Hr Hbf Hif Hbi Hct Hcs Hfetch Hscript Hstaged
    Hm1 Hm2 Hcp Hrm Hrn.
  subst bp ip fp w'.
  destruct (attempt_reaches_publish cfg env book_id r f Hbf Hbi _ _ _ x
              (Stage_started cfg env book_id q f r Hr)
              (seen_none env r 5 Hct Hcs) Hfetch Hscript Hstaged)
    as (bi & w7 & H7 & EA).
  destruct (move_chain_copy cfg env book_id r f Hbf Hif Hbi 5 x _ _
              e1 residue1 e2 residue2 m
              (Stage_with_log cfg env book_id r f 5 _ _
                 ((INFO, "Moving book to ingest directory: "
                         +:+ staging_path cfg book_id (info r) +:+ " -> "
                         +:+ final_path_of cfg book_id (info r)) :: log w7)
                 w7 H7) Hm1 Hm2 Hcp Hrm)
    as (w1 & Hmove & H1).
  destruct (after_script_move_ok cfg env book_id r f Hbf Hif Hbi bi x _ w7 w1
              H7 Hmove H1 (seen_none env r 6 Hct Hcs) Hrn)
    as (wa & EA' & _ & _ & (Hf & Hb & Hi & _)).
  rewrite EA' in EA.
  destruct (run_without_cancellation cfg env book_id q f r _ wa
              Hr Hbf Hif Hbi Hct Hcs EA)
    as (Hfs & _ & (r' & Hr' & Hst & Hpath) & _).
  unfold returned in Hst, Hpath. rewrite truthy_final_path in Hst, Hpath.
  split; [by exists r'|]. by rewrite Hfs.
Qed.

Lemma copy_fallback_publishes_witness :
  fs (run_worker cfg_plain env_copy_fallback "b1" one_book ∅)
    !! "/ingest/b1.epub" = Some [Byte.x50; Byte.x4b]
  ∧ fs (run_worker cfg_plain env_copy_fallback "b1" one_book ∅)
      !! "/tmp/cwa/b1.epub" = None.
Proof.
  destruct (copy_fallback_publishes cfg_plain env_copy_fallback "b1"
              one_book ∅ one_book_record [Byte.x50; Byte.x4b]
              "PermissionError" "PermissionError" (Some 2%nat) (Some 2%nat)
              1%nat)
    as (_ & Hf & Hb & _).
  - vm_compute. reflexivity.
  - vm_compute. discriminate.
  - vm_compute. discriminate.
  - vm_compute. discriminate.
  - reflexivity.
  - reflexivity.
  - reflexivity.
  - intros H. by destruct H.
  - vm_compute. reflexivity.
  - reflexivity.
  - reflexivity.
  - reflexivity.
  - reflexivity.
  - reflexivity.
  - split; [exact Hf | exact Hb].
Defined.

(** X11: whenever a run ends [AVAILABLE] and a staged file was there
    when its existence was tested, neither the staging file nor the
    intermediate file is left. *)
Theorem available_leaves_no_temporary_file
    (cfg : Config) (env : Env) (book_id : string) (q : BookQueue)
    (f : FileSystem) (r r' : JobRecord) (x : list Byte.byte) :
  let bp := staging_path cfg book_id (info r) in
  let ip := intermediate_path_of cfg book_id in
  let fp := final_path_of cfg book_id (info r) in
  let w' := run_worker cfg env book_id q f in
  jobs q !! book_id = Some r →
  bp ≠ fp → ip ≠ fp → bp ≠ ip →
  jobs (queue w') !! book_id = Some r' → status r' = AVAILABLE →
  staged_file cfg env (f !! bp) = Some x →
  fs w' !! bp = None ∧ fs w' !! ip = None.
Proof.
  intros bp ip fp w' Hr Hbf Hif Hbi Hr' Hav Hstaged. subst bp ip fp w'.
  destruct (run_spec cfg env book_id q f r Hr Hbf Hif Hbi)
    as (res & wa & w3 & EA & Hca & Hpost & Hs2 & Hsm & Hsf & [Hrun Hsig] & Hc3
        & Hfs & Hft & Hst & Hlog & Hw).
  rewrite Hw in Hr' |- *.
  destruct (conclude_frame book_id (returned res)
              (seen env r (clock w3)) w3) as (Hcf & _ & _).
  destruct (conclude_spec book_id r (returned res) w3 Hrun)
    as (r'' & Hr'' & Hst'' & _ & _).
  rewrite Hsig in Hr'', Hst''. rewrite Hr' in Hr''.
  injection Hr'' as <-. rewrite Hav in Hst''.
  destruct (seen env r (clock w3)); [done|].
  destruct (truthy (returned res)) eqn:Htr; [|done].
  destruct res as [[p|]|e]; simpl in Htr; try done.
  destruct Hpost as [_ [[Hnone _]|(x' & _ & _ & _ & (_ & Hb & Hi & _))]].
  - congruence.
  - by rewrite Hcf, Hfs.
Qed.

Lemma available_leaves_no_temporary_file_witness :
  fs (run_worker cfg_plain env_ok "b1" one_book ∅) !! "/tmp/cwa/b1.epub" = None
  ∧ fs (run_worker cfg_plain env_ok "b1" one_book ∅) !! "/ingest/b1.crdownload"
    = None.
Proof.
  refine (available_leaves_no_temporary_file cfg_plain env_ok "b1" one_book ∅
       one_book_record
       {| info := mkBookInfo "b1" "Dune" "epub" (Some "/ingest/b1.epub")
                    (Some 1%float);
          status := AVAILABLE; priority := 0; insertionSeq := 0;
          cancelSignal := false |} [Byte.x50; Byte.x4b] _ _ _ _ _ _ _).
  - vm_compute. reflexivity.
  - vm_compute. discriminate.
  - vm_compute. discriminate.
  - vm_compute. discriminate.
  - vm_compute. reflexivity.
  - reflexivity.
  - vm_compute. reflexivity.
Defined.

(** X12: a job whose signal is set when its worker starts, or whose
    cancellation is requested before the second examination of the
    signal, is not fetched: the run changes no file and the job ends
    [CANCELLED], its download path as it was. *)
Theorem cancelled_before_fetch_touches_no_file
    (cfg : Config) (env : Env) (book_id : string) (q : BookQueue)
    (f : FileSystem) (r : JobRecord) :
  let bp := staging_path cfg book_id (info r) in
  let ip := intermediate_path_of cfg book_id in
  let fp := final_path_of cfg book_id (info r) in
  let w' := run_worker cfg env book_id q f in
  jobs q !! book_id = Some r →
  bp ≠ fp → ip ≠ fp → bp ≠ ip →
  cancelSignal r = true ∨ (∃ t, cancel_tick env = Some t ∧ (t ≤ 1)%nat) →
  fs w' = f ∧ fs_trace w' = [f]
  ∧ ∃ r', jobs (queue w') !! book_id = Some r' ∧ status r' = CANCELLED
          ∧ download_path (info r') = download_path (info r).
Proof.
  intros bp ip fp w' Hr Hbf Hif Hbi Hcancel. subst bp ip fp w'.
  assert (seen env r 2 = true) as Hs2.
  { unfold seen, due. destruct Hcancel as [->|(t & -> & Ht)]; [done|].
    apply orb_true_iff. right. apply Nat.leb_le. lia. }
  destruct (attempt_cancelled_early cfg env book_id r f _ _ _
              (Stage_started cfg env book_id q f r Hr) Hs2)
    as (wa & EA & Hfa & Hfta & _ & Hsa).
  destruct (run_spec cfg env book_id q f r Hr Hbf Hif Hbi)
    as (res & wa' & w3 & EA' & _ & _ & _ & _ & _ & [Hrun Hsig] & Hc3
        & Hfs & Hft & _ & _ & Hw).
  rewrite EA in EA'. injection EA' as <- <-. rewrite Hw.
  destruct (conclude_frame book_id (returned (Ok None))
              (seen env r (clock w3)) w3) as (Hcf & Hctr & _).
  rewrite Hcf, Hctr, Hfs, Hft, Hfa, Hfta.
  split; [done|]. split; [done|].
  assert (seen env r (clock w3) = true) as Hs3.
  { apply (seen_mono env r (clock wa) (clock w3)); [|done].
    rewrite Hc3. apply Nat.le_succ_diag_r. }
  destruct (conclude_spec book_id r (returned (Ok None)) w3 Hrun)
    as (r' & Hr' & Hst & Hpath & _).
  rewrite Hsig, Hs3 in Hr', Hst, Hpath. rewrite Hs3. by exists r'.
Qed.

Lemma cancelled_before_fetch_touches_no_file_witness :
  fs (run_worker cfg_plain env_cancel_first "b1" one_book ∅) = ∅
  ∧ ∃ r', jobs (queue (run_worker cfg_plain env_cancel_first "b1" one_book ∅))
            !! "b1" = Some r' ∧ status r' = CANCELLED.
Proof.
  destruct (cancelled_before_fetch_touches_no_file cfg_plain env_cancel_first
              "b1" one_book ∅ one_book_record)
    as (Hf & _ & r' & Hr' & Hst & _).
  - vm_compute. reflexivity.
  - vm_compute. discriminate.
  - vm_compute. discriminate.
  - vm_compute. discriminate.
  - right. exists 0%nat. split; [reflexivity|]. exact (le_S _ _ (le_n 0)).
  - split; [exact Hf|]. exists r'. split; [exact Hr' | exact Hst].
Defined.



(** * Workers and jobs in the process *)

(** X14: in every reachable state of the process no two futures whose
    workers have not written their terminal status are for the same
    job, and the job the coordinator holds between [get_next] and
    [submit] has no such future. *)
Theorem no_job_has_two_workers (cfg : Config) (s : System) :
  reachable cfg s →
  (∀ i j fu fu',
     active_futures s !! i = Some fu → active_futures s !! j = Some fu' →
     fut_phase fu ≠ Finished → fut_phase fu' ≠ Finished →
     fut_book_id fu = fut_book_id fu' → i = j)
  ∧ ∀ k flag i fu,
      coord s = Holding k flag → active_futures s !! i = Some fu →
      fut_book_id fu = k → fut_phase fu = Finished.
Proof.
  intros [acts Hrun].
  assert (Inv cfg s) as HI
    by (apply (run_Inv cfg acts init_system); [apply Inv_init|done]).
  split.
  - intros i j fu fu' Hi Hj Hl Hl' Hid.
    exact (inv_unique cfg s HI i j fu fu' Hi Hj Hl Hl' Hid).
  - intros k flag i fu Hc Hi Hid.
    destruct (decide (fut_phase fu = Finished)) as [|Hl]; [done|].
    destruct (inv_unique_held cfg s HI k); [by exists flag|].
    by exists i, fu.
Qed.

Lemma no_job_has_two_workers_witness :
  size (active_futures (after cfg_plain two_workers)) = 2%nat
  ∧ ∀ i j fu fu',
      active_futures (after cfg_plain two_workers) !! i = Some fu →
      active_futures (after cfg_plain two_workers) !! j = Some fu' →
      fut_phase fu ≠ Finished → fut_phase fu' ≠ Finished →
      fut_book_id fu = fut_book_id fu' → i = j.
Proof.
  split; [by vm_compute|].
  apply (no_job_has_two_workers cfg_plain (after cfg_plain two_workers)).
  exists two_workers. by vm_compute.
Defined.



(** * Requests to the book information services *)

Section net.
Context (net : Network).

(** A loop over endpoints raises nothing and requests a prefix of its
    list, the whole list when it returns nothing. *)
Lemma try_endpoint_spec endpoint t :
  ∃ r, try_endpoint net endpoint t = (Ok r, t ++ [endpoint])
       ∧ (r = match net (length t) endpoint with
              | Ok response =>
                  if status_code response =? 200
                  then match json response with
                       | Ok data => Some data
                       | Raise _ => None
                       end
                  else None
              | Raise _ => None
              end).
Proof.
  unfold try_endpoint, tryN, bindN, requests.get, retN.
  destruct (net (length t) endpoint) as [response|e]; [|by eexists].
  destruct (status_code response =? 200); [|by eexists].
  destruct (json response); by eexists.
Qed.



End net.

Section cleaning.
Implicit Types (s : string) (c : ascii).













End cleaning.


(** X17: [get_bookinfo_pro_work] and [get_bookinfo_pro_author] raise
    nothing; each requests its first endpoint and returns the body when
    the answer has status 200 and is JSON, and otherwise requests its
    second endpoint and returns that body under the same condition,
    [None] if not. *)
Theorem bookinfo_lookup_falls_back (net : Network) (id : string)
    (t : list Request) :
  (∀ e1 e2, work_endpoints id = [e1; e2] →
     get_bookinfo_pro_work net id t
     = match json_answer net (length t) e1 with
       | Some data => (Ok data, t ++ [e1])
       | None =>
           (Ok (default JNull (json_answer net (S (length t)) e2)),
            t ++ [e1; e2])
       end)
  ∧ (∀ e1 e2, author_endpoints id = [e1; e2] →
     get_bookinfo_pro_author net id t
     = match json_answer net (length t) e1 with
       | Some data => (Ok data, t ++ [e1])
       | None =>
           (Ok (default JNull (json_answer net (S (length t)) e2)),
            t ++ [e1; e2])
       end).
Proof.
  assert (∀ e1 e2,
    (let+ r := first_return (try_endpoint net) [e1; e2] in
     retN (default JNull r)) t
    = match json_answer net (length t) e1 with
      | Some data => (Ok data, t ++ [e1])
      | None =>
          (Ok (default JNull (json_answer net (S (length t)) e2)),
           t ++ [e1; e2])
      end) as Hloop.
  { intros e1 e2. unfold bindN. simpl. unfold bindN.
    destruct (try_endpoint_spec net e1 t) as (r1 & -> & Hr1).
    fold (json_answer net (length t) e1) in Hr1. rewrite <- Hr1.
    destruct r1 as [data|]; [done|].
    destruct (try_endpoint_spec net e2 (t ++ [e1])) as (r2 & -> & Hr2).
    rewrite List.length_app in Hr2. simpl in Hr2.
    replace (length t + 1)%nat with (S (length t)) in Hr2 by lia.
    fold (json_answer net (S (length t)) e2) in Hr2. rewrite <- Hr2.
    rewrite <- app_assoc. by destruct r2. }
  split; intros e1 e2 He.
  - unfold get_bookinfo_pro_work. rewrite He. apply Hloop.
  - unfold get_bookinfo_pro_author. rewrite He. apply Hloop.
Qed.

Lemma bookinfo_lookup_falls_back_witness :
  ∃ e1 e2,
    get_bookinfo_pro_work net_second "42" []
    = (Ok (JDict [("id", JInt 7)]), [e1; e2]).
Proof.
  exists {| url := "https://api.bookinfo.pro/api/book/basic_book_data/42";
            params := [("format", JStr "xml"); ("key", JStr "dummy")] |},
         {| url := "https://api.bookinfo.pro/api/book/basic_book_data/42";
            params := [("format", JStr "json"); ("key", JStr "dummy")] |}.
  rewrite (proj1 (bookinfo_lookup_falls_back net_second "42" []) _ _ eq_refl).
  reflexivity.
Defined.

(** * The search of Google Books *)

Lemma best_of_elem items b0 s0 b :
  best_of items b0 s0 = Ok b → b = b0 ∨ b ∈ items.
Proof.
  revert b0 s0. induction items as [|book items IH]; intros b0 s0; simpl.
  - intros [= <-]. by left.
  - destruct (completeness_score book) as [z|e]; simpl; [|done].
    destruct (s0 <? z); intros H; apply IH in H as [->|H].
    + right. by left.
    + right. by right.
    + by left.
    + right. by right.
Qed.

Lemma find_best_elem items title author best :
  find_best_google_books_match items title author = Ok best →
  best = JNull ∨ best ∈ items.
Proof.
  unfold find_best_google_books_match.
  destruct items as [|b1 [|b2 items]].
  - intros [= <-]. by left.
  - intros [= <-]. right. by left.
  - destruct (best_of (b1 :: b2 :: items) JNull (-1)) as [b|e] eqn:E;
      simpl; [|done].
    destruct (attr_get b "volumeInfo" (JDict [])) as [vi|]; simpl; [|done].
    destruct (attr_get vi "title" (JStr "N/A")); simpl; [|done].
    intros [= <-]. by apply best_of_elem in E.
Qed.

(** What the loop over the queries returns is an item, or the body, of
    a response with status 200. *)
Lemma google_answer_some title author max_results response v :
  google_answer title author max_results response = Ok (Some v) →
  status_code response = 200
  ∧ ∃ d items,
      json response = Ok (JDict d) ∧ dict_get "items" d = Some items
      ∧ truth items = true
      ∧ (1 < max_results → v = JDict d)
      ∧ (max_results ≤ 1 → ∃ l, items = JList l ∧ v ∈ l).
Proof.
  unfold google_answer.
  destruct (status_code response =? 200) eqn:Es; [|done].
  apply Z.eqb_eq in Es. split; [done|].
  destruct (json response) as [data|]; simpl in H |- *; [|done].
  destruct data as [| | | | | |d]; simpl in H; try done.
  destruct (dict_get "items" d) as [items|] eqn:Ei; simpl in H; [|done].
  destruct (truth items) eqn:Et; [|done].
  destruct (len items); simpl in H; [|done].
  exists d, items. split; [done|]. split; [done|]. split; [done|].
  destruct (1 <? max_results) eqn:Em.
  - injection H as <-. split; [done|]. apply Z.ltb_lt in Em. lia.
  - apply Z.ltb_ge in Em. split; [lia|]. intros _.
    destruct items as [| | | | |l|]; simpl in H; try done.
    exists l. split; [done|].
    destruct (find_best_google_books_match l title author) as [best|] eqn:Eb;
      simpl in H; [|done].
    destruct (truth best) eqn:Etb.
    + destruct (attr_get best "volumeInfo" (JDict [])) as [vi|]; simpl in H; [|done].
      destruct (attr_get best "searchInfo" (JDict [])) as [si|]; simpl in H; [|done].
      destruct (attr_get vi "title" JNull); simpl in H; [|done].
      destruct (keys si); simpl in H; [|done].
      destruct (attr_get vi "description" (JStr "")) as [ds|]; simpl in H; [|done].
      destruct (len ds); simpl in H; [|done].
      injection H as <-.
      apply find_best_elem in Eb as [->|Hb]; [done|done].
    + destruct l as [|first l]; [done|]. injection H as <-. by left.
Qed.

Section google_loop.
Context (net : Network) (req : string → Request)
  (answer : HttpResponse → Result (option Json)).

(** The loop over the queries makes one request for each query of a
    prefix of the list; what it returns is the answer to the last of
    them; an exception ends it. *)
Lemma google_loop_spec queries t :
  ∃ res made,
    first_return
      (λ query, let+ response := requests.get net (req query) in
                liftN (answer response)) queries t
    = (res, t ++ (req <$> made))
    ∧ made `prefix_of` queries
    ∧ (∀ v, res = Ok (Some v) →
         ∃ n query response,
           query ∈ queries ∧ net n (req query) = Ok response
           ∧ answer response = Ok (Some v))
    ∧ (∀ query rest e,
         queries = query :: rest → net (length t) (req query) = Raise e →
         res = Raise e ∧ made = [query]).
Proof.
  revert t. induction queries as [|q qs IH]; intros t; simpl.
  - exists (Ok None), []. unfold retN. simpl. by rewrite app_nil_r.
  - unfold bindN at 1. unfold bindN at 1. unfold requests.get, liftN.
    destruct (net (length t) (req q)) as [response|e] eqn:En.
    + destruct (answer response) as [[v|]|e] eqn:Ea.
      * exists (Ok (Some v)), [q]. unfold retN. split; [done|].
        split; [by exists qs|]. split; [|by intros ??? [= <- _]; congruence].
        intros v' [= <-].
        exists (length t), q, response. split; [by left|done].
      * cbn iota beta.
        pose proof (IH (t ++ [req q])) as IHt. unfold requests.get, liftN in IHt.
        destruct IHt as (res & made & -> & Hpre & Hv & _).
        exists res, (q :: made). rewrite <- app_assoc. split; [done|].
        split; [by apply prefix_cons|].
        split; [|by intros ??? [= <- _]; congruence].
        intros v Hres.
        destruct (Hv v Hres) as (n & q' & r' & Hin & Hn & Hr).
        exists n, q', r'. split; [by right|done].
      * exists (Raise e), [q]. split; [done|]. split; [by exists qs|].
        split; [done|]. intros ??? [= <- _]; congruence.
    + exists (Raise e), [q]. split; [done|]. split; [by exists qs|].
      split; [done|]. intros ??? [= <- _] ?. split; [congruence|done].
Qed.

End google_loop.

Lemma nonempty_false s : nonempty s = false ↔ s = "".
Proof.
  unfold nonempty. destruct (bool_decide_reflect (s = "")); naive_solver.
Qed.


Lemma search_google_books_spec net file title author api_key max_results
    projection t :
  ∃ v made,
    search_google_books net file title author api_key max_results projection t
    = (Ok v,
       t ++ ((λ query, google_request query max_results projection
                         (key_used file api_key)) <$> made))
    ∧ made `prefix_of` queries_to_try title author
    ∧ (not_available file api_key → made = [] ∧ v = JNull)
    ∧ (v ≠ JNull →
         ∃ n query response,
           query ∈ queries_to_try title author
           ∧ net n (google_request query max_results projection
                      (key_used file api_key)) = Ok response
           ∧ google_answer title author max_results response = Ok (Some v))
    ∧ (∀ query rest e,
         ¬ not_available file api_key →
         queries_to_try title author = query :: rest →
         net (length t) (google_request query max_results projection
                           (key_used file api_key)) = Raise e →
         made = [query] ∧ v = JNull).
Proof.
  unfold search_google_books. fold (key_used file api_key).
  destruct (negb (nonempty api_key)
            && (negb (truth (key_used file api_key))
                || negb (truth (default (JBool false)
                     (dict_get "isValid" (get_google_books_settings file))))))
    eqn:Eg.
  { exists JNull, []. unfold retN. simpl. rewrite app_nil_r.
    split; [done|]. split; [apply prefix_nil|]. split; [done|].
    split; [done|]. intros q qs e Hna. destruct Hna.
    apply andb_true_iff in Eg as [Hk Hs].
    apply negb_true_iff, nonempty_false in Hk. subst api_key.
    split; [done|]. unfold key_used in Hs. simpl in Hs.
    apply orb_true_iff in Hs as [Hs|Hs]; apply negb_true_iff in Hs; auto. }
  assert (Havail : ¬ not_available file api_key).
  { intros [-> Hs]. simpl in Eg. unfold key_used in Eg. simpl in Eg.
    destruct Hs as [Hs|Hs]; rewrite Hs in Eg; simpl in Eg;
      [done|by rewrite orb_true_r in Eg]. }
  unfold tryN.
  destruct (queries_to_try title author) as [|q qs] eqn:Eq.
  { exists JNull, []. unfold retN. simpl. rewrite app_nil_r.
    split; [done|]. split; [done|]. done. }
  cbv beta iota. rewrite <- Eq. unfold bindN at 1.
  destruct (google_loop_spec net
              (λ query, google_request query max_results projection
                          (key_used file api_key))
              (google_answer title author max_results)
              (queries_to_try title author) t)
    as (res & made & -> & Hpre & Hv & Hraise).
  destruct res as [r|e].
  - exists (default JNull r), made. unfold retN. split; [done|].
    split; [done|]. split; [done|]. split.
    + intros Hne. destruct r as [v|]; [|done]. by apply Hv.
    + intros q' qs' e _ Hq He. by destruct (Hraise q' qs' e Hq He).
  - exists JNull, made. unfold retN. split; [done|]. split; [done|].
    split; [done|]. split; [done|].
    intros q' qs' e' _ Hq He. by destruct (Hraise q' qs' e' Hq He) as [_ ->].
Qed.


(** X19: what [search_google_books] returns, if not [None], comes from a
    response with status 200 to one of its queries, whose body is a
    dictionary with a non-empty [items]: the whole body when more than
    one result is asked for, and else one of the items. *)
Theorem google_search_result (net : Network) (file : option (Result Json))
    (title author api_key : string) (max_results : Z) (projection : string)
    (t : list Request) (v : Json) :
  (search_google_books net file title author api_key max_results projection t).1
  = Ok v →
  v ≠ JNull →
  ∃ n query response d items,
    query ∈ queries_to_try title author
    ∧ net n (google_request query max_results projection
               (key_used file api_key)) = Ok response
    ∧ status_code response = 200
    ∧ json response = Ok (JDict d)
    ∧ dict_get "items" d = Some items
    ∧ truth items = true
    ∧ (1 < max_results → v = JDict d)
    ∧ (max_results ≤ 1 → ∃ l, items = JList l ∧ v ∈ l).
Proof.
  intros Hres Hne.
  destruct (search_google_books_spec net file title author api_key
              max_results projection t)
    as (v' & made & Heq & _ & _ & Hv & _).
  rewrite Heq in Hres. injection Hres as ->.
  destruct (Hv Hne) as (n & q & r & Hin & Hn & Ha).
  apply google_answer_some in Ha as (Hs & d & items & Hj & Hi & Ht & Hm & Hl).
  by exists n, q, r, d, items.
Qed.

Lemma google_search_result_witness :
  ∃ v l,
    (search_google_books net_two_volumes None "Dune" "" "key" 1 "full" []).1
    = Ok v
    ∧ v ∈ l ∧ l = two_volumes.
Proof.
  destruct (google_search_result net_two_volumes None "Dune" "" "key" 1 "full" []
              (default JNull (two_volumes !! 1%nat)))
    as (n & q & r & d & items & _ & Hn & _ & Hj & Hi & _ & _ & Hl).
  - reflexivity.
  - discriminate.
  - destruct Hl as (l & Hl & Hin); [lia|].
    exists (default JNull (two_volumes !! 1%nat)), l.
    split; [reflexivity|]. split; [done|].
    injection Hn as <-. injection Hj as <-. injection Hi as <-.
    by injection Hl as <-.
Defined.

(** * The enhanced details of a book *)

Lemma dict_get_set_eq key x d : dict_get key (dict_set key x d) = Some x.
Proof.
  induction d as [|[k v] d IH]; simpl.
  - by rewrite decide_True.
  - destruct (decide (k = key)) as [->|Hk]; simpl.
    + by rewrite decide_True.
    + by rewrite decide_False.
Qed.

Lemma dict_get_set_ne key key' x d :
  key' ≠ key → dict_get key' (dict_set key x d) = dict_get key' d.
Proof.
  intros Hne. induction d as [|[k v] d IH]; simpl.
  - by rewrite decide_False.
  - destruct (decide (k = key)) as [->|Hk]; simpl.
    + by rewrite !decide_False.
    + destruct (decide (k = key')); [done|apply IH].
Qed.

Lemma choose_preview_dict image_links sizes d :
  choose_preview (JDict image_links) sizes d
  = Ok match head (filter (λ size, is_Some (dict_get size image_links)) sizes) with
       | Some size =>
           dict_set "preview" (default JNull (dict_get size image_links)) d
       | None => d
       end.
Proof.
  induction sizes as [|size sizes IH]; simpl; [done|].
  rewrite filter_cons.
  destruct (decide (is_Some (dict_get size image_links))) as [Hs|Hs].
  - rewrite bool_decide_eq_true_2 by done. destruct Hs as [x Hx].
    simpl. by rewrite Hx.
  - rewrite bool_decide_eq_false_2 by done. apply IH.
Qed.


Section enhanced.
Context (book_info_of : string → Json) (file : option (Result Json))
  (google_data_of : Json → Json → Json) (book_id : string).


(** X21: with valid settings and Google data whose [volumeInfo] has
    image links, a book without preview gets as preview the link of the
    first size, from [extraLarge] down to [smallThumbnail], that the
    links have, and keeps being without one when they have none of the
    sizes; image links that are a number or a truth value make the
    function return [None]. *)
Theorem enhanced_details_preview (basic google_data volume_info
    : list (string * Json)) (image_links : Json) :
  let res :=
    get_enhanced_book_details book_info_of file google_data_of book_id
      (JDict basic) in
  let settings := get_google_books_settings file in
  basic ≠ [] →
  truth (default JNull (dict_get "apiKey" settings)) = true →
  truth (default JNull (dict_get "isValid" settings)) = true →
  google_data_of (default (JStr "") (dict_get "title" basic))
                 (default (JStr "") (dict_get "author" basic))
  = JDict google_data →
  dict_get "volumeInfo" google_data = Some (JDict volume_info) →
  truth (default JNull (dict_get "preview" basic)) = false →
  dict_get "imageLinks" volume_info = Some image_links →
  truth image_links = true →
  match image_links with
  | JDict links =>
      ∃ d, res = JDict d
        ∧ dict_get "preview" d
          = match first_size links with
            | Some size => dict_get size links
            | None => dict_get "preview" basic
            end
  | JBool _ | JInt _ | JFloat _ => res = JNull
  | _ => True
  end.
Proof.
  intros res settings Hne Hk Hv Hg Hvi Hp Hil Ht. subst settings.
  assert (Hb : truth (JDict basic) = true).
  { simpl. by rewrite bool_decide_eq_false_2. }
  assert (Hgt : truth (JDict google_data) = true).
  { destruct google_data; [done|]. reflexivity. }
  assert (Hres : ∃ google_books,
    res = match choose_preview image_links image_sizes
                  (dict_set "googleBooks" google_books basic) with
          | Ok d => JDict d
          | Raise _ => JNull
          end).
  { subst res. unfold get_enhanced_book_details.
    rewrite Hb. cbn [negb attr_get bindR]. rewrite Hk, Hv. cbn [negb orb].
    rewrite Hg, Hgt. cbn [attr_get bindR]. rewrite Hvi. simpl default at 1.
    cbn beta iota zeta.
    rewrite dict_get_set_ne by done. rewrite Hp, Hil. simpl default.
    rewrite Ht, Hb. cbn [negb andb].
    match goal with
    | |- context [dict_set "googleBooks" ?gb basic] => exists gb
    end.
    unfold bindR. by destruct (choose_preview _ _ _). }
  destruct Hres as [google_books Hres]. rewrite Hres. clear Hres res.
  destruct image_links as [|b|n|x| | |links]; try done.
  rewrite choose_preview_dict. fold (first_size links).
  eexists. split; [done|].
  destruct (first_size links) as [size|] eqn:Ef.
  - rewrite dict_get_set_eq.
    assert (Hin : size ∈ filter (λ size, is_Some (dict_get size links))
                           image_sizes).
    { unfold first_size in Ef. by apply head_Some_elem_of. }
    apply list_elem_of_filter in Hin as [[x Hx] _]. by rewrite Hx.
  - by rewrite dict_get_set_ne.
Qed.

End enhanced.


Lemma enhanced_details_preview_witness :
  ∃ d,
    get_enhanced_book_details (λ _, JNull) valid_settings (λ _ _, dune_volume)
      "b1" (JDict [("title", JStr "Dune")])
    = JDict d
    ∧ dict_get "preview" d = Some (JStr "large.jpg").
Proof.
  apply (enhanced_details_preview (λ _, JNull) valid_settings
           (λ _ _, dune_volume) "b1" [("title", JStr "Dune")]
           [("id", JStr "v1");
            ("volumeInfo",
             JDict [("title", JStr "Dune");
                    ("imageLinks",
                     JDict [("small", JStr "small.jpg");
                            ("large", JStr "large.jpg")])])]
           [("title", JStr "Dune");
            ("imageLinks",
             JDict [("small", JStr "small.jpg"); ("large", JStr "large.jpg")])]
           (JDict [("small", JStr "small.jpg"); ("large", JStr "large.jpg")]));
    try reflexivity.
  discriminate.
Defined.
